(** * dsd-agent: placeholder geometry, mapping reconciliation and application

    A shallow embedding of the deterministic core of the DSD agent:
    - [pptx_handler.py]: [Placeholder], [ArchitectureSlide], [DSDDocument]
      with [_assign_row_groups], [find_architecture_slides],
      [update_placeholder] and [update_placeholders_batch];
    - [agent.py]: [MappingResult], and [DSDAgent.create_mapping] and
      [DSDAgent.apply_mapping].

    Python objects are modelled by records, [dict] by [gmap] (or by an
    association list where the iteration order is observed), [set] by
    [gset], [float] by binary64 primitive floats, and exceptions by an
    explicit outcome type. *)

From Corelib Require Import PrimFloat.
From Stdlib Require Import ZArith Lia Ascii String DecimalString.
From stdpp Require Import base option list sorting strings gmap.

Set Warnings "-register-all,-inexact-float,-clear-no-such-hyp".

Open Scope string_scope.

(** ** Data model *)

(** [pptx_handler.Placeholder]: positions are inches, as Python floats. *)
Record Placeholder := mkPlaceholder {
  slide_index : Z;
  slide_title : string;
  shape_name : string;
  text : string;
  left : float;
  top : float;
  width : float;
  height : float;
  row_group : nat
}.

(** [pptx_handler.ArchitectureSlide]. *)
Record ArchitectureSlide := mkSlide {
  index : Z;
  title : string;
  placeholders : list Placeholder
}.

(** [image_analyzer.SystemComponent]. *)
Record SystemComponent := mkComponent {
  name : string;
  category : string;
  description : string;
  layer : string
}.

(** [image_analyzer.ArchitectureAnalysis]. *)
Record ArchitectureAnalysis := mkAnalysis {
  components : list SystemComponent;
  layers : list string;
  raw_analysis : string;
  source_type : string
}.

(** [integration_patterns.IntegrationPattern]; the mapping code only
    passes these records through. *)
Record IntegrationPattern := mkPattern {
  pattern_type : string;
  pattern_name : string;
  pattern_description : string
}.

(** [agent.MappingResult]. *)
Record MappingResult := mkMappingResult {
  mr_slide_index : Z;
  mr_slide_title : string;
  mappings : list (Placeholder * SystemComponent);
  unmapped_placeholders : list Placeholder;
  unmapped_components : list SystemComponent;
  integration_patterns : list IntegrationPattern
}.

(** One record [m] of [data["mappings"]], read the way [create_mapping]
    reads it: [m.get("shape_name")] is [None] when the key is absent,
    [m.get("reasoning", "")] falls back to the empty string.  The fields
    are taken at the types the dataclasses declare for them ([str]): the
    component name goes into [SystemComponent.name] as it is, so a record
    without [component_name] is not of this type. *)
Record RawEntry := mkEntry {
  e_shape_name : option string;
  e_component_name : string;
  e_reasoning : option string
}.

(** ** The mapping reconciler: [DSDAgent.create_mapping], lines 240-279 *)

Module Reconciler.

(** [{ph.shape_name: ph for ph in slide.placeholders}]: a later
    placeholder of the same name replaces an earlier one. *)
Definition ph_by_name (phs : list Placeholder) : gmap string Placeholder :=
  foldl (fun d ph => <[shape_name ph := ph]> d) ∅ phs.

(** [{c.name: c for c in analysis.components}]. *)
Definition comp_by_name (cs : list SystemComponent)
    : gmap string SystemComponent :=
  foldl (fun d c => <[name c := c]> d) ∅ cs.

(** The three accumulators of the loop: [mappings], [mapped_shapes],
    [mapped_components]. *)
Record LoopState := mkLoop {
  ls_mappings : list (Placeholder * SystemComponent);
  mapped_shapes : gset string;
  mapped_components : gset string
}.

Definition loop_init : LoopState := mkLoop [] ∅ ∅.

(** [SystemComponent(name=component_name, category="unknown",
    description=m.get("reasoning", ""))]. *)
Definition synthesized (m : RawEntry) : SystemComponent :=
  {| name := e_component_name m;
     category := "unknown";
     description := default "" (e_reasoning m);
     layer := "" |}.

(** [comp_by_name.get(component_name)], replaced by a synthesized
    component when it is [None]. *)
Definition resolve (cbn : gmap string SystemComponent) (m : RawEntry)
    : SystemComponent :=
  match cbn !! e_component_name m with
  | Some c => c
  | None => synthesized m
  end.

(** The body of [for m in data.get("mappings", [])]. *)
Definition loop_body (pbn : gmap string Placeholder)
    (cbn : gmap string SystemComponent) (st : LoopState) (m : RawEntry)
    : LoopState :=
  match e_shape_name m with
  | Some s =>
      match pbn !! s with
      | Some ph =>
          mkLoop (ls_mappings st ++ [(ph, resolve cbn m)])
                 ({[ s ]} ∪ mapped_shapes st)
                 (if decide (is_Some (cbn !! e_component_name m))
                  then {[ e_component_name m ]} ∪ mapped_components st
                  else mapped_components st)
      | None => st
      end
  | None => st
  end.

Definition run_loop (pbn : gmap string Placeholder)
    (cbn : gmap string SystemComponent) (raw : list RawEntry) : LoopState :=
  foldl (loop_body pbn cbn) loop_init raw.

(** [create_mapping] from "Build mapping result" on; [detected] is the
    value of [detected_patterns] computed above it. *)
Definition create_mapping (slide : ArchitectureSlide)
    (analysis : ArchitectureAnalysis) (detected : list IntegrationPattern)
    (raw : list RawEntry) : MappingResult :=
  let st := run_loop (ph_by_name (placeholders slide))
                     (comp_by_name (components analysis)) raw in
  {| mr_slide_index := index slide;
     mr_slide_title := title slide;
     mappings := ls_mappings st;
     unmapped_placeholders :=
       filter (fun ph => shape_name ph ∉ mapped_shapes st)
              (placeholders slide);
     unmapped_components :=
       filter (fun c => name c ∉ mapped_components st)
              (components analysis);
     integration_patterns := detected |}.

End Reconciler.

(** ** Python built-ins used by the document code *)

Module Py.

(** Exceptions that the modelled code can raise. *)
Inductive exn :=
| ValueError (msg : string)
| JSONDecodeError (doc : string)
| IndexError
| AttributeError
| TypeError.

(** The result of a call: a returned value or a raised exception. *)
Inductive outcome (A : Type) :=
| Return (a : A)
| Raise (e : exn).
Arguments Return {A} a.
Arguments Raise {A} e.

(** [sorted(l, key=...)] and [list.sort(key=...)]: a stable sort; [lt a b]
    is [key(a) < key(b)].  An element is put in front of the first element
    of the sorted tail that is not smaller than it, so equal keys keep
    their input order.  This is the list that Python's sort returns when
    [<] is a strict weak order on the keys (numbers other than nan): the
    ascending arrangement that keeps ties in input order is then the only
    one.  The statements about sorted lists carry that condition. *)
Fixpoint insert_by {A} (lt : A -> A -> bool) (x : A) (l : list A) : list A :=
  match l with
  | [] => [x]
  | y :: l' => if lt y x then y :: insert_by lt x l' else x :: y :: l'
  end.

Definition sorted_by {A} (lt : A -> A -> bool) (l : list A) : list A :=
  foldr (insert_by lt) [] l.

(** Whitespace of [str.strip()] on ASCII text: 9-13, 28-31 and 32. *)
Definition is_space (c : ascii) : bool :=
  let n := nat_of_ascii c in
  (((9 <=? n) && (n <=? 13)) || ((28 <=? n) && (n <=? 32)))%nat.

Fixpoint lstrip (s : string) : string :=
  match s with
  | String c s' => if is_space c then lstrip s' else s
  | EmptyString => EmptyString
  end.

Fixpoint rstrip (s : string) : string :=
  match s with
  | String c s' =>
      match rstrip s' with
      | EmptyString => if is_space c then EmptyString else String c EmptyString
      | r => String c r
      end
  | EmptyString => EmptyString
  end.

Definition strip (s : string) : string := rstrip (lstrip s).

(** [str.lower()] on ASCII text. *)
Definition lower_char (c : ascii) : ascii :=
  let n := nat_of_ascii c in
  if ((65 <=? n) && (n <=? 90))%nat then ascii_of_nat (n + 32) else c.

Fixpoint lower (s : string) : string :=
  match s with
  | String c s' => String (lower_char c) (lower s')
  | EmptyString => EmptyString
  end.

(** [sub in s]. *)
Fixpoint contains (sub s : string) : bool :=
  String.prefix sub s ||
  match s with
  | String _ s' => contains sub s'
  | EmptyString => false
  end.

(** ["sep".join(parts)]. *)
Fixpoint join (sep : string) (parts : list string) : string :=
  match parts with
  | [] => ""
  | [p] => p
  | p :: rest => p ++ sep ++ join sep rest
  end.

(** [s[:n]] and [s[n:]]. *)
Definition take_chars (n : nat) (s : string) : string := String.substring 0 n s.

Fixpoint drop_chars (n : nat) (s : string) : string :=
  match n, s with
  | S n', String _ s' => drop_chars n' s'
  | _, _ => s
  end.

(** An insertion-ordered [dict] as an association list: assigning to a key
    that is present replaces its value in place, a new key is appended. *)
Fixpoint dict_set {K V} `{EqDecision K} (k : K) (v : V) (d : list (K * V))
    : list (K * V) :=
  match d with
  | [] => [(k, v)]
  | (k', v') :: d' =>
      if decide (k = k') then (k', v) :: d' else (k', v') :: dict_set k v d'
  end.

(** The float of a Python [int]; exact below [2^53]. *)
Fixpoint float_of_pos (p : positive) : float :=
  match p with
  | xH => 1%float
  | xO p' => PrimFloat.mul 2%float (float_of_pos p')
  | xI p' => PrimFloat.add (PrimFloat.mul 2%float (float_of_pos p')) 1%float
  end.

Definition float_of_Z (z : Z) : float :=
  match z with
  | Z0 => 0%float
  | Zpos p => float_of_pos p
  | Zneg p => PrimFloat.opp (float_of_pos p)
  end.

End Py.

Import Py.

(** ** The geometry normalizer: [DSDDocument._assign_row_groups] *)

Module Geometry.

(** [abs(ph.top - current_top) > 0.5]. *)
Definition far (t current_top : float) : bool :=
  PrimFloat.ltb 0.5%float (PrimFloat.abs (PrimFloat.sub t current_top)).

(** [ph.row_group = row_group]. *)
Definition set_row_group (rg : nat) (p : Placeholder) : Placeholder :=
  {| slide_index := slide_index p; slide_title := slide_title p;
     shape_name := shape_name p; text := text p;
     left := left p; top := top p; width := width p; height := height p;
     row_group := rg |}.

(** The variables of the loop. The placeholder objects are shared by the
    argument list and by [sorted_ph]; an object is identified by its
    position in the argument list, and [rs_heap] holds the current
    contents of the objects, in the order of the argument list. *)
Record RowState := mkRow {
  rs_row_group : nat;
  rs_current_top : float;
  rs_heap : list Placeholder
}.

(** The row decision of one item: the new [row_group] and [current_top]. *)
Definition advance (rg : nat) (current_top t : float) : nat * float :=
  if far t current_top then (S rg, t) else (rg, current_top).

(** The body of [for ph in sorted_ph]; [ph] is the object at position
    [ph.1], and [ph.2] its contents when the list was sorted ([top] is
    never assigned, so it is the current [ph.top]). *)
Definition row_step (st : RowState) (ph : nat * Placeholder) : RowState :=
  let '(rg, cur) := advance (rs_row_group st) (rs_current_top st) (top ph.2) in
  mkRow rg cur (alter (set_row_group rg) ph.1 (rs_heap st)).

(** [key=lambda p: p.top]. *)
Definition top_lt (a b : nat * Placeholder) : bool :=
  PrimFloat.ltb (top a.2) (top b.2).

Definition _assign_row_groups (phs : list Placeholder) : list Placeholder :=
  let sorted_ph := sorted_by top_lt (imap pair phs) in
  match sorted_ph with
  | [] => phs
  | first :: _ =>
      rs_heap (foldl row_step (mkRow 0 (top first.2) phs) sorted_ph)
  end.

(** [key=lambda p: (p.row_group, p.left)], compared as tuples: the first
    components that differ decide. *)
Definition row_left_lt (a b : Placeholder) : bool :=
  if Nat.eqb (row_group a) (row_group b)
  then if PrimFloat.eqb (left a) (left b) then false
       else PrimFloat.ltb (left a) (left b)
  else Nat.ltb (row_group a) (row_group b).

(** Lines 115-116 of [find_architecture_slides]: assign the row groups and
    sort the same list in place. *)
Definition normalize (phs : list Placeholder) : list Placeholder :=
  sorted_by row_left_lt (_assign_row_groups phs).

End Geometry.

(** ** The document store: [DSDDocument] *)

Module Document.

(** A shape of a slide, as far as the handler reads it: its name, whether
    it has a text frame, whether it is a layout placeholder, the run texts
    of each paragraph of its text frame, and its box in EMU. *)
Record Shape := mkShape {
  sh_name : string;
  has_text_frame : bool;
  is_placeholder : bool;
  paragraphs : list (list string);
  sh_left : Z;
  sh_top : Z;
  sh_width : Z;
  sh_height : Z
}.

(** [self.path], [self.prs.slides] (each slide by its shapes) and the
    cache [self._architecture_slides]. *)
Record DSDDocument := mkDoc {
  path : string;
  prs : list (list Shape);
  _architecture_slides : option (list ArchitectureSlide)
}.

Definition newline : string := String (ascii_of_nat 10) EmptyString.

(** [shape.text_frame.text]: the paragraphs joined by a newline, each the
    concatenation of its runs. *)
Definition text_frame_text (sh : Shape) : string :=
  join newline (map (String.concat "") (paragraphs sh)).

Definition stripped_text (sh : Shape) : string := strip (text_frame_text sh).

Definition nonempty (s : string) : bool :=
  match s with EmptyString => false | _ => true end.

(** [_get_slide_title]: the first short text of a layout placeholder, else
    the first short text, else "Untitled". *)
Definition _get_slide_title (shapes : list Shape) : string :=
  match List.find (fun sh => has_text_frame sh
                     && (nonempty (stripped_text sh)
                     && (String.length (stripped_text sh) <? 100)%nat)
                     && is_placeholder sh) shapes with
  | Some sh => stripped_text sh
  | None =>
      match List.find (fun sh => has_text_frame sh
                         && (nonempty (stripped_text sh)
                         && (String.length (stripped_text sh) <? 80)%nat))
                      shapes with
      | Some sh => stripped_text sh
      | None => "Untitled"
      end
  end.

(** [_emu_to_inches]: [emu / 914400]. *)
Definition _emu_to_inches (emu : Z) : float :=
  PrimFloat.div (float_of_Z emu) 914400%float.

(** The placeholder built for a shape whose text mentions "lorem". *)
Definition placeholder_of (idx : nat) (title : string) (sh : Shape)
    : option Placeholder :=
  if has_text_frame sh && contains "lorem" (lower (stripped_text sh))
  then Some {| slide_index := Z.of_nat idx; slide_title := title;
               shape_name := sh_name sh; text := stripped_text sh;
               left := _emu_to_inches (sh_left sh);
               top := _emu_to_inches (sh_top sh);
               width := _emu_to_inches (sh_width sh);
               height := _emu_to_inches (sh_height sh);
               row_group := 0 |}
  else None.

(** One iteration of [for idx, slide in enumerate(self.prs.slides)]: the
    slide is kept when it has at least one placeholder. *)
Definition scan_slide (idx : nat) (shapes : list Shape)
    : option ArchitectureSlide :=
  let title := _get_slide_title shapes in
  match omap (placeholder_of idx title) shapes with
  | [] => None
  | phs => Some (mkSlide (Z.of_nat idx) title (Geometry.normalize phs))
  end.

Definition scan (slides : list (list Shape)) : list ArchitectureSlide :=
  omap id (imap scan_slide slides).

(** [find_architecture_slides]: the result and the document afterwards. *)
Definition find_architecture_slides (doc : DSDDocument)
    : list ArchitectureSlide * DSDDocument :=
  match _architecture_slides doc with
  | Some cached => (cached, doc)
  | None =>
      let found := scan (prs doc) in
      (found, mkDoc (path doc) (prs doc) (Some found))
  end.

(** The first run of the first paragraph that has one gets the new text;
    [None] when no paragraph has a run. *)
Fixpoint set_first_run (new_text : string) (ps : list (list string))
    : option (list (list string)) :=
  match ps with
  | [] => None
  | [] :: ps' => cons [] <$> set_first_run new_text ps'
  | (_ :: runs) :: ps' => Some ((new_text :: runs) :: ps')
  end.

Definition with_paragraphs (sh : Shape) (ps : list (list string)) : Shape :=
  mkShape (sh_name sh) (has_text_frame sh) (is_placeholder sh) ps
          (sh_left sh) (sh_top sh) (sh_width sh) (sh_height sh).

(** [for shape in slide.shapes] of [update_placeholder]: the result and the
    shapes afterwards.  A matching shape whose paragraphs have no run at
    all reaches [paragraphs[0].runs[0]], which raises [IndexError]; a
    matching shape without paragraphs is passed over. *)
Fixpoint update_shapes (name new_text : string) (shapes : list Shape)
    : outcome bool * list Shape :=
  match shapes with
  | [] => (Return false, [])
  | sh :: rest =>
      if String.eqb (sh_name sh) name && has_text_frame sh then
        match set_first_run new_text (paragraphs sh) with
        | Some ps => (Return true, with_paragraphs sh ps :: rest)
        | None =>
            match paragraphs sh with
            | [] => let '(r, rest') := update_shapes name new_text rest in
                    (r, sh :: rest')
            | _ :: _ => (Raise IndexError, sh :: rest)
            end
        end
      else
        let '(r, rest') := update_shapes name new_text rest in
        (r, sh :: rest')
  end.

(** [update_placeholder]. *)
Definition update_placeholder (doc : DSDDocument) (slide_index : Z)
    (name new_text : string) : outcome bool * DSDDocument :=
  if (slide_index <? 0)%Z || (Z.of_nat (length (prs doc)) <=? slide_index)%Z
  then (Return false, doc)
  else
    match prs doc !! Z.to_nat slide_index with
    | None => (Return false, doc)
    | Some shapes =>
        let '(r, shapes') := update_shapes name new_text shapes in
        (r, mkDoc (path doc)
                  (<[Z.to_nat slide_index := shapes']> (prs doc))
                  (_architecture_slides doc))
    end.

(** [update_placeholders_batch]: the loop over [updates.items()], from a
    given [count]. *)
Fixpoint batch_loop (doc : DSDDocument) (count : nat)
    (items : list ((Z * string) * string)) : outcome nat * DSDDocument :=
  match items with
  | [] => (Return count, doc)
  | ((slide_index, name), new_text) :: items' =>
      match update_placeholder doc slide_index name new_text with
      | (Return true, doc') => batch_loop doc' (S count) items'
      | (Return false, doc') => batch_loop doc' count items'
      | (Raise e, doc') => (Raise e, doc')
      end
  end.

Definition update_placeholders_batch (doc : DSDDocument)
    (updates : list ((Z * string) * string)) : outcome nat * DSDDocument :=
  batch_loop doc 0 updates.

End Document.

(** ** The mapping applier: [DSDAgent.apply_mapping] *)

Module Applier.

Import Document.

(** The [updates] dict: one assignment per mapped pair, in order. *)
Definition updates_of (mr : MappingResult) : list ((Z * string) * string) :=
  foldl (fun d pc => dict_set (mr_slide_index mr, shape_name pc.1)
                              (name pc.2) d)
        [] (mappings mr).

(** [apply_mapping], on the agent's [self.document]. *)
Definition apply_mapping (document : option DSDDocument)
    (mr : MappingResult) : outcome nat * option DSDDocument :=
  match document with
  | None => (Raise (ValueError "No document loaded"), None)
  | Some doc =>
      let '(r, doc') := update_placeholders_batch doc (updates_of mr) in
      (r, Some doc')
  end.

End Applier.

(** ** Reading the model's answer: [create_mapping], lines 223-249 *)

Module Response.

(** A decoded JSON value; an object keeps its members in document order. *)
Inductive json :=
| JNull
| JBool (b : bool)
| JNumber (lexeme : string)
| JString (s : string)
| JArray (items : list json)
| JObject (members : list (string * json)).

(** [d.get(key)] on a decoded object: the last member of that name. *)
Fixpoint obj_get (key : string) (members : list (string * json))
    : option json :=
  match members with
  | [] => None
  | (k, v) :: rest =>
      match obj_get key rest with
      | Some v' => Some v'
      | None => if String.eqb k key then Some v else None
      end
  end.

(** The text after the first occurrence of [sep]. *)
Fixpoint after_first (sep s : string) : option string :=
  if String.prefix sep s then Some (drop_chars (String.length sep) s)
  else match s with
       | String _ s' => after_first sep s'
       | EmptyString => None
       end.

(** [s.split(sep)[0]]: the text before the first occurrence of [sep]. *)
Fixpoint before_first (sep s : string) : string :=
  if String.prefix sep s then EmptyString
  else match s with
       | String c s' => String c (before_first sep s')
       | EmptyString => EmptyString
       end.

(** [s.split(sep)[1]], for [s] that contains [sep]. *)
Definition split_1 (sep s : string) : string :=
  match after_first sep s with
  | Some rest => before_first sep rest
  | None => EmptyString
  end.

Definition fence : string := "```".
Definition json_fence : string := "```json".

(** The reassignment of [response_text] in the [try] block. *)
Definition unfenced (response_text : string) : string :=
  if contains json_fence response_text
  then before_first fence (split_1 json_fence response_text)
  else if contains fence response_text
  then before_first fence (split_1 fence response_text)
  else response_text.

Fixpoint from_first_open (s : string) : option string :=
  match s with
  | EmptyString => None
  | String c s' => if Ascii.eqb c "{" then Some s else from_first_open s'
  end.

Fixpoint upto_last_close (s : string) : option string :=
  match s with
  | EmptyString => None
  | String c s' =>
      match upto_last_close s' with
      | Some r => Some (String c r)
      | None => if Ascii.eqb c "}" then Some (String c EmptyString) else None
      end
  end.

(** [re.search(r'\{[\s\S]*\}', s)]: from the first opening brace to the
    last closing brace after it. *)
Definition brace_span (s : string) : option string :=
  from_first_open s ≫= upto_last_close.

Definition parse_error_prefix : string := "Could not parse mapping response: ".

Section Parse.

(** [json.loads], of the Python standard library: [None] stands for
    [JSONDecodeError]. *)
Variable loads : string -> option json.

(** The [try]/[except] block that produces [data]. *)
Definition parse_response (response_text : string) : outcome json :=
  let response_text := unfenced response_text in
  match loads (strip response_text) with
  | Some data => Return data
  | None =>
      match brace_span response_text with
      | Some json_match =>
          match loads json_match with
          | Some data => Return data
          | None => Raise (JSONDecodeError json_match)
          end
      | None =>
          Raise (ValueError (parse_error_prefix ++ take_chars 500 response_text))
      end
  end.

(** [data.get("mappings", [])]: [data] has to be a dict. *)
Definition data_mappings (data : json) : outcome json :=
  match data with
  | JObject members => Return (default (JArray []) (obj_get "mappings" members))
  | _ => Raise AttributeError
  end.

(** The iterable of the mapping loop, from the response text. *)
Definition response_mappings (response_text : string) : outcome json :=
  match parse_response response_text with
  | Return data => data_mappings data
  | Raise e => Raise e
  end.

End Parse.

(** *** A JSON decoder for the examples

    A decoder for ASCII JSON text without [\u] escapes, by recursive
    descent with fuel. *)

Definition dquote : ascii := ascii_of_nat 34.
Definition backslash : ascii := ascii_of_nat 92.

Definition is_json_ws (c : ascii) : bool :=
  let n := nat_of_ascii c in
  (Nat.eqb n 32 || Nat.eqb n 9 || Nat.eqb n 10 || Nat.eqb n 13)%bool.

Fixpoint skip_ws (l : list ascii) : list ascii :=
  match l with
  | c :: l' => if is_json_ws c then skip_ws l' else l
  | [] => []
  end.

Definition is_digit (c : ascii) : bool :=
  let n := nat_of_ascii c in ((48 <=? n) && (n <=? 57))%nat.

Fixpoint span_digits (l : list ascii) : list ascii * list ascii :=
  match l with
  | c :: l' => if is_digit c
               then let '(ds, r) := span_digits l' in (c :: ds, r)
               else ([], l)
  | [] => ([], [])
  end.

Definition unescape (c : ascii) : option ascii :=
  if Ascii.eqb c dquote then Some dquote
  else if Ascii.eqb c backslash then Some backslash
  else if Ascii.eqb c "/" then Some "/"%char
  else if Ascii.eqb c "b" then Some (ascii_of_nat 8)
  else if Ascii.eqb c "f" then Some (ascii_of_nat 12)
  else if Ascii.eqb c "n" then Some (ascii_of_nat 10)
  else if Ascii.eqb c "r" then Some (ascii_of_nat 13)
  else if Ascii.eqb c "t" then Some (ascii_of_nat 9)
  else None.

(** The body of a string, after its opening quote. *)
Fixpoint scan_string (l : list ascii) : option (string * list ascii) :=
  match l with
  | [] => None
  | c :: l' =>
      if Ascii.eqb c dquote then Some (EmptyString, l')
      else if Ascii.eqb c backslash then
        match l' with
        | e :: l'' =>
            match unescape e, scan_string l'' with
            | Some c', Some (s, r) => Some (String c' s, r)
            | _, _ => None
            end
        | [] => None
        end
      else if (nat_of_ascii c <? 32)%nat then None
      else match scan_string l' with
           | Some (s, r) => Some (String c s, r)
           | None => None
           end
  end.

(** A number: an optional minus sign, an integer part without leading
    zeros, an optional fraction and an optional exponent; the longest match
    is taken. *)
Definition scan_number (l : list ascii) : option (string * list ascii) :=
  let '(sign, l1) := match l with
                     | "-"%char :: r => (["-"%char], r)
                     | _ => ([], l)
                     end in
  let int_part :=
    match l1 with
    | "0"%char :: r => Some (["0"%char], r)
    | c :: _ => if is_digit c then Some (span_digits l1) else None
    | [] => None
    end in
  match int_part with
  | None => None
  | Some (ds, l2) =>
      let '(frac, l3) :=
        match l2 with
        | "."%char :: r =>
            match span_digits r with
            | ([], _) => ([], l2)
            | (fs, r') => ("."%char :: fs, r')
            end
        | _ => ([], l2)
        end in
      let '(expo, l4) :=
        match l3 with
        | e :: r =>
            if Ascii.eqb e "e" || Ascii.eqb e "E" then
              let '(sg, r1) := match r with
                               | s :: r' => if Ascii.eqb s "+" || Ascii.eqb s "-"
                                            then ([s], r') else ([], r)
                               | [] => ([], r)
                               end in
              match span_digits r1 with
              | ([], _) => ([], l3)
              | (es, r') => (e :: sg ++ es, r')
              end
            else ([], l3)
        | [] => ([], l3)
        end in
      Some (string_of_list_ascii (sign ++ ds ++ frac ++ expo), l4)
  end.

Definition scan_literal (l : list ascii) : option (json * list ascii) :=
  let try (w : string) (v : json) :=
    let wl := list_ascii_of_string w in
    if bool_decide (take (length wl) l = wl)
    then Some (v, drop (length wl) l) else None in
  match try "null" JNull with Some r => Some r | None =>
  match try "true" (JBool true) with Some r => Some r | None =>
  match try "false" (JBool false) with Some r => Some r | None =>
  match try "NaN" (JNumber "NaN") with Some r => Some r | None =>
  match try "Infinity" (JNumber "Infinity") with Some r => Some r | None =>
  match try "-Infinity" (JNumber "-Infinity") with Some r => Some r | None =>
  match scan_number l with
  | Some (lexeme, r) => Some (JNumber lexeme, r)
  | None => None
  end end end end end end end.

Fixpoint parse_value (fuel : nat) (l : list ascii)
    : option (json * list ascii) :=
  match fuel with
  | 0 => None
  | S fuel' =>
      match l with
      | "["%char :: r =>
          match skip_ws r with
          | "]"%char :: r' => Some (JArray [], r')
          | r' => match parse_items fuel' r' with
                  | Some (items, r'') => Some (JArray items, r'')
                  | None => None
                  end
          end
      | "{"%char :: r =>
          match skip_ws r with
          | "}"%char :: r' => Some (JObject [], r')
          | r' => match parse_members fuel' r' with
                  | Some (members, r'') => Some (JObject members, r'')
                  | None => None
                  end
          end
      | c :: r =>
          if Ascii.eqb c dquote then
            match scan_string r with
            | Some (s, r') => Some (JString s, r')
            | None => None
            end
          else scan_literal l
      | [] => None
      end
  end
with parse_items (fuel : nat) (l : list ascii)
    : option (list json * list ascii) :=
  match fuel with
  | 0 => None
  | S fuel' =>
      match parse_value fuel' l with
      | Some (v, r) =>
          match skip_ws r with
          | ","%char :: r' =>
              match parse_items fuel' (skip_ws r') with
              | Some (vs, r'') => Some (v :: vs, r'')
              | None => None
              end
          | "]"%char :: r' => Some ([v], r')
          | _ => None
          end
      | None => None
      end
  end
with parse_members (fuel : nat) (l : list ascii)
    : option (list (string * json) * list ascii) :=
  match fuel with
  | 0 => None
  | S fuel' =>
      match l with
      | c :: r =>
          if Ascii.eqb c dquote then
            match scan_string r with
            | Some (k, r1) =>
                match skip_ws r1 with
                | ":"%char :: r2 =>
                    match parse_value fuel' (skip_ws r2) with
                    | Some (v, r3) =>
                        match skip_ws r3 with
                        | ","%char :: r4 =>
                            match parse_members fuel' (skip_ws r4) with
                            | Some (ms, r5) => Some ((k, v) :: ms, r5)
                            | None => None
                            end
                        | "}"%char :: r4 => Some ([(k, v)], r4)
                        | _ => None
                        end
                    | None => None
                    end
                | _ => None
                end
            | None => None
            end
          else None
      | [] => None
      end
  end.

Definition json_loads (s : string) : option json :=
  let l := skip_ws (list_ascii_of_string s) in
  match parse_value (2 * length l + 2) l with
  | Some (v, r) => match skip_ws r with [] => Some v | _ => None end
  | None => None
  end.

End Response.

(** ** The agent: [populate_slide] and [populate_all_slides] *)

Module Agent.

Import Py Document.

(** [integration_patterns.IntegrationAnalysis]. *)
Record IntegrationAnalysis := mkIntegration {
  patterns : list IntegrationPattern;
  primary_pattern : string;
  integration_style : string;
  recommended_technologies : list string;
  concerns : list string;
  raw_analysis : string
}.

(** The state of a [DSDAgent] that the populate methods read and write.
    The client is outside the program: [requests] counts the requests
    sent to it so far. *)
Record DSDAgent := mkAgent {
  document : option DSDDocument;
  _last_integration_analysis : option IntegrationAnalysis;
  requests : nat
}.

Definition set_document (d : option DSDDocument) (self : DSDAgent)
    : DSDAgent :=
  mkAgent d (_last_integration_analysis self) (requests self).

(** [str(n)] for an int. *)
Definition str (n : Z) : string := NilZero.string_of_int (Z.to_int n).

Definition _determine_slide_type (slide : ArchitectureSlide) : string :=
  let title_lower := lower (title slide) in
  if contains "current" title_lower then "Current State Architecture"
  else if contains "target" title_lower || contains "future" title_lower
  then "Target State Architecture"
  else if contains "timeline" title_lower then "Implementation Timeline"
  else if contains "north star" title_lower || contains "vision" title_lower
  then "Vision/Goals"
  else "Architecture Diagram".

Section Client.

(** The request to the model and the reading of its reply (lines 211-252):
    for the request of a given number, the entries that the mapping loop
    goes through, or the exception that ends [create_mapping] before a
    result is built. *)
Variable reply : nat -> ArchitectureSlide -> ArchitectureAnalysis
                 -> outcome (list RawEntry).

(** [detected_patterns], lines 195-208. *)
Definition detected_patterns (self : DSDAgent) : list IntegrationPattern :=
  match _last_integration_analysis self with
  | Some last => patterns last
  | None => []
  end.

(** [create_mapping], with [include_patterns] at its default. *)
Definition create_mapping (self : DSDAgent) (slide : ArchitectureSlide)
    (analysis : ArchitectureAnalysis) : outcome MappingResult * DSDAgent :=
  let self' := mkAgent (document self) (_last_integration_analysis self)
                       (S (requests self)) in
  match reply (requests self) slide analysis with
  | Return raw =>
      (Return (Reconciler.create_mapping slide analysis
                 (detected_patterns self) raw), self')
  | Raise e => (Raise e, self')
  end.

(** [self.apply_mapping(mapping)], its count dropped. *)
Definition apply_step (self : DSDAgent) (mapping : MappingResult)
    : outcome unit * DSDAgent :=
  match Applier.apply_mapping (document self) mapping with
  | (Return _, d) => (Return tt, set_document d self)
  | (Raise e, d) => (Raise e, set_document d self)
  end.

Definition populate_slide (self : DSDAgent) (slide_index : Z)
    (analysis : ArchitectureAnalysis) (dry_run : bool)
    : outcome MappingResult * DSDAgent :=
  match document self with
  | None => (Raise (ValueError "No document loaded"), self)
  | Some doc =>
      let '(slides, doc) := find_architecture_slides doc in
      let self := set_document (Some doc) self in
      match List.find (fun s => (index s =? slide_index)%Z) slides with
      | None =>
          (Raise (ValueError ("Slide " ++ str (slide_index + 1)
                              ++ " not found or has no placeholders")), self)
      | Some target_slide =>
          match create_mapping self target_slide analysis with
          | (Raise e, self) => (Raise e, self)
          | (Return mapping, self) =>
              if dry_run then (Return mapping, self)
              else match apply_step self mapping with
                   | (Raise e, self) => (Raise e, self)
                   | (Return _, self) => (Return mapping, self)
                   end
          end
      end
  end.

(** The test that makes the loop of [populate_all_slides] [continue]. *)
Definition filtered_out (slide_type_filter : option string)
    (slide_type : string) : bool :=
  match slide_type_filter with
  | Some f => nonempty f && negb (contains (lower f) (lower slide_type))
  | None => false
  end.

(** The loop of [populate_all_slides], from given [results]. *)
Fixpoint populate_loop (analysis : ArchitectureAnalysis)
    (slide_type_filter : option string) (dry_run : bool)
    (slides : list ArchitectureSlide) (self : DSDAgent)
    (results : list MappingResult)
    : outcome (list MappingResult) * DSDAgent :=
  match slides with
  | [] => (Return results, self)
  | slide :: slides' =>
      let slide_type := _determine_slide_type slide in
      if filtered_out slide_type_filter slide_type
      then populate_loop analysis slide_type_filter dry_run slides' self
                         results
      else
        match create_mapping self slide analysis with
        | (Raise e, self) => (Raise e, self)
        | (Return mapping, self) =>
            if dry_run
            then populate_loop analysis slide_type_filter dry_run slides'
                               self (results ++ [mapping])
            else match apply_step self mapping with
                 | (Raise e, self) => (Raise e, self)
                 | (Return _, self) =>
                     populate_loop analysis slide_type_filter dry_run
                                   slides' self (results ++ [mapping])
                 end
        end
  end.

Definition populate_all_slides (self : DSDAgent)
    (analysis : ArchitectureAnalysis) (slide_type_filter : option string)
    (dry_run : bool) : outcome (list MappingResult) * DSDAgent :=
  match document self with
  | None => (Raise (ValueError "No document loaded"), self)
  | Some doc =>
      let '(slides, doc) := find_architecture_slides doc in
      populate_loop analysis slide_type_filter dry_run slides
                    (set_document (Some doc) self) []
  end.

End Client.

End Agent.

(** ** The summary of the slides: [DSDDocument.get_slide_summary] *)

Module Summary.

Import Py Document.

(** The body of [for ph in slide.placeholders]: [rows] is the dict of the
    rows, in insertion order; a new row number is added with an empty
    list, and the placeholder is appended to the list of its row. *)
Fixpoint rows_append (ph : Placeholder)
    (rows : list (nat * list Placeholder)) : list (nat * list Placeholder) :=
  match rows with
  | [] => [(row_group ph, [ph])]
  | (row_num, phs) :: rows' =>
      if (row_num =? row_group ph)%nat then (row_num, (phs ++ [ph])%list) :: rows'
      else (row_num, phs) :: rows_append ph rows'
  end.

Definition rows_of (placeholders : list Placeholder)
    : list (nat * list Placeholder) :=
  foldl (fun rows ph => rows_append ph rows) [] placeholders.

(** The order of [sorted(rows.items())]: the items of a dict have
    distinct keys, so the row number decides. *)
Definition row_lt (a b : nat * list Placeholder) : bool := (a.1 <? b.1)%nat.

Definition row_line (row : nat * list Placeholder) : string :=
  ("    - Row " ++ Agent.str (Z.of_nat row.1 + 1) ++ ": "
   ++ Agent.str (Z.of_nat (length row.2)) ++ " boxes")%string.

(** The lines that one slide adds to the summary. *)
Definition slide_lines (slide : ArchitectureSlide) : list string :=
  ([ ("  Slide " ++ Agent.str (index slide + 1) ++ ": "
      ++ title slide)%string;
     ("    - " ++ Agent.str (Z.of_nat (length (placeholders slide)))
      ++ " placeholders")%string ]
   ++ map row_line (sorted_by row_lt (rows_of (placeholders slide))))%list.

Definition get_slide_summary (doc : DSDDocument) : string * DSDDocument :=
  let '(slides, doc) := find_architecture_slides doc in
  (join newline
     (("Found " ++ Agent.str (Z.of_nat (length slides))
       ++ " slides with Lorem Ipsum placeholders:" ++ newline)%string
      :: concat (map slide_lines slides)),
   doc).

End Summary.

(** ** Notions used to state the properties *)

Import Reconciler.

(** The pair that the loop records for an entry, if it records one. *)
Definition accepted (pbn : gmap string Placeholder)
    (cbn : gmap string SystemComponent) (m : RawEntry)
    : option (Placeholder * SystemComponent) :=
  s ← e_shape_name m; ph ← pbn !! s; Some (ph, resolve cbn m).

(** An entry whose identifier names no placeholder of the slide. *)
Definition unknown_identifier (phs : list Placeholder) (m : RawEntry) : Prop :=
  match e_shape_name m with
  | Some s => s ∉ map shape_name phs
  | None => True
  end.

(** The identifiers of the raw entries that name a placeholder of the
    slide, in the order of the raw list. *)
Definition named_identifiers (phs : list Placeholder) (raw : list RawEntry)
    : list string :=
  filter (fun s => s ∈ map shape_name phs) (omap e_shape_name raw).

(** *** Sample data *)

Definition sample_ph (n : string) (l t : float) : Placeholder :=
  mkPlaceholder 0 "Target State" n "Lorem ipsum" l t 2%float 1%float 0.

Definition ph1 : Placeholder := sample_ph "ph1" 1%float 1%float.
Definition ph2 : Placeholder := sample_ph "ph2" 4%float 1%float.

Definition sample_slide : ArchitectureSlide :=
  mkSlide 0 "Target State" [ph1; ph2].

Definition api_gateway : SystemComponent :=
  mkComponent "API Gateway" "integration" "" "".

Definition sample_analysis : ArchitectureAnalysis :=
  mkAnalysis [api_gateway] [] "" "notes".

(** The scenario of the specification: a known name, an invented name and
    an identifier that is not on the slide. *)
Definition scenario_raw : list RawEntry :=
  [ mkEntry (Some "ph1") "API Gateway" None;
    mkEntry (Some "ph2") "Legacy ESB" (Some "named in the notes");
    mkEntry (Some "ph9") "API Gateway" None ].

(** A response that names [ph1] twice. *)
Definition duplicate_raw : list RawEntry :=
  [ mkEntry (Some "ph1") "API Gateway" None;
    mkEntry (Some "ph1") "Legacy ESB" None ].

(** [d.get(k)] on an insertion-ordered dict. *)
Fixpoint dict_get {K V} `{EqDecision K} (k : K) (d : list (K * V))
    : option V :=
  match d with
  | [] => None
  | (k', v) :: d' => if decide (k = k') then Some v else dict_get k d'
  end.

Import Document.

(** The document after a sequence of [update_placeholder] calls. *)
Definition write_all (doc : DSDDocument)
    (writes : list ((Z * string) * string)) : DSDDocument :=
  foldl (fun d w => (update_placeholder d w.1.1 w.1.2 w.2).2) doc writes.

(** The write that [apply_mapping] asks for a mapped pair. *)
Definition write_pair (doc : DSDDocument) (mr : MappingResult)
    (pc : Placeholder * SystemComponent) : outcome bool * DSDDocument :=
  update_placeholder doc (mr_slide_index mr) (shape_name pc.1) (name pc.2).

(** The write operation reported success. *)
Definition succeeded (r : outcome bool) : bool :=
  match r with
  | Return true => true
  | _ => false
  end.

(** A deck of one slide: a title and the two placeholders of
    [sample_slide], one inch high, at one inch from the top. *)
Definition sample_shape (n txt : string) (is_ph : bool) (l t w : Z) : Shape :=
  mkShape n true is_ph [[txt]] l t w 914400.

Definition sample_doc : DSDDocument :=
  mkDoc "deck.pptx"
    [ [ sample_shape "Title 1" "Target State" true 0 0 9144000;
        sample_shape "ph2" "Lorem ipsum" false 3657600 914400 1828800;
        sample_shape "ph1" "Lorem ipsum" false 914400 914400 1828800 ] ]
    None.

(** A result whose first pair names a shape that is not in [sample_doc]. *)
Definition partial_result : MappingResult :=
  mkMappingResult 0 "Target State"
    [ (sample_ph "gone" 1%float 4%float, api_gateway); (ph1, api_gateway) ]
    [ph2] [] [].

Import Response.

(** The text of a JSON string literal: [s] between double quotes. *)
Definition quoted (s : string) : string :=
  String dquote (s ++ String dquote EmptyString)%string.

Import Geometry.

(** [lt] is a strict total order on the members of [xs]. *)
Definition strict_total_on {A} (lt : A -> A -> bool) (xs : list A) : Prop :=
  (forall x, x ∈ xs -> lt x x = false) /\
  (forall x y z, x ∈ xs -> y ∈ xs -> z ∈ xs ->
     lt x y = true -> lt y z = true -> lt x z = true) /\
  (forall x y, x ∈ xs -> y ∈ xs -> lt x y = false -> lt y x = false -> x = y).

(** No element is smaller than an element before it. *)
Definition ascending {A} (lt : A -> A -> bool) (l : list A) : Prop :=
  StronglySorted (fun x y => lt y x = false) l.

(** The row groups as the specification words them: walk the tops in
    ascending order with [current_top], initially the first top, and
    [row_group], initially 0; an item further than the threshold 0.5 from
    [current_top] increments [row_group] and resets [current_top] to its
    own top; every item gets the [row_group] of that moment. *)
Fixpoint spec_row_walk (row_group : nat) (current_top : float)
    (tops : list float) : list nat :=
  match tops with
  | [] => []
  | t :: rest =>
      if PrimFloat.ltb 0.5%float (PrimFloat.abs (PrimFloat.sub t current_top))
      then S row_group :: spec_row_walk (S row_group) t rest
      else row_group :: spec_row_walk row_group current_top rest
  end.

Definition spec_row_groups (tops : list float) : list nat :=
  match tops with
  | [] => []
  | first :: _ => spec_row_walk 0 first tops
  end.

(** The scenario of the specification: placeholders at the tops
    0.1, 0.15, 3.0, 3.05 and 6.2. *)
Definition scenario_tops : list Placeholder :=
  [ sample_ph "a" 1%float 0.1%float; sample_ph "b" 4%float 0.15%float;
    sample_ph "c" 1%float 3.0%float; sample_ph "d" 4%float 3.05%float;
    sample_ph "e" 1%float 6.2%float ].

(** The variables [(row_group, current_top)] of the row loop after the
    tops [ks]. *)
Definition run_rows (st : nat * float) (ks : list float) : nat * float :=
  foldl (fun st t => advance st.1 st.2 t) st ks.

(** The row group of a top [t] among the tops [tops]: the row group that
    the loop has reached when it has gone through the tops up to [t]. *)
Definition row_of (tops : list float) (t : float) : nat :=
  let ks := sorted_by PrimFloat.ltb tops in
  match ks with
  | [] => 0
  | first :: _ =>
      (run_rows (0, first)
                (filter (fun k => PrimFloat.ltb t k = false) ks)).1
  end.

(** The tops are numbers that [<] orders (no [nan], and not both zeros of
    opposite sign), and a top is not further than the threshold from
    itself. *)
Definition tops_ordered (tops : list float) : Prop :=
  strict_total_on PrimFloat.ltb tops /\
  forall t, t ∈ tops -> far t t = false.

(** Three placeholders in two rows, and two placeholders of one row that
    are stacked at the same [left]. *)
Definition three_boxes : list Placeholder :=
  [ sample_ph "c" 1%float 3.0%float; sample_ph "a" 1%float 0.1%float;
    sample_ph "b" 4%float 0.15%float ].

Definition three_boxes_shuffled : list Placeholder :=
  [ sample_ph "b" 4%float 0.15%float; sample_ph "c" 1%float 3.0%float;
    sample_ph "a" 1%float 0.1%float ].

Definition stacked_upper : Placeholder := sample_ph "upper" 8%float 1%float.
Definition stacked_lower : Placeholder := sample_ph "lower" 8%float 1.25%float.

(** A slide with two shapes of the same name. *)
Definition twin_slide : ArchitectureSlide :=
  mkSlide 0 "Target State"
    [ sample_ph "ph1" 1%float 1%float; sample_ph "ph1" 4%float 1%float ].

(** Two shapes that differ at most in the texts of their runs: the same
    name, kind and box, and the same number of runs in every paragraph. *)
Definition same_frame (sh sh' : Shape) : Prop :=
  sh_name sh' = sh_name sh /\
  has_text_frame sh' = has_text_frame sh /\
  is_placeholder sh' = is_placeholder sh /\
  (sh_left sh', sh_top sh', sh_width sh', sh_height sh') =
  (sh_left sh, sh_top sh, sh_width sh, sh_height sh) /\
  map length (paragraphs sh') = map length (paragraphs sh).

(** The runs of a text frame, in reading order. *)
Definition runs_of (sh : Shape) : list string := concat (paragraphs sh).

(** The slides of [doc'] are those of [doc], except possibly the slide of
    index [idx]. *)
Definition at_most_slide (idx : Z) (doc doc' : DSDDocument) : Prop :=
  prs doc' = prs doc \/
  ((0 <= idx)%Z /\
   exists shapes, prs doc' = <[Z.to_nat idx := shapes]> (prs doc)).



(** [lt] is a strict weak order on the members of [xs]: it is irreflexive
    and transitive, and so is "not less than". *)
Definition strict_weak_on {A} (lt : A -> A -> bool) (xs : list A) : Prop :=
  (forall x, x ∈ xs -> lt x x = false) /\
  (forall x y z, x ∈ xs -> y ∈ xs -> z ∈ xs ->
     lt x y = true -> lt y z = true -> lt x z = true) /\
  (forall x y z, x ∈ xs -> y ∈ xs -> z ∈ xs ->
     lt x y = false -> lt y z = false -> lt x z = false).

(** The comparison of two [left] values inside the tuple keys. *)
Definition left_lt (x y : float) : bool :=
  if PrimFloat.eqb x y then false else PrimFloat.ltb x y.

(** The character [c] does not occur in [s]. *)
Fixpoint lacks (c : ascii) (s : string) : bool :=
  match s with
  | EmptyString => true
  | String x s' => negb (Ascii.eqb x c) && lacks c s'
  end.

Definition backtick : ascii := "`"%char.

(** The presentation that the agent holds, if any. *)
Definition presentation (self : Agent.DSDAgent)
    : option (list (list Shape)) :=
  prs <$> Agent.document self.

(** The slides that [populate_all_slides] works on: those of the
    architecture list whose type passes the filter. *)
Definition selected (slide_type_filter : option string)
    (slides : list ArchitectureSlide) : list ArchitectureSlide :=
  filter (fun s => Agent.filtered_out slide_type_filter
                     (Agent._determine_slide_type s) = false) slides.

(** An agent that holds the sample deck, and a client that answers every
    request with the scenario of the specification. *)
Definition sample_agent : Agent.DSDAgent :=
  Agent.mkAgent (Some sample_doc) None 0.

Definition sample_reply (n : nat) (slide : ArchitectureSlide)
    (analysis : ArchitectureAnalysis) : outcome (list RawEntry) :=
  Return scenario_raw.

(** What the loop over the placeholders keeps true of the dict [rows]. *)
Definition rows_inv (seen : list Placeholder)
    (rows : list (nat * list Placeholder)) : Prop :=
  NoDup (map fst rows) /\
  Forall (fun g => g.2 <> [] /\
                   g.2 = filter (fun p => row_group p = g.1) seen) rows /\
  (forall p, p ∈ seen -> row_group p ∈ map fst rows) /\
  sum_list (map (fun g : nat * list Placeholder => length g.2) rows)
  = length seen.

(** Neither of [x] and [y] is before the other one in the order [lt]:
    their keys tie. *)
Definition tied {A} (lt : A -> A -> bool) (x y : A) : bool :=
  negb (lt x y) && negb (lt y x).

(** * Properties *)

Open Scope list_scope.

(** ** Dictionaries built by comprehension *)

Section ByName.
Context {A : Type} (key : A -> string).

Let by_name (l : list A) : gmap string A :=
  foldl (fun d x => <[key x := x]> d) ∅ l.

Lemma by_name_from (l : list A) (d : gmap string A) s :
  foldl (fun d x => <[key x := x]> d) d l !! s =
  match last (filter (fun x => key x = s) l) with
  | Some x => Some x
  | None => d !! s
  end.
Proof.
  revert d. induction l as [|p l IH]; intros d; simpl; [done|].
  rewrite IH. rewrite filter_cons.
  destruct (decide (key p = s)) as [<-|Hne].
  - destruct (filter _ l) as [|q l'] eqn:E; simpl.
    + by rewrite lookup_insert_eq.
    + rewrite last_cons. destruct (last l'); done.
  - destruct (last _); [done|]. by rewrite lookup_insert_ne.
Qed.

Lemma by_name_lookup l s :
  by_name l !! s = last (filter (fun x => key x = s) l).
Proof.
  unfold by_name. rewrite by_name_from.
  destruct (last _); [done|apply lookup_empty].
Qed.

Lemma by_name_Some l s x :
  by_name l !! s = Some x -> x ∈ l /\ key x = s.
Proof.
  rewrite by_name_lookup. intros H.
  assert (x ∈ filter (fun x => key x = s) l) as Hin.
  { destruct (filter _ l) as [|q l'] using rev_ind; [done|].
    rewrite last_snoc in H. injection H as ->. set_solver. }
  by apply list_elem_of_filter in Hin as [? ?].
Qed.

Lemma by_name_None l s :
  by_name l !! s = None <-> s ∉ map key l.
Proof.
  rewrite by_name_lookup. split.
  - intros H Hin. apply list_elem_of_fmap in Hin as (x & -> & Hin).
    assert (x ∈ filter (fun p => key p = key x) l) as Hf
      by (apply list_elem_of_filter; done).
    destruct (filter _ l) as [|q l'] using rev_ind; [set_solver|].
    by rewrite last_snoc in H.
  - intros H. destruct (filter _ l) as [|q l'] eqn:E using rev_ind; [done|].
    exfalso. apply H.
    assert (q ∈ filter (fun x => key x = s) l) as Hf
      by (rewrite E; set_solver).
    apply list_elem_of_filter in Hf as [<- Hf].
    apply list_elem_of_fmap. eauto.
Qed.

Lemma NoDup_key_inj l x y :
  NoDup (map key l) -> x ∈ l -> y ∈ l -> key x = key y -> x = y.
Proof.
  induction l as [|a l IH]; simpl; intros Hnd Hx Hy Hk; [set_solver|].
  apply NoDup_cons in Hnd as [Ha Hnd].
  apply elem_of_cons in Hx as [->|Hx]; apply elem_of_cons in Hy as [->|Hy];
    auto.
  - exfalso. apply Ha. rewrite Hk. apply list_elem_of_fmap; eauto.
  - exfalso. apply Ha. rewrite <- Hk. apply list_elem_of_fmap; eauto.
Qed.

Lemma by_name_unique l x :
  NoDup (map key l) -> x ∈ l -> by_name l !! key x = Some x.
Proof.
  intros Hnd Hx. destruct (by_name l !! key x) as [y|] eqn:E.
  - apply by_name_Some in E as [Hy Hk]. f_equal.
    by apply (NoDup_key_inj l).
  - apply by_name_None in E. exfalso. apply E.
    apply list_elem_of_fmap; eauto.
Qed.
End ByName.

(** ** The reconciliation loop *)

Section Loop.
Context (pbn : gmap string Placeholder) (cbn : gmap string SystemComponent).


Lemma loop_mappings st raw :
  ls_mappings (foldl (loop_body pbn cbn) st raw) =
  ls_mappings st ++ omap (accepted pbn cbn) raw.
Proof.
  revert st. induction raw as [|m raw IH]; intros st; simpl.
  - by rewrite app_nil_r.
  - rewrite IH. unfold loop_body, accepted.
    destruct (e_shape_name m) as [s|]; simpl; [|done].
    destruct (pbn !! s) as [ph|]; simpl; [|done].
    by rewrite <- app_assoc.
Qed.

Lemma loop_shapes st raw s :
  s ∈ mapped_shapes (foldl (loop_body pbn cbn) st raw) <->
  s ∈ mapped_shapes st \/
  exists m, m ∈ raw /\ e_shape_name m = Some s /\ is_Some (pbn !! s).
Proof.
  revert st. induction raw as [|m raw IH]; intros st; simpl.
  - split; [auto|]. intros [?|(m & Hm & _)]; [done|set_solver].
  - rewrite IH. unfold loop_body.
    destruct (e_shape_name m) as [s'|] eqn:Es; simpl.
    + destruct (pbn !! s') as [ph|] eqn:Ep; simpl.
      * split.
        -- intros [[Heq%elem_of_singleton|?]%elem_of_union|(m' & ? & ? & ?)].
           ++ subst s'. right. exists m. rewrite Ep. set_solver.
           ++ by left.
           ++ right. exists m'. set_solver.
        -- intros [?|(m' & [->|?]%elem_of_cons & Hs & ?)].
           ++ left. set_solver.
           ++ left. rewrite Es in Hs. injection Hs as ->. set_solver.
           ++ right. eauto.
      * split.
        -- intros [?|(m' & ? & ? & ?)]; [by left|]. right. exists m'. set_solver.
        -- intros [?|(m' & [->|?]%elem_of_cons & Hs & Hp)]; [by left| |eauto].
           rewrite Es in Hs. injection Hs as ->. rewrite Ep in Hp.
           by destruct Hp.
    + split.
      * intros [?|(m' & ? & ? & ?)]; [by left|]. right. exists m'. set_solver.
      * intros [?|(m' & [->|?]%elem_of_cons & Hs & Hp)]; [by left| |eauto].
        by rewrite Es in Hs.
Qed.

Lemma loop_components st raw n :
  n ∈ mapped_components (foldl (loop_body pbn cbn) st raw) <->
  n ∈ mapped_components st \/
  exists m, m ∈ raw /\ is_Some (accepted pbn cbn m)
            /\ e_component_name m = n /\ is_Some (cbn !! n).
Proof.
  revert st. induction raw as [|m raw IH]; intros st; simpl.
  - split; [auto|]. intros [?|(m & Hm & _)]; [done|set_solver].
  - rewrite IH. unfold loop_body, accepted.
    destruct (e_shape_name m) as [s'|] eqn:Es; simpl.
    + destruct (pbn !! s') as [ph|] eqn:Ep; simpl.
      * destruct (decide (is_Some (cbn !! e_component_name m))) as [Hc|Hc].
        -- split.
           ++ intros [[Heq%elem_of_singleton|?]%elem_of_union|(m' & ? & ? & ?)].
              ** subst n. right. exists m. rewrite Es; simpl. rewrite Ep; simpl.
                 split; [set_solver|]. eauto.
              ** by left.
              ** right. exists m'. set_solver.
           ++ intros [?|(m' & [->|?]%elem_of_cons & Ha & Hn & ?)].
              ** left. set_solver.
              ** left. set_solver.
              ** right. eauto.
        -- split.
           ++ intros [?|(m' & ? & ? & ?)]; [by left|]. right. exists m'. set_solver.
           ++ intros [?|(m' & [->|?]%elem_of_cons & Ha & Hn & Hs)]; [by left| |eauto 6].
              subst n. done.
      * split.
        -- intros [?|(m' & ? & ? & ?)]; [by left|]. right. exists m'. set_solver.
        -- intros [?|(m' & [->|?]%elem_of_cons & Ha & Hn & Hs)]; [by left| |eauto 6].
           rewrite Es in Ha; simpl in Ha. rewrite Ep in Ha. by destruct Ha.
    + split.
      * intros [?|(m' & ? & ? & ?)]; [by left|]. right. exists m'. set_solver.
      * intros [?|(m' & [->|?]%elem_of_cons & Ha & Hn & Hs)]; [by left| |eauto 6].
        rewrite Es in Ha. by destruct Ha.
Qed.
End Loop.

Lemma resolve_name cs m :
  name (resolve (comp_by_name cs) m) = e_component_name m.
Proof.
  unfold resolve. destruct (comp_by_name cs !! _) as [c|] eqn:E; [|done].
  by apply (by_name_Some name) in E as [_ ?].
Qed.

Lemma accepted_Some phs cbn m ph c :
  accepted (ph_by_name phs) cbn m = Some (ph, c) <->
  exists s, e_shape_name m = Some s /\ ph_by_name phs !! s = Some ph
            /\ c = resolve cbn m.
Proof.
  unfold accepted. destruct (e_shape_name m) as [s|]; simpl.
  - destruct (ph_by_name phs !! s) as [q|] eqn:E; simpl.
    + split.
      * intros [= <- <-]. eauto.
      * intros (s' & [= <-] & Hq & ->). rewrite E in Hq. by injection Hq as ->.
    + split; [done|]. intros (s' & [= <-] & Hq & _). by rewrite E in Hq.
  - split; [done|]. by intros (s' & ? & _).
Qed.

Lemma accepted_names phs cbn raw :
  map (fun pc => shape_name pc.1) (omap (accepted (ph_by_name phs) cbn) raw)
  = named_identifiers phs raw.
Proof.
  unfold named_identifiers. induction raw as [|m raw IH]; [done|].
  cbn [omap list_omap]. unfold accepted at 1.
  destruct (e_shape_name m) as [s|]; [|exact IH].
  cbn [mbind option_bind]. rewrite filter_cons.
  destruct (ph_by_name phs !! s) as [q|] eqn:E.
  - apply (by_name_Some shape_name) in E as E'. destruct E' as [Hq Hs].
    rewrite decide_True.
    + cbn [mbind option_bind map fst]. by rewrite IH, Hs.
    + rewrite <- Hs. apply list_elem_of_fmap; eauto.
  - apply (by_name_None shape_name) in E. by rewrite decide_False.
Qed.

Lemma create_mapping_mappings slide analysis detected raw :
  mappings (create_mapping slide analysis detected raw) =
  omap (accepted (ph_by_name (placeholders slide))
                 (comp_by_name (components analysis))) raw.
Proof. unfold create_mapping, run_loop;
    cbn [mappings unmapped_placeholders unmapped_components]. by rewrite loop_mappings. Qed.

Lemma unmapped_placeholder_iff slide analysis detected raw ph :
  ph ∈ unmapped_placeholders (create_mapping slide analysis detected raw) <->
  ph ∈ placeholders slide /\
  shape_name ph ∉ named_identifiers (placeholders slide) raw.
Proof.
  unfold create_mapping, run_loop;
    cbn [mappings unmapped_placeholders unmapped_components]. rewrite list_elem_of_filter.
  rewrite loop_shapes. unfold named_identifiers.
  rewrite list_elem_of_filter, list_elem_of_omap. split.
  - intros [Hn Hin]. split; [done|]. intros [_ (m & Hm & Hs)].
    apply Hn. right. exists m. split_and!; [done..|].
    destruct (ph_by_name (placeholders slide) !! shape_name ph) eqn:E; [eauto|].
    apply (by_name_None shape_name) in E. exfalso. apply E.
    apply list_elem_of_fmap; eauto.
  - intros [Hin Hn]. split; [|done]. intros [?|(m & Hm & Hs & _)]; [set_solver|].
    apply Hn. split; [apply list_elem_of_fmap; eauto|eauto].
Qed.

Lemma unmapped_component_iff slide analysis detected raw c :
  c ∈ unmapped_components (create_mapping slide analysis detected raw) <->
  c ∈ components analysis /\
  ~ exists pc, pc ∈ mappings (create_mapping slide analysis detected raw)
               /\ name pc.2 = name c.
Proof.
  rewrite create_mapping_mappings.
  unfold create_mapping, run_loop;
    cbn [mappings unmapped_placeholders unmapped_components]. rewrite list_elem_of_filter.
  rewrite loop_components. split.
  - intros [Hn Hin]. split; [done|]. intros ([ph c'] & Hpc & Hname).
    apply list_elem_of_omap in Hpc as (m & Hm & Ha). simpl in Hname.
    apply Hn. right. exists m. split_and!; [done|by rewrite Ha| |].
    + apply accepted_Some in Ha as (s & _ & _ & ->).
      by rewrite resolve_name in Hname.
    + destruct (comp_by_name (components analysis) !! name c) eqn:E; [eauto|].
      apply (by_name_None name) in E. exfalso. apply E.
      apply list_elem_of_fmap; eauto.
  - intros [Hin Hn]. split; [|done].
    intros [?|(m & Hm & [[ph c'] Ha] & Hname & _)]; [set_solver|].
    apply Hn. exists (ph, c'). split.
    + apply list_elem_of_omap. eauto.
    + apply accepted_Some in Ha as (s & _ & _ & ->).
      cbn [snd]. by rewrite resolve_name.
Qed.

(** C1 (amended): on a slide whose placeholder names are distinct, and for
    a raw list that names no placeholder of the slide twice, the result
    holds at most one pair per placeholder; every placeholder of the slide
    is in exactly one of the mapped pairs and [unmapped_placeholders];
    every catalog component is in [unmapped_components] exactly when no
    pair carries its name; and both residual lists hold nothing else. *)
Theorem create_mapping_partition slide analysis detected raw :
  NoDup (map shape_name (placeholders slide)) ->
  NoDup (named_identifiers (placeholders slide) raw) ->
  let r := create_mapping slide analysis detected raw in
  NoDup (map fst (mappings r)) /\
  (forall ph, ph ∈ placeholders slide ->
     (ph ∈ map fst (mappings r) <-> ph ∉ unmapped_placeholders r)) /\
  (forall ph, ph ∈ map fst (mappings r) \/ ph ∈ unmapped_placeholders r ->
     ph ∈ placeholders slide) /\
  (forall c, c ∈ components analysis ->
     ((exists pc, pc ∈ mappings r /\ name pc.2 = name c) <->
      c ∉ unmapped_components r)) /\
  (forall c, c ∈ unmapped_components r -> c ∈ components analysis).
Proof.
  intros Hphs Hraw r.
  assert (forall ph, ph ∈ map fst (mappings r) ->
            ph ∈ placeholders slide /\
            shape_name ph ∈ named_identifiers (placeholders slide) raw) as Hmapped.
  { intros ph Hin. apply list_elem_of_fmap in Hin as ([ph' c] & -> & Hpc).
    subst r. rewrite create_mapping_mappings in Hpc.
    split.
    - apply list_elem_of_omap in Hpc as (m & _ & Ha).
      apply accepted_Some in Ha as (s & _ & Hl & _).
      by apply (by_name_Some shape_name) in Hl as [? _].
    - rewrite <- (accepted_names _ (comp_by_name (components analysis))).
      apply list_elem_of_fmap. by exists (ph', c). }
  split_and!.
  - apply (NoDup_fmap_1 shape_name). rewrite <- list_fmap_compose.
    subst r. rewrite create_mapping_mappings.
    by rewrite (accepted_names (placeholders slide)).
  - intros ph Hph. subst r. rewrite unmapped_placeholder_iff. split.
    + intros Hin [_ Hn]. by apply Hmapped in Hin as [_ ?].
    + intros Hn.
      destruct (decide (shape_name ph ∈
                  named_identifiers (placeholders slide) raw)) as [Hs|Hs];
        [|by destruct Hn].
      rewrite <- (accepted_names _ (comp_by_name (components analysis))) in Hs.
      apply list_elem_of_fmap in Hs as ([ph' c] & Hname & Hpc). simpl in Hname.
      rewrite create_mapping_mappings. apply list_elem_of_fmap.
      exists (ph', c). split; [|done]. simpl.
      apply list_elem_of_omap in Hpc as (m & _ & Ha).
      apply accepted_Some in Ha as (s & _ & Hl & _).
      apply (by_name_Some shape_name) in Hl as [Hph' _].
      by apply (NoDup_key_inj shape_name (placeholders slide)).
  - intros ph [Hin|Hin]; [by apply Hmapped|].
    subst r. by apply unmapped_placeholder_iff in Hin as [? _].
  - intros c Hc. subst r. rewrite unmapped_component_iff. split.
    + intros Hex [_ Hn]. by apply Hn.
    + intros Hn.
      destruct (decide (name c ∈ map (fun pc => name pc.2)
                  (mappings (create_mapping slide analysis detected raw))))
        as [Hs|Hs].
      * apply list_elem_of_fmap in Hs as (pc & ? & ?). eauto.
      * exfalso. apply Hn. split; [done|]. intros (pc & Hpc & Hname).
        apply Hs. apply list_elem_of_fmap. eauto.
  - intros c Hc. subst r. by apply unmapped_component_iff in Hc as [? _].
Qed.

Example scenario_result :
  create_mapping sample_slide sample_analysis [] scenario_raw =
  mkMappingResult 0 "Target State"
    [ (ph1, api_gateway);
      (ph2, mkComponent "Legacy ESB" "unknown" "named in the notes" "") ]
    [] [] [].
Proof. vm_compute. reflexivity. Qed.

(** C1: the raw list names [ph1] twice, and the result holds two pairs for
    that one placeholder. *)
Lemma C1_duplicate_identifier :
  mappings (create_mapping sample_slide sample_analysis [] duplicate_raw) =
    [ (ph1, api_gateway); (ph1, mkComponent "Legacy ESB" "unknown" "" "") ]
  /\ ~ NoDup (map fst (mappings
        (create_mapping sample_slide sample_analysis [] duplicate_raw))).
Proof.
  assert (mappings (create_mapping sample_slide sample_analysis []
                      duplicate_raw) =
          [ (ph1, api_gateway);
            (ph1, mkComponent "Legacy ESB" "unknown" "" "") ]) as E
    by (vm_compute; reflexivity).
  split; [exact E|]. rewrite E. simpl. intros Hnd.
  apply NoDup_cons in Hnd as [Hnot _]. apply Hnot. left.
Qed.

(** When two placeholders of a slide share their name, the lookup by name
    keeps the later one: the earlier one is neither mapped nor reported as
    unmapped. *)
Example shared_name_placeholder_lost :
  let r := create_mapping twin_slide sample_analysis []
             [mkEntry (Some "ph1") "API Gateway" None] in
  mappings r = [(sample_ph "ph1" 4%float 1%float, api_gateway)] /\
  unmapped_placeholders r = [].
Proof. vm_compute. split; reflexivity. Qed.

(** C1 (amended), at the scenario of the specification. *)
Lemma create_mapping_partition_witness :
  NoDup (map shape_name (placeholders sample_slide)) /\
  NoDup (named_identifiers (placeholders sample_slide) scenario_raw) /\
  NoDup (map fst (mappings
    (create_mapping sample_slide sample_analysis [] scenario_raw))).
Proof.
  assert (NoDup (map shape_name (placeholders sample_slide))) as H1
    by (apply (bool_decide_unpack _); vm_compute; reflexivity).
  assert (NoDup (named_identifiers (placeholders sample_slide) scenario_raw))
    as H2 by (apply (bool_decide_unpack _); vm_compute; reflexivity).
  split; [exact H1|]. split; [exact H2|].
  exact (proj1 (create_mapping_partition sample_slide sample_analysis []
                  scenario_raw H1 H2)).
Defined.

(** C6: an entry that names a placeholder of the slide and a component
    that is not in the catalog is recorded with a synthesized component:
    the name is the entry's name as it is, the category is "unknown" and
    the description is the entry's reasoning (empty when it has none); no
    component of that name is in [unmapped_components]. *)
Theorem unknown_name_synthesized slide analysis detected raw m s :
  m ∈ raw ->
  e_shape_name m = Some s ->
  s ∈ map shape_name (placeholders slide) ->
  e_component_name m ∉ map name (components analysis) ->
  let r := create_mapping slide analysis detected raw in
  (exists ph, ph ∈ placeholders slide /\ shape_name ph = s /\
     (ph, {| name := e_component_name m;
             category := "unknown";
             description := match e_reasoning m with
                            | Some reasoning => reasoning
                            | None => ""
                            end;
             layer := "" |}) ∈ mappings r) /\
  (forall c, c ∈ unmapped_components r -> name c <> e_component_name m).
Proof.
  intros Hm Hs Hknown Hnew r. split.
  - destruct (ph_by_name (placeholders slide) !! s) as [ph|] eqn:E.
    + exists ph. apply (by_name_Some shape_name) in E as E'.
      destruct E' as [Hph Hname]. split_and!; [done..|].
      subst r. rewrite create_mapping_mappings. apply list_elem_of_omap.
      exists m. split; [done|]. unfold accepted. rewrite Hs; simpl.
      rewrite E; simpl. do 2 f_equal. unfold resolve.
      apply (by_name_None name) in Hnew. unfold comp_by_name. rewrite Hnew.
      unfold synthesized. by destruct (e_reasoning m).
    + by apply (by_name_None shape_name) in E.
  - intros c Hc Hname. subst r. apply unmapped_component_iff in Hc as [Hc _].
    apply Hnew. rewrite <- Hname. apply list_elem_of_fmap. eauto.
Qed.

(** C6, at the scenario of the specification: [Legacy ESB] is not in the
    catalog. *)
Lemma unknown_name_synthesized_witness :
  exists ph, ph ∈ placeholders sample_slide /\ shape_name ph = "ph2" /\
    (ph, mkComponent "Legacy ESB" "unknown" "named in the notes" "")
      ∈ mappings (create_mapping sample_slide sample_analysis [] scenario_raw).
Proof.
  apply (unknown_name_synthesized sample_slide sample_analysis []
           scenario_raw
           (mkEntry (Some "ph2") "Legacy ESB" (Some "named in the notes"))
           "ph2").
  - unfold scenario_raw. apply elem_of_cons; right; apply elem_of_cons; by left.
  - reflexivity.
  - apply (bool_decide_unpack _); vm_compute; reflexivity.
  - apply (bool_decide_unpack _); vm_compute; reflexivity.
Defined.

Lemma loop_body_unknown phs cbn st m :
  unknown_identifier phs m -> loop_body (ph_by_name phs) cbn st m = st.
Proof.
  unfold unknown_identifier, loop_body. destruct (e_shape_name m) as [s|];
    [|done].
  intros Hs. apply (by_name_None shape_name) in Hs. unfold ph_by_name.
  by rewrite Hs.
Qed.

(** C7: an entry whose identifier names no placeholder of the slide is
    dropped: the result is the one of the raw list without that entry. *)
Theorem unknown_identifier_dropped slide analysis detected raw1 raw2 m :
  unknown_identifier (placeholders slide) m ->
  create_mapping slide analysis detected (raw1 ++ m :: raw2) =
  create_mapping slide analysis detected (raw1 ++ raw2).
Proof.
  intros Hm. unfold create_mapping, run_loop.
  rewrite !foldl_app. cbn [foldl]. by rewrite loop_body_unknown.
Qed.

(** C7, at the scenario of the specification: [ph9] is not on the slide. *)
Lemma unknown_identifier_dropped_witness :
  create_mapping sample_slide sample_analysis [] scenario_raw =
  create_mapping sample_slide sample_analysis []
    [ mkEntry (Some "ph1") "API Gateway" None;
      mkEntry (Some "ph2") "Legacy ESB" (Some "named in the notes") ].
Proof.
  apply (unknown_identifier_dropped sample_slide sample_analysis []
           [ mkEntry (Some "ph1") "API Gateway" None;
             mkEntry (Some "ph2") "Legacy ESB" (Some "named in the notes") ]
           [] (mkEntry (Some "ph9") "API Gateway" None)).
  unfold unknown_identifier. cbn [e_shape_name].
  apply (bool_decide_unpack _); vm_compute; reflexivity.
Defined.

(** ** Writing into a slide *)

Import Document.

Lemma set_first_run_idem t ps ps' :
  set_first_run t ps = Some ps' -> set_first_run t ps' = Some ps'.
Proof.
  revert ps'. induction ps as [|[|r rs] ps IH]; intros ps' H; simpl in H.
  - done.
  - destruct (set_first_run t ps) as [q|]; [|done]. injection H as <-.
    simpl. by rewrite (IH q).
  - by injection H as <-.
Qed.

Lemma set_first_run_nil t ps : set_first_run t ps = Some [] -> False.
Proof.
  destruct ps as [|[|r rs] ps]; simpl; [done| |done].
  by destruct (set_first_run t ps).
Qed.

(** The result of a write does not depend on the text written. *)
Lemma set_first_run_is_Some t t' ps :
  is_Some (set_first_run t ps) -> is_Some (set_first_run t' ps).
Proof.
  induction ps as [|[|r rs] ps IH]; simpl; [done| |eauto].
  intros [q Hq]. destruct (set_first_run t ps); [|done].
  destruct IH as [q' ->]; eauto.
Qed.

Lemma update_shapes_idem n t shapes r shapes' :
  update_shapes n t shapes = (r, shapes') ->
  update_shapes n t shapes' = (r, shapes').
Proof.
  revert r shapes'. induction shapes as [|sh rest IH]; intros r shapes' H;
    simpl in H.
  - by injection H as <- <-.
  - destruct (String.eqb (sh_name sh) n && has_text_frame sh) eqn:Em.
    + destruct (set_first_run t (paragraphs sh)) as [ps|] eqn:Es.
      * injection H as <- <-. simpl. rewrite Em.
        by rewrite (set_first_run_idem _ _ _ Es).
      * destruct (paragraphs sh) as [|p ps] eqn:Ep.
        -- destruct (update_shapes n t rest) as [r1 rest1] eqn:Er.
           injection H as <- <-. simpl. rewrite Em, Ep. simpl.
           by rewrite (IH _ _ eq_refl).
        -- injection H as <- <-. simpl. rewrite Em, Ep. by rewrite Es.
    + destruct (update_shapes n t rest) as [r1 rest1] eqn:Er.
      injection H as <- <-. simpl. rewrite Em.
      by rewrite (IH _ _ eq_refl).
Qed.

Lemma eqb_other n n' s :
  n <> n' -> String.eqb s n = true -> String.eqb s n' = false.
Proof.
  intros Hne ->%String.eqb_eq. by apply String.eqb_neq.
Qed.

(** A write that leaves the shapes as they are still does so after a
    write to a shape of another name. *)
Lemma update_shapes_stable n n' t t' shapes r r' shapes' :
  n <> n' ->
  update_shapes n t shapes = (r, shapes) ->
  update_shapes n' t' shapes = (r', shapes') ->
  update_shapes n t shapes' = (r, shapes').
Proof.
  intros Hne. revert r r' shapes'.
  induction shapes as [|sh rest IH]; intros r r' shapes' H H'; simpl in *.
  - by injection H' as <- <-.
  - destruct (String.eqb (sh_name sh) n && has_text_frame sh) eqn:Em.
    + assert (String.eqb (sh_name sh) n' && has_text_frame sh = false) as Em'.
      { apply andb_true_iff in Em as [Hn _].
        by rewrite (eqb_other _ _ _ Hne Hn). }
      rewrite Em' in H'.
      destruct (update_shapes n' t' rest) as [r1' rest1'] eqn:Er'.
      injection H' as <- <-. simpl. rewrite Em.
      destruct (set_first_run t (paragraphs sh)) as [ps|] eqn:Es.
      * injection H as <- Hsh. by rewrite Hsh.
      * destruct (paragraphs sh) as [|p ps] eqn:Ep; [|by inversion H].
        destruct (update_shapes n t rest) as [r1 rest1] eqn:Er.
        injection H as <- ->. by rewrite (IH _ _ _ eq_refl eq_refl).
    + destruct (update_shapes n t rest) as [r1 rest1] eqn:Er.
      injection H as <- ->.
      destruct (String.eqb (sh_name sh) n' && has_text_frame sh) eqn:Em'.
      * destruct (set_first_run t' (paragraphs sh)) as [ps|] eqn:Es'.
        -- injection H' as <- <-. simpl. by rewrite Em, Er.
        -- destruct (paragraphs sh) as [|p ps] eqn:Ep.
           ++ destruct (update_shapes n' t' rest) as [r1' rest1'] eqn:Er'.
              injection H' as <- <-. simpl. rewrite Em.
              by rewrite (IH _ _ _ eq_refl eq_refl).
           ++ injection H' as <- <-. simpl. by rewrite Em, Er.
      * destruct (update_shapes n' t' rest) as [r1' rest1'] eqn:Er'.
        injection H' as <- <-. simpl. rewrite Em.
        by rewrite (IH _ _ _ eq_refl eq_refl).
Qed.

Lemma update_shapes_length n t shapes :
  length (update_shapes n t shapes).2 = length shapes.
Proof.
  induction shapes as [|sh rest IH]; simpl; [done|].
  destruct (String.eqb (sh_name sh) n && has_text_frame sh).
  - destruct (set_first_run t (paragraphs sh)); [done|].
    destruct (paragraphs sh); [|done].
    destruct (update_shapes n t rest); simpl in *. by rewrite IH.
  - destruct (update_shapes n t rest); simpl in *. by rewrite IH.
Qed.

(** ** Writing into the document *)

Lemma update_placeholder_cache doc i n t :
  _architecture_slides (update_placeholder doc i n t).2 =
  _architecture_slides doc.
Proof.
  unfold update_placeholder.
  destruct ((i <? 0)%Z || (Z.of_nat (length (prs doc)) <=? i)%Z); [done|].
  destruct (prs doc !! Z.to_nat i); [|done].
  by destruct (update_shapes n t l).
Qed.

Lemma update_placeholder_idem doc i n t r doc' :
  update_placeholder doc i n t = (r, doc') ->
  update_placeholder doc' i n t = (r, doc').
Proof.
  unfold update_placeholder.
  destruct ((i <? 0)%Z || (Z.of_nat (length (prs doc)) <=? i)%Z) eqn:Erange.
  { intros [= <- <-]. by rewrite Erange. }
  destruct (prs doc !! Z.to_nat i) as [shapes|] eqn:El.
  2:{ intros [= <- <-]. by rewrite Erange, El. }
  destruct (update_shapes n t shapes) as [r0 shapes'] eqn:Eu.
  intros [= <- <-]. cbn [prs path _architecture_slides].
  rewrite length_insert, Erange.
  rewrite list_lookup_insert_eq by (by eapply lookup_lt_Some).
  rewrite (update_shapes_idem _ _ _ _ _ Eu).
  by rewrite list_insert_insert_eq.
Qed.

Lemma update_placeholder_stable doc i n t r i' n' t' r' doc' :
  (i, n) <> (i', n') ->
  update_placeholder doc i n t = (r, doc) ->
  update_placeholder doc i' n' t' = (r', doc') ->
  update_placeholder doc' i n t = (r, doc').
Proof.
  intros Hne. unfold update_placeholder.
  destruct ((i <? 0)%Z || (Z.of_nat (length (prs doc)) <=? i)%Z) eqn:Erange.
  { intros [= <-] H'.
    assert (length (prs doc') = length (prs doc)) as Hlen.
    { destruct (_ || _) in H'; [by injection H' as <- <-|].
      destruct (prs doc !! Z.to_nat i') as [s|]; [|by injection H' as <- <-].
      destruct (update_shapes n' t' s). injection H' as <- <-.
      cbn [prs]. by rewrite length_insert. }
    by rewrite Hlen, Erange. }
  destruct (prs doc !! Z.to_nat i) as [shapes|] eqn:El.
  2:{ apply lookup_ge_None in El. apply orb_false_iff in Erange as [H1 H2].
      lia. }
  destruct (update_shapes n t shapes) as [r0 shapes1] eqn:Eu.
  intros [= <- Hd].
  assert (shapes1 = shapes) as ->.
  { assert (prs doc !! Z.to_nat i = Some shapes1) as Hl.
    { rewrite <- Hd at 1. cbn [prs].
      apply list_lookup_insert_eq. by eapply lookup_lt_Some. }
    rewrite El in Hl. by injection Hl. }
  clear Hd.
  destruct ((i' <? 0)%Z || (Z.of_nat (length (prs doc)) <=? i')%Z) eqn:Erange'.
  { intros [= <- <-]. rewrite Erange, El, Eu.
    f_equal. destruct doc as [p s c]. cbn [prs path _architecture_slides] in *.
    f_equal. by apply list_insert_id. }
  destruct (prs doc !! Z.to_nat i') as [shapes'|] eqn:El'.
  2:{ intros [= <- <-]. rewrite Erange, El, Eu.
      f_equal. destruct doc as [p s c]. cbn [prs path _architecture_slides] in *.
      f_equal. by apply list_insert_id. }
  destruct (update_shapes n' t' shapes') as [r0' shapes1'] eqn:Eu'.
  intros [= <- <-]. cbn [prs path _architecture_slides].
  rewrite length_insert, Erange.
  destruct (decide (Z.to_nat i = Z.to_nat i')) as [Heq|Hneq].
  - assert (i = i') as <-.
    { apply orb_false_iff in Erange as [H1 _].
      apply orb_false_iff in Erange' as [H1' _]. lia. }
    assert (n <> n') as Hn by congruence.
    rewrite El in El'. injection El' as <-.
    rewrite list_lookup_insert_eq by (by eapply lookup_lt_Some).
    rewrite (update_shapes_stable _ _ _ _ _ _ _ _ Hn Eu Eu').
    by rewrite list_insert_insert_eq.
  - rewrite list_lookup_insert_ne by done. rewrite El, Eu.
    f_equal. f_equal. apply list_insert_id.
    by rewrite list_lookup_insert_ne.
Qed.

(** ** The batch *)

Lemma batch_loop_stable items : forall doc count r doc1 k t b,
  batch_loop doc count items = (r, doc1) ->
  k ∉ map fst items ->
  update_placeholder doc k.1 k.2 t = (b, doc) ->
  update_placeholder doc1 k.1 k.2 t = (b, doc1).
Proof.
  induction items as [|[[i n] t'] items IH]; intros doc count r doc1 k t b;
    simpl.
  - by intros [= <- <-].
  - intros H Hk Hst.
    apply not_elem_of_cons in Hk as [Hne Hk].
    destruct (update_placeholder doc i n t') as [[[|]|e] doc'] eqn:Eu.
    + eapply IH; [exact H|exact Hk|].
      eapply update_placeholder_stable; [|exact Hst|exact Eu].
      by destruct k.
    + eapply IH; [exact H|exact Hk|].
      eapply update_placeholder_stable; [|exact Hst|exact Eu].
      by destruct k.
    + injection H as <- <-.
      eapply update_placeholder_stable; [|exact Hst|exact Eu].
      by destruct k.
Qed.

Lemma batch_loop_idem items : forall doc count r doc1,
  NoDup (map fst items) ->
  batch_loop doc count items = (r, doc1) ->
  batch_loop doc1 count items = (r, doc1).
Proof.
  induction items as [|[[i n] t] items IH]; intros doc count r doc1 Hnd;
    simpl.
  - by intros [= <- <-].
  - apply NoDup_cons in Hnd as [Hk Hnd]. intros H.
    destruct (update_placeholder doc i n t) as [[[|]|e] doc'] eqn:Eu;
      apply update_placeholder_idem in Eu as Hst.
    + pose proof (batch_loop_stable _ _ _ _ _ (i, n) t _ H Hk Hst) as Hs.
      cbn [fst snd] in Hs. rewrite Hs. eauto.
    + pose proof (batch_loop_stable _ _ _ _ _ (i, n) t _ H Hk Hst) as Hs.
      cbn [fst snd] in Hs. rewrite Hs. eauto.
    + injection H as <- <-. by rewrite Hst.
Qed.

(** ** The [updates] dict *)

Lemma dict_set_keys {K V} `{EqDecision K} (k : K) (v : V) d :
  map fst (dict_set k v d) =
  if decide (k ∈ map fst d) then map fst d else map fst d ++ [k].
Proof.
  induction d as [|[k' v'] d IH]; simpl; [done|].
  destruct (decide (k = k')) as [->|Hne]; simpl.
  - rewrite decide_True; [done|left].
  - rewrite IH. destruct (decide (k ∈ map fst d)).
    + rewrite decide_True; [done|by right].
    + rewrite decide_False; [done|]. by intros [?|?]%elem_of_cons.
Qed.

Lemma dict_set_NoDup {K V} `{EqDecision K} (k : K) (v : V) d :
  NoDup (map fst d) -> NoDup (map fst (dict_set k v d)).
Proof.
  intros Hnd. rewrite dict_set_keys. destruct (decide _); [done|].
  apply NoDup_app. split_and!; [done| |apply NoDup_singleton].
  intros x Hx ->%list_elem_of_singleton. done.
Qed.

Lemma dict_fold_NoDup {A K V} `{EqDecision K} (f : A -> K) (g : A -> V) l :
  forall d, NoDup (map fst d) ->
  NoDup (map fst (foldl (fun d x => dict_set (f x) (g x) d) d l)).
Proof.
  induction l as [|x l IH]; intros d Hd; simpl; [done|].
  apply IH. by apply dict_set_NoDup.
Qed.

Lemma updates_of_NoDup mr : NoDup (map fst (Applier.updates_of mr)).
Proof.
  unfold Applier.updates_of.
  apply (dict_fold_NoDup (fun pc => (mr_slide_index mr, shape_name pc.1))
                         (fun pc => name pc.2)).
  constructor.
Qed.

(** C5: applying a mapping result to the document that a first application
    of it has left gives the same outcome and leaves that document as it
    is, so every shape has the text it had after the first application. *)
Theorem apply_mapping_idempotent document mr :
  Applier.apply_mapping (Applier.apply_mapping document mr).2 mr =
  Applier.apply_mapping document mr.
Proof.
  unfold Applier.apply_mapping. destruct document as [doc|]; [|done].
  unfold update_placeholders_batch.
  destruct (batch_loop doc 0 (Applier.updates_of mr)) as [r doc1] eqn:E.
  cbn [snd].
  by rewrite (batch_loop_idem _ _ _ _ _ (updates_of_NoDup mr) E).
Qed.

(** ** The cache of [find_architecture_slides] *)

Example sample_doc_scan :
  (find_architecture_slides sample_doc).1 = [sample_slide].
Proof. vm_compute. reflexivity. Qed.

Lemma write_all_cache writes : forall doc,
  _architecture_slides (write_all doc writes) = _architecture_slides doc.
Proof.
  induction writes as [|w writes IH]; intros doc; simpl; [done|].
  unfold write_all in *. simpl. by rewrite IH, update_placeholder_cache.
Qed.

(** C10: after a first call, [find_architecture_slides] returns the list
    of that first call and leaves the document as it is, whatever texts
    [update_placeholder] has written in between. *)
Theorem find_architecture_slides_memoized doc writes :
  find_architecture_slides
    (write_all (find_architecture_slides doc).2 writes) =
  ((find_architecture_slides doc).1,
   write_all (find_architecture_slides doc).2 writes).
Proof.
  assert (_architecture_slides (find_architecture_slides doc).2 =
          Some (find_architecture_slides doc).1) as Hc.
  { unfold find_architecture_slides.
    by destruct (_architecture_slides doc) eqn:E. }
  unfold find_architecture_slides at 1.
  by rewrite write_all_cache, Hc.
Qed.

(** The cached list is returned although a fresh scan of the written
    document would find no placeholder any more. *)
Example memoized_after_write :
  let doc1 := (find_architecture_slides sample_doc).2 in
  let doc2 := write_all doc1 [((0%Z, "ph1"), "API Gateway");
                              ((0%Z, "ph2"), "Legacy ESB")] in
  (find_architecture_slides doc2).1 = [sample_slide] /\ scan (prs doc2) = [].
Proof. vm_compute. split; reflexivity. Qed.

(** ** The texts that are written *)

Lemma dict_get_set {K V} `{EqDecision K} (k k' : K) (v : V) d :
  dict_get k (dict_set k' v d) =
  if decide (k = k') then Some v else dict_get k d.
Proof.
  induction d as [|[k0 v0] d IH]; simpl.
  - by destruct (decide (k = k')).
  - destruct (decide (k' = k0)) as [->|Hne]; simpl.
    + by destruct (decide (k = k0)).
    + rewrite IH. destruct (decide (k = k0)) as [->|]; [|done].
      by rewrite decide_False.
Qed.

Lemma dict_get_fold {A K V} `{EqDecision K} (f : A -> K) (g : A -> V) k l :
  forall d,
  dict_get k (foldl (fun d x => dict_set (f x) (g x) d) d l) =
  match last (filter (fun x => f x = k) l) with
  | Some x => Some (g x)
  | None => dict_get k d
  end.
Proof.
  induction l as [|x l IH]; intros d; simpl; [done|].
  rewrite IH, filter_cons, dict_get_set.
  destruct (decide (f x = k)) as [<-|Hne].
  - rewrite last_cons. destruct (last _); [done|]. by rewrite decide_True.
  - destruct (last _); [done|]. by rewrite decide_False.
Qed.

Lemma accepted_of_name phs cbn (raw : list RawEntry) s :
  s ∈ map shape_name phs ->
  filter (fun pc : Placeholder * SystemComponent => shape_name pc.1 = s)
         (omap (accepted (ph_by_name phs) cbn) raw) =
  omap (accepted (ph_by_name phs) cbn)
       (filter (fun m => e_shape_name m = Some s) raw).
Proof.
  intros Hs. induction raw as [|m raw IH]; [done|].
  rewrite filter_cons. cbn [omap list_omap].
  destruct (accepted (ph_by_name phs) cbn m) as [[ph c]|] eqn:Ea.
  - apply accepted_Some in Ea as Ea'. destruct Ea' as (s' & Hs' & Hl & ->).
    apply (by_name_Some shape_name) in Hl as [_ Hn].
    rewrite filter_cons. cbn [fst]. rewrite Hn, Hs'.
    destruct (decide (s' = s)) as [->|Hne].
    + rewrite decide_True by done. cbn [omap list_omap]. rewrite Ea.
      by rewrite IH.
    + rewrite decide_False by congruence. exact IH.
  - destruct (decide (e_shape_name m = Some s)) as [Hm|Hm]; [|exact IH].
    exfalso. unfold accepted in Ea. rewrite Hm in Ea. simpl in Ea.
    destruct (ph_by_name phs !! s) eqn:El; [done|].
    by apply (by_name_None shape_name) in El.
Qed.

Lemma accepted_all_of_name phs cs (raw : list RawEntry) s :
  s ∈ map shape_name phs ->
  map (fun pc => name pc.2)
      (omap (accepted (ph_by_name phs) (comp_by_name cs))
            (filter (fun m => e_shape_name m = Some s) raw)) =
  map e_component_name (filter (fun m => e_shape_name m = Some s) raw).
Proof.
  intros Hs. induction raw as [|m raw IH]; [done|].
  rewrite filter_cons. destruct (decide (e_shape_name m = Some s)) as [Hm|Hm];
    [|exact IH].
  cbn [omap list_omap]. unfold accepted at 1. rewrite Hm. simpl.
  destruct (ph_by_name phs !! s) eqn:El.
  - simpl. by rewrite resolve_name, <- IH.
  - by apply (by_name_None shape_name) in El.
Qed.

(** C2 (amended): every raw entry that names a placeholder of the slide is
    recorded as a pair, in the order of the raw list, and the text that
    [apply_mapping] writes for that placeholder is the name given by the
    last of these entries. *)
Theorem last_occurrence_applied slide analysis detected raw s :
  s ∈ map shape_name (placeholders slide) ->
  let r := create_mapping slide analysis detected raw in
  map (fun pc => name pc.2)
      (filter (fun pc => shape_name pc.1 = s) (mappings r)) =
  map e_component_name (filter (fun m => e_shape_name m = Some s) raw)
  /\
  dict_get (index slide, s) (Applier.updates_of r) =
  last (map e_component_name (filter (fun m => e_shape_name m = Some s) raw)).
Proof.
  intros Hs r.
  assert (map (fun pc => name pc.2)
            (filter (fun pc => shape_name pc.1 = s) (mappings r)) =
          map e_component_name
            (filter (fun m => e_shape_name m = Some s) raw)) as Hall.
  { subst r. rewrite create_mapping_mappings.
    rewrite accepted_of_name by done. by apply accepted_all_of_name. }
  split; [exact Hall|].
  rewrite <- Hall. unfold Applier.updates_of.
  rewrite (dict_get_fold (fun pc => (mr_slide_index r, shape_name pc.1))
                         (fun pc => name pc.2)).
  rewrite (list_filter_iff _ (fun pc => shape_name pc.1 = s)).
  - rewrite fmap_last. by destruct (last _).
  - intros [ph c]. subst r. cbn [fst mr_slide_index create_mapping].
    split; [by intros [= ->]|by intros ->].
Qed.

(** C2 (amended), for the raw list that names [ph1] twice. *)
Lemma last_occurrence_applied_witness :
  dict_get (0%Z, "ph1")
    (Applier.updates_of
       (create_mapping sample_slide sample_analysis [] duplicate_raw)) =
  Some "Legacy ESB".
Proof.
  apply (proj2 (last_occurrence_applied sample_slide sample_analysis []
                  duplicate_raw "ph1"
                  ltac:(apply (bool_decide_unpack _); vm_compute;
                        reflexivity))).
Defined.

(** C2: the raw list names [ph1] twice; both entries are recorded, and the
    text written into the shape is the one of the second entry. *)
Lemma C2_later_entry_applied :
  let r := create_mapping sample_slide sample_analysis [] duplicate_raw in
  map (fun pc => name pc.2) (mappings r) = ["API Gateway"; "Legacy ESB"] /\
  Applier.apply_mapping (Some sample_doc) r =
    (Return 1,
     Some (mkDoc "deck.pptx"
       [ [ sample_shape "Title 1" "Target State" true 0 0 9144000;
           sample_shape "ph2" "Lorem ipsum" false 3657600 914400 1828800;
           sample_shape "ph1" "Legacy ESB" false 914400 914400 1828800 ] ]
       None)).
Proof. vm_compute. split; reflexivity. Qed.

(** ** What a batch counts *)

Lemma update_shapes_cons n t sh rest :
  update_shapes n t (sh :: rest) =
  if String.eqb (sh_name sh) n && has_text_frame sh then
    match set_first_run t (paragraphs sh) with
    | Some ps => (Return true, with_paragraphs sh ps :: rest)
    | None =>
        match paragraphs sh with
        | [] => ((update_shapes n t rest).1, sh :: (update_shapes n t rest).2)
        | _ :: _ => (Raise IndexError, sh :: rest)
        end
    end
  else ((update_shapes n t rest).1, sh :: (update_shapes n t rest).2).
Proof.
  simpl. destruct (update_shapes n t rest).
  destruct (_ && _); [|done]. destruct (set_first_run _ _); [done|].
  by destruct (paragraphs sh).
Qed.

(** Whether a write succeeds is not changed by a write to a shape of
    another name. *)
Lemma update_shapes_flag_other n n' t t' shapes :
  n <> n' ->
  (update_shapes n t (update_shapes n' t' shapes).2).1 =
  (update_shapes n t shapes).1.
Proof.
  intros Hne. induction shapes as [|sh rest IH]; [done|].
  rewrite (update_shapes_cons n' t').
  destruct (String.eqb (sh_name sh) n' && has_text_frame sh) eqn:Em'.
  - assert (String.eqb (sh_name sh) n && has_text_frame sh = false) as Em.
    { apply andb_true_iff in Em' as [Hn _].
      by rewrite (eqb_other n' n _ (not_eq_sym Hne) Hn). }
    destruct (set_first_run t' (paragraphs sh)) as [ps|].
    + cbn [snd]. rewrite !update_shapes_cons. cbn [sh_name has_text_frame
        with_paragraphs]. by rewrite Em.
    + destruct (paragraphs sh) as [|p ps] eqn:Ep; [|done].
      cbn [snd]. rewrite !update_shapes_cons, Em. cbn [fst]. exact IH.
  - cbn [snd]. rewrite !update_shapes_cons.
    destruct (String.eqb (sh_name sh) n && has_text_frame sh); [|exact IH].
    destruct (set_first_run t (paragraphs sh)); [done|].
    destruct (paragraphs sh); [exact IH|done].
Qed.

Lemma update_placeholder_flag_other doc i n t i' n' t' :
  (i, n) <> (i', n') ->
  (update_placeholder (update_placeholder doc i' n' t').2 i n t).1 =
  (update_placeholder doc i n t).1.
Proof.
  intros Hne. unfold update_placeholder at 2.
  destruct ((i' <? 0)%Z || (Z.of_nat (length (prs doc)) <=? i')%Z) eqn:Erange';
    [done|].
  destruct (prs doc !! Z.to_nat i') as [shapes'|] eqn:El'; [|done].
  destruct (update_shapes n' t' shapes') as [r' shapes1'] eqn:Eu'. cbn [snd].
  unfold update_placeholder. cbn [prs path _architecture_slides].
  rewrite length_insert.
  destruct ((i <? 0)%Z || (Z.of_nat (length (prs doc)) <=? i)%Z) eqn:Erange;
    [done|].
  destruct (decide (Z.to_nat i = Z.to_nat i')) as [Heq|Hneq].
  - assert (i = i') as <-.
    { apply orb_false_iff in Erange as [H1 _].
      apply orb_false_iff in Erange' as [H1' _]. lia. }
    assert (n <> n') as Hn by congruence.
    rewrite list_lookup_insert_eq by (by eapply lookup_lt_Some).
    rewrite El'.
    pose proof (update_shapes_flag_other n n' t t' shapes' Hn) as Hf.
    rewrite Eu' in Hf. cbn [snd] in Hf.
    destruct (update_shapes n t shapes1'), (update_shapes n t shapes').
    exact Hf.
  - rewrite list_lookup_insert_ne by done.
    destruct (prs doc !! Z.to_nat i) as [shapes|]; [|done].
    by destruct (update_shapes n t shapes).
Qed.

Lemma dict_fold_fresh {A K V} `{EqDecision K} (f : A -> K) (g : A -> V) l :
  forall d,
  NoDup (map fst d ++ map f l) ->
  foldl (fun d x => dict_set (f x) (g x) d) d l =
  d ++ map (fun x => (f x, g x)) l.
Proof.
  induction l as [|x l IH]; intros d Hnd; simpl.
  - by rewrite app_nil_r.
  - assert (dict_set (f x) (g x) d = d ++ [(f x, g x)]) as ->.
    { apply NoDup_app in Hnd as (_ & Hdis & _).
      assert (f x ∉ map fst d) as Hx.
      { intros Hin. apply (Hdis _ Hin). simpl. left. }
      clear -Hx. induction d as [|[k v] d IH]; simpl; [done|].
      apply not_elem_of_cons in Hx as [Hk Hx].
      rewrite decide_False by done. by rewrite IH. }
    rewrite IH.
    + by rewrite <- app_assoc.
    + rewrite map_app. simpl. rewrite <- app_assoc. exact Hnd.
Qed.

#[local] Instance pair_with_inj {A B} (a : A) : Inj (=) (=) (fun b : B => (a, b)).
Proof. by intros b1 b2 [= ->]. Qed.

(** With one pair per placeholder, the dict holds one write per pair, in
    the order of the pairs. *)
Lemma updates_of_distinct mr :
  NoDup (map (fun pc => shape_name pc.1) (mappings mr)) ->
  Applier.updates_of mr =
  map (fun pc => ((mr_slide_index mr, shape_name pc.1), name pc.2))
      (mappings mr).
Proof.
  intros Hnd. unfold Applier.updates_of.
  rewrite (dict_fold_fresh
             (fun pc => (mr_slide_index mr, shape_name pc.1))
             (fun pc => name pc.2)); [done|].
  simpl.
  rewrite <- (map_map (fun pc : Placeholder * SystemComponent =>
                         shape_name pc.1)
                      (fun s => (mr_slide_index mr, s))).
  apply (NoDup_fmap_2 (fun s => (mr_slide_index mr, s))); exact Hnd.
Qed.

Lemma filter_ext_elem {A} (P Q : A -> Prop) `{forall x, Decision (P x)}
    `{forall x, Decision (Q x)} (l : list A) :
  (forall x, x ∈ l -> P x <-> Q x) -> filter P l = filter Q l.
Proof.
  induction l as [|x l IH]; intros Hext; [done|].
  rewrite !filter_cons.
  assert (filter P l = filter Q l) as -> by (apply IH; intros; apply Hext; by right).
  destruct (decide (P x)) as [Hp|Hp].
  - rewrite decide_True; [done|]. apply Hext; [left|done].
  - rewrite decide_False; [done|]. intros Hq. apply Hp, Hext; [left|done].
Qed.

Lemma batch_loop_counts mr pairs : forall doc count,
  NoDup (map (fun pc => shape_name pc.1) pairs) ->
  (forall pc, pc ∈ pairs -> exists b, (write_pair doc mr pc).1 = Return b) ->
  batch_loop doc count
    (map (fun pc => ((mr_slide_index mr, shape_name pc.1), name pc.2)) pairs)
  = (Return (count +
       length (filter (fun pc => succeeded (write_pair doc mr pc).1) pairs)),
     foldl (fun d pc => (write_pair d mr pc).2) doc pairs).
Proof.
  induction pairs as [|pc pairs IH]; intros doc count Hnd Hret; simpl.
  - by rewrite Nat.add_0_r.
  - apply NoDup_cons in Hnd as [Hpc Hnd].
    assert (forall q, q ∈ pairs ->
              (write_pair (write_pair doc mr pc).2 mr q).1 =
              (write_pair doc mr q).1) as Hflag.
    { intros q Hq. unfold write_pair. apply update_placeholder_flag_other.
      intros [= Hs]. apply Hpc. rewrite <- Hs.
      apply list_elem_of_fmap. by exists q. }
    destruct (Hret pc) as [b Hb]; [left|].
    rewrite filter_cons. fold (write_pair doc mr pc).
    destruct (write_pair doc mr pc) as [r doc'] eqn:Ew.
    cbn [fst snd] in *. subst r.
    assert (filter (fun q => succeeded (write_pair doc' mr q).1) pairs =
            filter (fun q => succeeded (write_pair doc mr q).1) pairs) as Hf.
    { apply filter_ext_elem. intros q Hq. by rewrite Hflag. }
    assert (forall q, q ∈ pairs ->
              exists b', (write_pair doc' mr q).1 = Return b') as Hret'.
    { intros q Hq. rewrite Hflag by done. apply Hret. by right. }
    destruct b; cbn [succeeded].
    + rewrite decide_True by done. rewrite (IH doc' (S count) Hnd Hret'), Hf.
      cbn [length]. do 2 f_equal. lia.
    + rewrite decide_False by (by intros []).
      by rewrite (IH doc' count Hnd Hret'), Hf.
Qed.

(** C8 (amended): when the pairs name distinct placeholders and no write
    raises, [apply_mapping] makes the write of every pair, in order, each
    on the document left by the writes before it, and returns the number of
    pairs whose write reports success; a write that reports failure leaves
    the later writes in place. *)
Theorem apply_mapping_counts doc mr :
  NoDup (map (fun pc => shape_name pc.1) (mappings mr)) ->
  (forall pc, pc ∈ mappings mr ->
     exists b, (write_pair doc mr pc).1 = Return b) ->
  Applier.apply_mapping (Some doc) mr =
  (Return (length (filter (fun pc => succeeded (write_pair doc mr pc).1)
                          (mappings mr))),
   Some (foldl (fun d pc => (write_pair d mr pc).2) doc (mappings mr))).
Proof.
  intros Hnd Hret. unfold Applier.apply_mapping, update_placeholders_batch.
  rewrite (updates_of_distinct mr Hnd).
  by rewrite (batch_loop_counts mr (mappings mr) doc 0 Hnd Hret).
Qed.

(** C8 (amended), for a result whose first write fails: the second write
    is made all the same, and 1 is returned. *)
Lemma apply_mapping_counts_witness :
  Applier.apply_mapping (Some sample_doc) partial_result =
  (Return 1,
   Some (mkDoc "deck.pptx"
     [ [ sample_shape "Title 1" "Target State" true 0 0 9144000;
         sample_shape "ph2" "Lorem ipsum" false 3657600 914400 1828800;
         sample_shape "ph1" "API Gateway" false 914400 914400 1828800 ] ]
     None)).
Proof.
  rewrite (apply_mapping_counts sample_doc partial_result).
  - vm_compute. reflexivity.
  - apply (bool_decide_unpack _). vm_compute. reflexivity.
  - intros pc Hpc. unfold partial_result in Hpc. cbn [mappings] in Hpc.
    apply elem_of_cons in Hpc as [->|Hpc].
    + exists false. vm_compute. reflexivity.
    + apply elem_of_cons in Hpc as [->|Hpc].
      * exists true. vm_compute. reflexivity.
      * by apply elem_of_nil in Hpc.
Defined.

(** C8: the result holds two pairs for [ph1]; the write of each of them
    succeeds on the document, yet one write is made and 1 is returned. *)
Lemma C8_one_write_for_two_pairs :
  let r := create_mapping sample_slide sample_analysis [] duplicate_raw in
  length (mappings r) = 2 /\
  map (fun pc => succeeded (write_pair sample_doc r pc).1) (mappings r)
    = [true; true] /\
  length (Applier.updates_of r) = 1 /\
  (Applier.apply_mapping (Some sample_doc) r).1 = Return 1.
Proof. vm_compute. repeat split; reflexivity. Qed.

(** ** Responses that cannot be read *)

Lemma prefix_append s1 s2 s :
  String.prefix (s1 ++ s2)%string s = true -> String.prefix s1 s = true.
Proof.
  revert s. induction s1 as [|a s1 IH]; intros s; simpl.
  - by destruct s.
  - destruct s as [|b s]; simpl; [done|].
    destruct (ascii_dec a b); [apply IH|done].
Qed.

Lemma prefix_fence s : String.prefix json_fence s = true ->
  String.prefix fence s = true.
Proof. apply (prefix_append fence "json"). Qed.

Lemma contains_fence s :
  contains fence s = false -> contains json_fence s = false.
Proof.
  induction s as [|c s IH].
  - done.
  - cbn [contains]. intros [Hp Hc]%orb_false_iff.
    apply orb_false_iff. split; [|by apply IH].
    destruct (String.prefix json_fence (String c s)) eqn:E; [|done].
    by rewrite (prefix_fence _ E) in Hp.
Qed.

Lemma unfenced_plain s : contains fence s = false -> unfenced s = s.
Proof.
  intros H. unfold unfenced. by rewrite (contains_fence s H), H.
Qed.

Lemma substring_all n s :
  (String.length s <= n)%nat -> String.substring 0 n s = s.
Proof.
  revert n. induction s as [|c s IH]; intros [|n] Hn; simpl in *; try done.
  - lia.
  - f_equal. apply IH. lia.
Qed.

(** C4 (amended): when JSON decoding of the response fails and the text
    has no span from an opening to a closing brace, reading the response
    raises a [ValueError] whose message carries the first 500 characters
    of the text, taken after the code fence has been stripped; for a text
    without code fence of at most 500 characters that is the whole
    response. Nothing is returned, so no mapping is built. *)
Theorem unparsable_response_raises loads response_text :
  loads (strip (unfenced response_text)) = None ->
  brace_span (unfenced response_text) = None ->
  response_mappings loads response_text =
    Raise (ValueError (parse_error_prefix ++
                       take_chars 500 (unfenced response_text))%string)
  /\
  (contains fence response_text = false ->
   (String.length response_text <= 500)%nat ->
   response_mappings loads response_text =
     Raise (ValueError (parse_error_prefix ++ response_text)%string)).
Proof.
  intros Hloads Hspan.
  assert (response_mappings loads response_text =
          Raise (ValueError (parse_error_prefix ++
                             take_chars 500 (unfenced response_text))%string))
    as E.
  { unfold response_mappings, parse_response. by rewrite Hloads, Hspan. }
  split; [exact E|]. intros Hfence Hlen. rewrite E.
  rewrite (unfenced_plain _ Hfence). unfold take_chars.
  by rewrite (substring_all _ _ Hlen).
Qed.

(** C4 (amended), for a response in plain words. *)
Lemma unparsable_response_raises_witness :
  response_mappings json_loads "I could not find a mapping." =
  Raise (ValueError
    "Could not parse mapping response: I could not find a mapping.").
Proof.
  apply (proj2 (unparsable_response_raises json_loads
                  "I could not find a mapping."
                  ltac:(vm_compute; reflexivity)
                  ltac:(vm_compute; reflexivity))).
  - vm_compute. reflexivity.
  - vm_compute. lia.
Defined.

(** C4: a response that is a bare JSON string decodes, and the mapping
    loop is never reached: reading [data.get] raises [AttributeError],
    which carries no text. *)
Lemma C4_bare_json_string :
  json_loads (quoted "hello") = Some (JString "hello") /\
  response_mappings json_loads (quoted "hello") = Raise AttributeError.
Proof. vm_compute. split; reflexivity. Qed.

(** Two more responses of the wrong shape: text in a code fence, of which
    the message keeps the inside only, and an object without mappings,
    for which the loop runs over the empty list. *)
Example fenced_text_message :
  response_mappings json_loads
    ("```" ++ newline ++ "no mapping" ++ newline ++ "```")%string =
  Raise (ValueError ("Could not parse mapping response: "
                     ++ newline ++ "no mapping" ++ newline)%string).
Proof. vm_compute. reflexivity. Qed.

Example object_without_mappings :
  response_mappings json_loads "{}" = Return (JArray []).
Proof. vm_compute. reflexivity. Qed.

(** ** Sorting *)

Section Sorting.
Context {A : Type} (lt : A -> A -> bool).

Lemma insert_by_perm x l : insert_by lt x l ≡ₚ x :: l.
Proof.
  induction l as [|y l IH]; simpl; [done|].
  destruct (lt y x); [|done]. rewrite IH. apply Permutation_swap.
Qed.

Lemma sorted_by_perm l : sorted_by lt l ≡ₚ l.
Proof.
  induction l as [|x l IH]; simpl; [done|].
  rewrite insert_by_perm. by rewrite IH.
Qed.

Lemma strict_total_on_subset xs ys :
  (forall x, x ∈ ys -> x ∈ xs) ->
  strict_total_on lt xs -> strict_total_on lt ys.
Proof.
  intros Hsub (Hirr & Htr & Hanti). split_and!; eauto 10.
Qed.

Lemma strict_total_on_perm xs ys :
  xs ≡ₚ ys -> strict_total_on lt xs -> strict_total_on lt ys.
Proof.
  intros Hp. apply strict_total_on_subset. intros x. by rewrite Hp.
Qed.

Lemma strict_asym xs x y :
  strict_total_on lt xs -> x ∈ xs -> y ∈ xs ->
  lt x y = true -> lt y x = false.
Proof.
  intros (Hirr & Htr & _) Hx Hy Hxy.
  destruct (lt y x) eqn:Hyx; [|done].
  by rewrite <- (Hirr x Hx), (Htr x y x Hx Hy Hx Hxy Hyx).
Qed.

(** If [y] is not above [x] and [z] is not below [y], [z] is not below [x]. *)
Lemma strict_not_below xs x y z :
  strict_total_on lt xs -> x ∈ xs -> y ∈ xs -> z ∈ xs ->
  lt y x = false -> lt z y = false -> lt z x = false.
Proof.
  intros Hst Hx Hy Hz Hyx Hzy. pose proof Hst as (Hirr & Htr & Hanti).
  destruct (lt z x) eqn:Hzx; [|done].
  destruct (lt y z) eqn:Hyz.
  - by rewrite (Htr y z x Hy Hz Hx Hyz Hzx) in Hyx.
  - rewrite (Hanti y z Hy Hz Hyz Hzy) in Hyx. by rewrite Hzx in Hyx.
Qed.

Lemma insert_by_ascending x l :
  strict_total_on lt (x :: l) ->
  ascending lt l -> ascending lt (insert_by lt x l).
Proof.
  unfold ascending. induction l as [|y l IH]; intros Hst Hasc; simpl.
  - repeat constructor.
  - apply StronglySorted_inv in Hasc as [Hl Hy].
    destruct (lt y x) eqn:Hyx.
    + constructor.
      * apply IH; [|done].
        eapply strict_total_on_subset; [|exact Hst]. set_solver.
      * apply Forall_forall. intros z Hz.
        rewrite insert_by_perm in Hz. apply elem_of_cons in Hz as [->|Hz].
        -- apply (strict_asym (x :: y :: l)); [done|set_solver..|done].
        -- by apply (proj1 (Forall_forall _ _) Hy).
    + constructor; [by constructor|].
      constructor; [done|]. apply Forall_forall. intros z Hz.
      apply (strict_not_below (x :: y :: l) x y z); [done|set_solver..| |].
      * done.
      * by apply (proj1 (Forall_forall _ _) Hy).
Qed.

Lemma sorted_by_ascending l :
  strict_total_on lt l -> ascending lt (sorted_by lt l).
Proof.
  induction l as [|x l IH]; intros Hst; simpl; [constructor|].
  apply insert_by_ascending.
  - eapply strict_total_on_perm; [|exact Hst].
    by rewrite sorted_by_perm.
  - apply IH. eapply strict_total_on_subset; [|exact Hst]. set_solver.
Qed.

(** An ascending arrangement of given elements is unique when no two of
    them tie. *)
Lemma ascending_unique s : forall s',
  ascending lt s -> ascending lt s' -> s ≡ₚ s' ->
  (forall x y, x ∈ s -> y ∈ s -> lt x y = false -> lt y x = false -> x = y) ->
  s = s'.
Proof.
  unfold ascending. induction s as [|x t IH]; intros s' Hs Hs' Hp Hanti.
  - by apply Permutation_nil_l in Hp.
  - destruct s' as [|x' t']; [by apply Permutation_nil_r in Hp|].
    apply StronglySorted_inv in Hs as [Ht Hx].
    apply StronglySorted_inv in Hs' as [Ht' Hx'].
    assert (x = x') as <-.
    { assert (x ∈ x' :: t') as Hin by (rewrite <- Hp; left).
      assert (x' ∈ x :: t) as Hin' by (rewrite Hp; left).
      apply elem_of_cons in Hin as [?|Hin]; [done|].
      apply elem_of_cons in Hin' as [?|Hin']; [done|].
      apply Hanti; [left|by right| |].
      - by apply (proj1 (Forall_forall _ _) Hx').
      - by apply (proj1 (Forall_forall _ _) Hx). }
    f_equal. apply IH; [done..| |].
    + by apply Permutation_cons_inv in Hp.
    + intros y z Hy Hz. apply Hanti; by right.
Qed.

Lemma sorted_by_unique l l' :
  l ≡ₚ l' -> strict_total_on lt l -> sorted_by lt l' = sorted_by lt l.
Proof.
  intros Hp Hst. apply ascending_unique.
  - apply sorted_by_ascending. by eapply strict_total_on_perm.
  - by apply sorted_by_ascending.
  - by rewrite !sorted_by_perm.
  - destruct Hst as (_ & _ & Hanti). intros x y Hx Hy.
    apply Hanti; by rewrite <- (sorted_by_perm l'), Hp in *.
Qed.
End Sorting.

Lemma sorted_by_map {A B} (key : A -> B) (ltk : B -> B -> bool) l :
  map key (sorted_by (fun a b => ltk (key a) (key b)) l) =
  sorted_by ltk (map key l).
Proof.
  induction l as [|x l IH]; simpl; [done|]. rewrite <- IH.
  generalize (sorted_by (fun a b => ltk (key a) (key b)) l). intros s.
  induction s as [|y s IHs]; simpl; [done|].
  destruct (ltk (key y) (key x)); simpl; [|done]. by rewrite IHs.
Qed.

(** ** The row loop *)

Lemma row_loop ips : forall st,
  NoDup (map fst ips) ->
  length (rs_heap (foldl row_step st ips)) = length (rs_heap st) /\
  (forall j, j ∉ map fst ips ->
     rs_heap (foldl row_step st ips) !! j = rs_heap st !! j) /\
  (forall k ip, ips !! k = Some ip ->
     exists rg,
       spec_row_walk (rs_row_group st) (rs_current_top st)
                     (map (fun ip => top ip.2) ips) !! k = Some rg /\
       rs_heap (foldl row_step st ips) !! ip.1 =
       set_row_group rg <$> rs_heap st !! ip.1).
Proof.
  induction ips as [|[i0 p0] ips IH]; intros st Hnd.
  - split_and!; [done..|]. intros k ip Hk. by rewrite lookup_nil in Hk.
  - cbn [map fst] in Hnd. apply NoDup_cons in Hnd as [Hi0 Hnd].
    cbn [foldl].
    destruct (IH (row_step st (i0, p0)) Hnd) as (Hlen & Hkeep & Hpt).
    assert (exists rg cur,
              row_step st (i0, p0) =
                mkRow rg cur (alter (set_row_group rg) i0 (rs_heap st)) /\
              spec_row_walk (rs_row_group st) (rs_current_top st)
                (map (fun ip => top ip.2) ((i0, p0) :: ips)) =
              rg :: spec_row_walk rg cur (map (fun ip => top ip.2) ips))
      as (rg & cur & Est & Ewalk).
    { unfold row_step, advance, far. cbn [map snd spec_row_walk].
      destruct (PrimFloat.ltb _ _); eauto. }
    rewrite Est in *. cbn [rs_heap rs_row_group rs_current_top] in *.
    rewrite Ewalk. split_and!.
    + by rewrite Hlen, length_alter.
    + intros j Hj. cbn [map fst] in Hj.
      apply not_elem_of_cons in Hj as [Hne Hj].
      rewrite (Hkeep j Hj). by apply list_lookup_alter_ne.
    + intros [|k] ip Hk.
      * injection Hk as <-. exists rg. split; [done|]. cbn [fst].
        rewrite (Hkeep i0 Hi0). apply list_lookup_alter_eq.
      * cbn [lookup list_lookup] in Hk. destruct (Hpt k ip Hk) as (rg' & Hw & Hh).
        exists rg'. split; [exact Hw|]. rewrite Hh.
        rewrite list_lookup_alter_ne; [done|].
        intros ->. apply Hi0. apply list_elem_of_fmap. exists ip.
        split; [done|]. by eapply list_elem_of_lookup_2.
Qed.

Lemma imap_pair_fst {A} (l : list A) :
  map fst (imap pair l) = seq 0 (length l).
Proof.
  change (map fst (imap pair l)) with (fst <$> imap pair l).
  rewrite fmap_imap. rewrite <- (list_fmap_id (seq 0 (length l))).
  exact (imap_seq_0 l id).
Qed.

Lemma imap_pair_elem {A} (l : list A) i x :
  (i, x) ∈ imap pair l <-> l !! i = Some x.
Proof.
  rewrite list_elem_of_lookup. split.
  - intros [k Hk]. rewrite list_lookup_imap in Hk.
    destruct (l !! k) eqn:E; [|done]. simpl in Hk. by injection Hk as <- <-.
  - intros Hl. exists i. by rewrite list_lookup_imap, Hl.
Qed.

Lemma assign_row_groups_sorted phs k i p :
  sorted_by top_lt (imap pair phs) !! k = Some (i, p) ->
  exists rg,
    spec_row_groups
      (map (fun ip => top ip.2) (sorted_by top_lt (imap pair phs))) !! k
      = Some rg /\
    _assign_row_groups phs !! i = Some (set_row_group rg p).
Proof.
  intros Hk. unfold _assign_row_groups. cbv zeta.
  pose proof (sorted_by_perm top_lt (imap pair phs)) as Hperm.
  destruct (sorted_by top_lt (imap pair phs)) as [|first rest] eqn:Es;
    [by rewrite lookup_nil in Hk|].
  assert (NoDup (map fst (first :: rest))) as Hnd.
  { change (map fst (first :: rest)) with (fst <$> first :: rest).
    rewrite Hperm. change (NoDup (map fst (imap pair phs))).
    rewrite imap_pair_fst. apply NoDup_seq. }
  destruct (row_loop (first :: rest) (mkRow 0 (top first.2) phs) Hnd)
    as (_ & _ & Hpt).
  destruct (Hpt k (i, p) Hk) as (rg & Hw & Hh).
  cbn [rs_heap rs_row_group rs_current_top fst] in *.
  exists rg. split; [exact Hw|]. rewrite Hh.
  assert ((i, p) ∈ imap pair phs) as Hin.
  { rewrite <- Hperm. by eapply list_elem_of_lookup_2. }
  apply imap_pair_elem in Hin. by rewrite Hin.
Qed.

Lemma assign_row_groups_length phs :
  length (_assign_row_groups phs) = length phs.
Proof.
  unfold _assign_row_groups. cbv zeta.
  pose proof (sorted_by_perm top_lt (imap pair phs)) as Hperm.
  destruct (sorted_by top_lt (imap pair phs)) as [|first rest] eqn:Es; [done|].
  assert (NoDup (map fst (first :: rest))) as Hnd.
  { change (map fst (first :: rest)) with (fst <$> first :: rest).
    rewrite Hperm. change (NoDup (map fst (imap pair phs))).
    rewrite imap_pair_fst. apply NoDup_seq. }
  by destruct (row_loop (first :: rest) (mkRow 0 (top first.2) phs) Hnd)
    as (Hlen & _ & _).
Qed.

(** The same tops in another order of the list. *)
Example scenario_tops_shuffled :
  map row_group (_assign_row_groups
    [ sample_ph "c" 1%float 3.0%float; sample_ph "a" 1%float 0.1%float;
      sample_ph "e" 1%float 6.2%float; sample_ph "b" 4%float 0.15%float;
      sample_ph "d" 4%float 3.05%float ]) = [1; 0; 2; 0; 1].
Proof. vm_compute. reflexivity. Qed.

(** ** Row groups as a function of the top *)

Lemma spec_row_walk_lookup ks : forall rg cur k,
  k < length ks ->
  spec_row_walk rg cur ks !! k =
  Some (run_rows (rg, cur) (take (S k) ks)).1.
Proof.
  induction ks as [|t ks IH]; intros rg cur k Hk; simpl in Hk; [lia|].
  cbn [spec_row_walk]. change (take (S k) (t :: ks)) with (t :: take k ks).
  unfold run_rows. cbn [foldl fst snd].
  unfold advance at 2. unfold far.
  destruct (PrimFloat.ltb _ _); destruct k as [|k]; cbn [lookup list_lookup];
    try done.
  - apply (IH (S rg) t). lia.
  - apply (IH rg cur). lia.
Qed.

Lemma advance_again rg cur t :
  far t t = false ->
  advance (advance rg cur t).1 (advance rg cur t).2 t = advance rg cur t.
Proof.
  intros Hself. unfold advance. destruct (far t cur) eqn:E; cbn [fst snd].
  - by rewrite Hself.
  - by rewrite E.
Qed.

Lemma run_rows_same t ks : forall rg cur,
  far t t = false -> Forall (eq t) ks ->
  run_rows (advance rg cur t) ks = advance rg cur t.
Proof.
  intros rg cur Hself Hall. induction Hall as [|k ks <- _ IH]; [done|].
  unfold run_rows in *. cbn [foldl]. rewrite advance_again by done.
  exact IH.
Qed.

(** Going through an ascending list up to position [k] leaves the loop
    where going through all the tops that are not above the [k]-th leaves
    it. *)
Lemma run_rows_upto ks : forall st k t,
  ascending PrimFloat.ltb ks -> tops_ordered ks ->
  ks !! k = Some t ->
  run_rows st (take (S k) ks) =
  run_rows st (filter (fun x => PrimFloat.ltb t x = false) ks).
Proof.
  unfold ascending.
  induction ks as [|x ks IH]; intros st k t Hasc Hord Hk;
    [by rewrite lookup_nil in Hk|].
  apply StronglySorted_inv in Hasc as [Hasc Hx].
  assert (tops_ordered ks) as Hord'.
  { destruct Hord as [Hst Hself]. split.
    - eapply strict_total_on_subset; [|exact Hst]. set_solver.
    - intros y Hy. apply Hself. by right. }
  destruct Hord as [(Hirr & Htr & Hanti) Hself].
  destruct k as [|k]; cbn [lookup list_lookup] in Hk.
  - injection Hk as <-. rewrite filter_cons.
    rewrite decide_True by (apply Hirr; left).
    change (take 1 (x :: ks)) with [x]. unfold run_rows at 1 2. cbn [foldl].
    destruct st as [rg cur]. cbn [fst snd].
    fold (run_rows (advance rg cur x)
            (filter (fun y => PrimFloat.ltb x y = false) ks)).
    rewrite run_rows_same; [done|apply Hself; left|].
    apply Forall_forall. intros y Hy.
    apply list_elem_of_filter in Hy as [Hxy Hy].
    apply Hanti; [left|by right|done|].
    by apply (proj1 (Forall_forall _ _) Hx).
  - assert (t ∈ ks) as Ht by (by eapply list_elem_of_lookup_2).
    rewrite filter_cons.
    rewrite decide_True by (by apply (proj1 (Forall_forall _ _) Hx)).
    cbn [firstn]. unfold run_rows at 1 2. cbn [foldl].
    apply (IH _ k t Hasc Hord' Hk).
Qed.

Lemma sorted_tops phs :
  map (fun ip => top ip.2) (sorted_by top_lt (imap pair phs)) =
  sorted_by PrimFloat.ltb (map top phs).
Proof.
  etrans; [exact (sorted_by_map (fun ip : nat * Placeholder => top ip.2)
                     PrimFloat.ltb (imap pair phs))|].
  f_equal. change (map (fun ip => top ip.2) (imap pair phs))
    with ((fun ip : nat * Placeholder => top ip.2) <$> imap pair phs).
  rewrite fmap_imap. apply imap_const.
Qed.

(** The row group that a placeholder gets is a function of its top. *)
Lemma assign_row_groups_row_of phs :
  tops_ordered (map top phs) ->
  _assign_row_groups phs =
  map (fun p => set_row_group (row_of (map top phs) (top p)) p) phs.
Proof.
  intros Hord. apply list_eq. intros i.
  change (map ?f phs) with (f <$> phs). rewrite list_lookup_fmap.
  destruct (phs !! i) as [p|] eqn:Ei.
  - assert ((i, p) ∈ sorted_by top_lt (imap pair phs)) as Hin.
    { rewrite sorted_by_perm. by apply imap_pair_elem. }
    apply list_elem_of_lookup in Hin as [k Hk].
    destruct (assign_row_groups_sorted phs k i p Hk) as (rg & Hw & ->).
    cbn [fmap option_fmap option_map]. do 2 f_equal.
    assert (sorted_by PrimFloat.ltb (map top phs) !! k = Some (top p)) as Hkt.
    { rewrite <- sorted_tops.
      change (map ?f ?l) with (f <$> l). by rewrite list_lookup_fmap, Hk. }
    rewrite sorted_tops in Hw. unfold row_of. cbv zeta.
    assert (tops_ordered (sorted_by PrimFloat.ltb (map top phs))) as Hord'.
    { destruct Hord as [Hst Hself]. split.
      - eapply strict_total_on_perm; [|exact Hst]. by rewrite sorted_by_perm.
      - intros t Ht. apply Hself. by rewrite sorted_by_perm in Ht. }
    pose proof (sorted_by_ascending PrimFloat.ltb _ (proj1 Hord)) as Hasc.
    destruct (sorted_by PrimFloat.ltb (map top phs)) as [|first ks] eqn:Es;
      [by rewrite lookup_nil in Hkt|].
    unfold spec_row_groups in Hw.
    rewrite (spec_row_walk_lookup (first :: ks) 0 first k) in Hw
      by (by eapply lookup_lt_Some).
    apply (inj Some) in Hw. rewrite <- Hw.
    by rewrite (run_rows_upto (first :: ks) (0, first) k (top p) Hasc Hord' Hkt).
  - apply lookup_ge_None. rewrite assign_row_groups_length.
    by apply lookup_ge_None.
Qed.

Lemma row_of_perm tops tops' t :
  tops ≡ₚ tops' -> tops_ordered tops -> row_of tops' t = row_of tops t.
Proof.
  intros Hp [Hst _]. unfold row_of.
  by rewrite (sorted_by_unique PrimFloat.ltb tops tops' Hp Hst).
Qed.

Ltac members :=
  repeat match goal with
  | H : _ ∈ _ :: _ |- _ => apply elem_of_cons in H as [->|H]
  | H : _ ∈ [] |- _ => by apply elem_of_nil in H
  end.

Ltac by_cases :=
  intros; members;
  first [ reflexivity
        | vm_compute; reflexivity
        | exfalso; vm_compute in *; congruence ].

(** C9: two placeholders of one row at the same [left] come out in the
    order in which they came in, so the two arrangements of the same set
    give different outputs. *)
Lemma C9_tie_keeps_input_order :
  [stacked_upper; stacked_lower] ≡ₚ [stacked_lower; stacked_upper] /\
  map (fun p => (shape_name p, row_group p))
      (normalize [stacked_upper; stacked_lower]) = [("upper", 0); ("lower", 0)] /\
  map (fun p => (shape_name p, row_group p))
      (normalize [stacked_lower; stacked_upper]) = [("lower", 0); ("upper", 0)] /\
  normalize [stacked_lower; stacked_upper] <>
  normalize [stacked_upper; stacked_lower].
Proof.
  split; [apply Permutation_swap|].
  split; [vm_compute; reflexivity|].
  split; [vm_compute; reflexivity|].
  intros H. apply (f_equal (map shape_name)) in H. vm_compute in H.
  discriminate H.
Qed.

(** ** What a write changes *)

Lemma update_shapes_failure n t shapes :
  (update_shapes n t shapes).1 = Return true \/
  (update_shapes n t shapes).2 = shapes.
Proof.
  induction shapes as [|sh rest IH]; [by right|].
  rewrite update_shapes_cons.
  destruct (String.eqb (sh_name sh) n && has_text_frame sh).
  - destruct (set_first_run t (paragraphs sh)); [by left|].
    destruct (paragraphs sh); [|by right].
    cbn [fst snd]. destruct IH as [->| ->]; auto.
  - cbn [fst snd]. destruct IH as [->| ->]; auto.
Qed.

(** X1: a write that does not report success leaves the document as it
    was: an index out of range, no shape of that name with a text frame,
    or the [IndexError] of a text frame without runs. *)
Theorem update_placeholder_failure_unchanged doc i n t :
  (update_placeholder doc i n t).1 = Return true \/
  (update_placeholder doc i n t).2 = doc.
Proof.
  unfold update_placeholder.
  destruct ((i <? 0)%Z || (Z.of_nat (length (prs doc)) <=? i)%Z); [by right|].
  destruct (prs doc !! Z.to_nat i) as [shapes|] eqn:El; [|by right].
  destruct (update_shapes_failure n t shapes) as [H|H];
    destruct (update_shapes n t shapes) as [r shapes']; cbn [fst snd] in *.
  - by left.
  - right. subst shapes'. destruct doc as [p s c]. cbn in *. f_equal.
    by apply list_insert_id.
Qed.

Lemma set_first_run_lengths t ps ps' :
  set_first_run t ps = Some ps' -> map length ps' = map length ps.
Proof.
  revert ps'. induction ps as [|[|r rs] ps IH]; intros ps' H; simpl in H.
  - done.
  - destruct (set_first_run t ps) as [q|]; [|done]. injection H as <-.
    simpl. by rewrite (IH q).
  - by injection H as <-.
Qed.

Lemma same_frame_refl sh : same_frame sh sh.
Proof. by repeat split. Qed.

Lemma update_shapes_frame n t shapes :
  Forall2 same_frame shapes (update_shapes n t shapes).2.
Proof.
  induction shapes as [|sh rest IH]; [constructor|].
  rewrite update_shapes_cons.
  destruct (String.eqb (sh_name sh) n && has_text_frame sh).
  - destruct (set_first_run t (paragraphs sh)) as [ps|] eqn:Es.
    + constructor.
      * repeat split. cbn. by apply (set_first_run_lengths t).
      * apply Forall2_same_length_lookup_2; [done|].
        intros k x y Hx Hy. rewrite Hx in Hy. injection Hy as <-.
        apply same_frame_refl.
    + destruct (paragraphs sh).
      * constructor; [apply same_frame_refl|exact IH].
      * constructor; [apply same_frame_refl|].
        apply Forall2_same_length_lookup_2; [done|].
        intros k x y Hx Hy. rewrite Hx in Hy. injection Hy as <-.
        apply same_frame_refl.
  - constructor; [apply same_frame_refl|exact IH].
Qed.

(** X2: a write never adds, removes, renames or moves a shape, and never
    changes the number of runs of a paragraph; the path of the document and
    the cached slide list stay as they are. *)
Theorem update_placeholder_frame doc i n t :
  path (update_placeholder doc i n t).2 = path doc /\
  _architecture_slides (update_placeholder doc i n t).2 =
    _architecture_slides doc /\
  Forall2 (Forall2 same_frame) (prs doc) (prs (update_placeholder doc i n t).2).
Proof.
  assert (forall slides : list (list Shape),
            Forall2 (Forall2 same_frame) slides slides) as Hrefl.
  { intros slides. apply Forall2_same_length_lookup_2; [done|].
    intros k x y Hx Hy. rewrite Hx in Hy. injection Hy as <-.
    apply Forall2_same_length_lookup_2; [done|].
    intros k' x' y' Hx' Hy'. rewrite Hx' in Hy'. injection Hy' as <-.
    apply same_frame_refl. }
  split_and!; [|apply update_placeholder_cache|]; unfold update_placeholder;
    destruct ((i <? 0)%Z || (Z.of_nat (length (prs doc)) <=? i)%Z);
    try done; try apply Hrefl;
    destruct (prs doc !! Z.to_nat i) as [shapes|] eqn:El;
    try done; try apply Hrefl;
    pose proof (update_shapes_frame n t shapes) as Hf;
    destruct (update_shapes n t shapes) as [r shapes']; [done|].
  cbn [snd prs] in *.
  apply Forall2_same_length_lookup_2; [by rewrite length_insert|].
  intros k x y Hx Hy. destruct (decide (k = Z.to_nat i)) as [->|Hne].
  - rewrite list_lookup_insert_eq in Hy by (by eapply lookup_lt_Some).
    rewrite El in Hx. injection Hx as <-. by injection Hy as <-.
  - rewrite list_lookup_insert_ne in Hy by done.
    rewrite Hx in Hy. injection Hy as <-.
    apply Forall2_same_length_lookup_2; [done|].
    intros k' x' y' Hx' Hy'. rewrite Hx' in Hy'. injection Hy' as <-.
    apply same_frame_refl.
Qed.

(** ** What a successful write does *)

Lemma set_first_run_concat t ps ps' :
  set_first_run t ps = Some ps' ->
  concat ps' = t :: tail (concat ps) /\ concat ps <> [].
Proof.
  revert ps'. induction ps as [|[|r rs] ps IH]; intros ps' H; simpl in H.
  - done.
  - destruct (set_first_run t ps) as [q|]; [|done]. injection H as <-.
    simpl. by apply IH.
  - by injection H as <-.
Qed.

Lemma update_shapes_success n t shapes :
  (update_shapes n t shapes).1 = Return true ->
  exists k sh ps,
    shapes !! k = Some sh /\ sh_name sh = n /\ has_text_frame sh = true /\
    set_first_run t (paragraphs sh) = Some ps /\
    (update_shapes n t shapes).2 = <[k := with_paragraphs sh ps]> shapes /\
    (forall k' sh0, k' < k -> shapes !! k' = Some sh0 ->
       sh_name sh0 = n -> has_text_frame sh0 = true -> paragraphs sh0 = []).
Proof.
  induction shapes as [|sh rest IH]; [done|].
  rewrite update_shapes_cons.
  destruct (String.eqb (sh_name sh) n && has_text_frame sh) eqn:Em.
  - apply andb_true_iff in Em as [Hn%String.eqb_eq Htf].
    destruct (set_first_run t (paragraphs sh)) as [ps|] eqn:Es.
    + intros _. exists 0, sh, ps. split_and!; try done. intros; lia.
    + destruct (paragraphs sh) as [|p ps] eqn:Ep; [|done].
      cbn [fst snd]. intros H. destruct (IH H) as (k & sh1 & ps1 & Hk & ? & ? & ? & -> & Hearly).
      exists (S k), sh1, ps1. split_and!; try done.
      intros [|k'] sh0 Hlt Hsh0 ? ?.
      * by injection Hsh0 as <-.
      * apply (Hearly k'); [lia|done..].
  - cbn [fst snd]. intros H.
    destruct (IH H) as (k & sh1 & ps1 & Hk & ? & ? & ? & -> & Hearly).
    exists (S k), sh1, ps1. split_and!; try done.
    intros [|k'] sh0 Hlt Hsh0 Hname Htf.
    + injection Hsh0 as <-. apply String.eqb_eq in Hname.
      by rewrite Hname, Htf in Em.
    + apply (Hearly k'); [lia|done..].
Qed.

(** X3: a write that reports success has replaced the first run of one
    shape of the slide, the first shape of that name that has a text frame
    with paragraphs, by the new text; the other runs of that shape and all
    other shapes are as before. *)
Theorem update_placeholder_writes_first_run doc i n t :
  (update_placeholder doc i n t).1 = Return true ->
  (0 <= i)%Z /\
  exists shapes k sh sh',
    prs doc !! Z.to_nat i = Some shapes /\ shapes !! k = Some sh /\
    sh_name sh = n /\ has_text_frame sh = true /\
    same_frame sh sh' /\
    runs_of sh' = t :: tail (runs_of sh) /\ runs_of sh <> [] /\
    prs (update_placeholder doc i n t).2 =
      <[Z.to_nat i := <[k := sh']> shapes]> (prs doc) /\
    (forall k' sh0, k' < k -> shapes !! k' = Some sh0 ->
       sh_name sh0 = n -> has_text_frame sh0 = true -> paragraphs sh0 = []).
Proof.
  unfold update_placeholder.
  destruct ((i <? 0)%Z || (Z.of_nat (length (prs doc)) <=? i)%Z) eqn:Er;
    [done|].
  apply orb_false_iff in Er as [Hneg _].
  destruct (prs doc !! Z.to_nat i) as [shapes|] eqn:El; [|done].
  pose proof (update_shapes_success n t shapes) as Hs.
  destruct (update_shapes n t shapes) as [r shapes']. cbn [fst snd] in *.
  intros Hr. split; [lia|].
  destruct (Hs Hr) as (k & sh & ps & Hk & Hn & Htf & Hset & -> & Hearly).
  exists shapes, k, sh, (with_paragraphs sh ps).
  destruct (set_first_run_concat _ _ _ Hset) as [Hc Hne].
  split_and!; try done.
  repeat split. cbn. by apply (set_first_run_lengths t).
Qed.

(** X3, on the sample deck: [ph1] is the third shape of slide 0. *)
Lemma update_placeholder_writes_first_run_witness :
  exists shapes k sh sh',
    prs sample_doc !! 0 = Some shapes /\ shapes !! k = Some sh /\
    sh_name sh = "ph1" /\ has_text_frame sh = true /\
    same_frame sh sh' /\
    runs_of sh' = "API Gateway" :: tail (runs_of sh) /\ runs_of sh <> [] /\
    prs (update_placeholder sample_doc 0 "ph1" "API Gateway").2 =
      <[0 := <[k := sh']> shapes]> (prs sample_doc) /\
    (forall k' sh0, k' < k -> shapes !! k' = Some sh0 ->
       sh_name sh0 = "ph1" -> has_text_frame sh0 = true -> paragraphs sh0 = []).
Proof.
  apply (update_placeholder_writes_first_run sample_doc 0 "ph1" "API Gateway").
  vm_compute. reflexivity.
Defined.

(** ** Bounds and reach of a batch *)

Lemma batch_loop_bound items : forall doc count,
  match (batch_loop doc count items).1 with
  | Return n => n <= count + length items
  | Raise _ => True
  end.
Proof.
  induction items as [|[[i n] t] items IH]; intros doc count; simpl; [lia|].
  destruct (update_placeholder doc i n t) as [[[|]|e] doc']; [| |done].
  - specialize (IH doc' (S count)).
    destruct (batch_loop doc' (S count) items) as [[m|e] d]; simpl in *; lia.
  - specialize (IH doc' count).
    destruct (batch_loop doc' count items) as [[m|e] d]; simpl in *; lia.
Qed.

Lemma dict_set_length {K V} `{EqDecision K} (k : K) (v : V) d :
  length (dict_set k v d) <= S (length d).
Proof.
  induction d as [|[k' v'] d IH]; simpl; [lia|].
  destruct (decide (k = k')); simpl; lia.
Qed.

Lemma updates_of_length mr :
  length (Applier.updates_of mr) <= length (mappings mr).
Proof.
  unfold Applier.updates_of.
  assert (forall pairs d,
            length (foldl (fun d (pc : Placeholder * SystemComponent) =>
                       dict_set (mr_slide_index mr, shape_name pc.1)
                                (name pc.2) d) d pairs)
            <= length d + length pairs) as H.
  { induction pairs as [|pc pairs IH]; intros d; simpl; [lia|].
    etrans; [apply IH|].
    pose proof (dict_set_length (mr_slide_index mr, shape_name pc.1)
                  (name pc.2) d). lia. }
  apply (H (mappings mr) []).
Qed.

(** X4: the number that [apply_mapping] returns is at most the number of
    mapped pairs, and the number that [update_placeholders_batch] returns
    is at most the number of its updates. *)
Theorem apply_mapping_count_bound doc mr updates :
  match (Applier.apply_mapping (Some doc) mr).1 with
  | Return n => n <= length (mappings mr)
  | Raise _ => True
  end /\
  match (update_placeholders_batch doc updates).1 with
  | Return n => n <= length updates
  | Raise _ => True
  end.
Proof.
  split.
  - unfold Applier.apply_mapping, update_placeholders_batch.
    pose proof (batch_loop_bound (Applier.updates_of mr) doc 0) as Hb.
    pose proof (updates_of_length mr).
    destruct (batch_loop doc 0 (Applier.updates_of mr)) as [[n|e] d];
      simpl in *; [lia|done].
  - apply (batch_loop_bound updates doc 0).
Qed.

Lemma at_most_slide_trans idx d1 d2 d3 :
  at_most_slide idx d1 d2 -> at_most_slide idx d2 d3 ->
  at_most_slide idx d1 d3.
Proof.
  intros [H12|[Hi (s & H12)]] [H23|[Hi' (s' & H23)]].
  - left. congruence.
  - right. split; [done|]. exists s'. congruence.
  - right. split; [done|]. exists s. congruence.
  - right. split; [done|]. exists s'.
    by rewrite H23, H12, list_insert_insert_eq.
Qed.

Lemma update_placeholder_reach doc i n t :
  at_most_slide i doc (update_placeholder doc i n t).2.
Proof.
  unfold update_placeholder, at_most_slide.
  destruct ((i <? 0)%Z || (Z.of_nat (length (prs doc)) <=? i)%Z) eqn:Er;
    [by left|].
  apply orb_false_iff in Er as [Hneg _].
  destruct (prs doc !! Z.to_nat i) as [shapes|]; [|by left].
  destruct (update_shapes n t shapes) as [r shapes']. cbn [snd prs].
  right. split; [lia|]. by exists shapes'.
Qed.

Lemma batch_loop_reach idx items : forall doc count,
  Forall (fun it : (Z * string) * string => it.1.1 = idx) items ->
  at_most_slide idx doc (batch_loop doc count items).2.
Proof.
  induction items as [|[[i n] t] items IH]; intros doc count Hall; simpl.
  - by left.
  - apply Forall_cons in Hall as [Hi Hall]. cbn in Hi. subst i.
    pose proof (update_placeholder_reach doc idx n t) as Hstep.
    destruct (update_placeholder doc idx n t) as [[[|]|e] doc'];
      cbn [snd] in *; [| |done].
    + eapply at_most_slide_trans; [exact Hstep|]. by apply IH.
    + eapply at_most_slide_trans; [exact Hstep|]. by apply IH.
Qed.

Lemma updates_of_slide mr :
  Forall (fun it : (Z * string) * string => it.1.1 = mr_slide_index mr)
         (Applier.updates_of mr).
Proof.
  unfold Applier.updates_of.
  assert (forall pairs d,
            Forall (fun it : (Z * string) * string =>
                      it.1.1 = mr_slide_index mr) d ->
            Forall (fun it : (Z * string) * string =>
                      it.1.1 = mr_slide_index mr)
              (foldl (fun d (pc : Placeholder * SystemComponent) =>
                        dict_set (mr_slide_index mr, shape_name pc.1)
                                 (name pc.2) d) d pairs)) as H.
  { induction pairs as [|pc pairs IH]; intros d Hd; simpl; [done|].
    apply IH. clear IH. induction d as [|[k v] d IHd]; simpl.
    - by repeat constructor.
    - apply Forall_cons in Hd as [Hk Hd].
      destruct (decide _); constructor; auto. }
  by apply H.
Qed.

(** X5: [apply_mapping] writes into the slide of the mapping result only:
    every other slide of the document is afterwards what it was, and with
    a negative slide index nothing is written at all. *)
Theorem apply_mapping_reach doc mr :
  exists doc',
    (Applier.apply_mapping (Some doc) mr).2 = Some doc' /\
    at_most_slide (mr_slide_index mr) doc doc' /\
    Forall2 (Forall2 same_frame) (prs doc) (prs doc').
Proof.
  unfold Applier.apply_mapping, update_placeholders_batch.
  pose proof (batch_loop_reach (mr_slide_index mr) (Applier.updates_of mr)
                doc 0 (updates_of_slide mr)) as Hreach.
  assert (forall s1 s2 s3 : list (list Shape),
            Forall2 (Forall2 same_frame) s1 s2 ->
            Forall2 (Forall2 same_frame) s2 s3 ->
            Forall2 (Forall2 same_frame) s1 s3) as Htrans.
  { intros s1 s2 s3. apply Forall2_trans. intros l1 l2 l3.
    apply Forall2_trans.
    intros x y z (?&?&?&?&?) (?&?&?&?&?). repeat split; congruence. }
  assert (forall items d count,
            Forall2 (Forall2 same_frame) (prs d)
                    (prs (batch_loop d count items).2)) as Hframe.
  { induction items as [|[[i n] t] items IH]; intros d count; simpl.
    - apply (update_placeholder_frame d (-1) "" "").
    - pose proof (update_placeholder_frame d i n t) as (_ & _ & Hstep).
      destruct (update_placeholder d i n t) as [[[|]|e] d'];
        cbn [snd] in *; [| |done].
      + exact (Htrans _ _ _ Hstep (IH d' (S count))).
      + exact (Htrans _ _ _ Hstep (IH d' count)). }
  specialize (Hframe (Applier.updates_of mr) doc 0).
  destruct (batch_loop doc 0 (Applier.updates_of mr)) as [r doc'].
  exists doc'. by split_and!.
Qed.

(** ** What a scan finds *)

Lemma short_text_found (f : Shape -> bool) (n : nat) shapes sh :
  (forall sh, f sh = true ->
     nonempty (stripped_text sh) = true /\
     (String.length (stripped_text sh) <? n)%nat = true) ->
  List.find f shapes = Some sh ->
  stripped_text sh <> "" /\ String.length (stripped_text sh) < n.
Proof.
  intros Hf Hfind. apply List.find_some in Hfind as [_ H].
  destruct (Hf sh H) as [Hne Hlen]. apply Nat.ltb_lt in Hlen.
  split; [|done]. by destruct (stripped_text sh).
Qed.

(** X6: the title of a slide is never empty and is shorter than 100
    characters, whatever the shapes of the slide are. *)
Theorem slide_title_bounds shapes :
  _get_slide_title shapes <> "" /\
  String.length (_get_slide_title shapes) < 100.
Proof.
  unfold _get_slide_title.
  match goal with
  | |- context [match List.find ?f shapes with
                | Some _ => _
                | None => match List.find ?g shapes with
                          | Some _ => _ | None => _ end
                end] =>
      destruct (List.find f shapes) as [sh|] eqn:E1;
      [apply (short_text_found f 100 shapes sh); [|exact E1]
      |destruct (List.find g shapes) as [sh|] eqn:E2;
       [destruct (short_text_found g 80 shapes sh) as [Hne Hlen];
        [|exact E2|split; [exact Hne|]]|]]
  end.
  - intros sh' H.
    destruct (has_text_frame sh'), (nonempty (stripped_text sh')),
      (String.length (stripped_text sh') <? 100)%nat; try discriminate H.
    done.
  - intros sh' H.
    destruct (has_text_frame sh'), (nonempty (stripped_text sh')),
      (String.length (stripped_text sh') <? 80)%nat; try discriminate H.
    done.
  - eapply Nat.lt_trans; [exact Hlen|].
    apply (proj1 (Nat.ltb_lt 80 100)). reflexivity.
  - split; [done|]. apply (proj1 (Nat.ltb_lt _ _)). reflexivity.
Qed.

Lemma assign_row_groups_pointwise phs i q :
  _assign_row_groups phs !! i = Some q ->
  exists p rg, phs !! i = Some p /\ q = set_row_group rg p.
Proof.
  intros Hq.
  assert (i < length phs) as Hi.
  { rewrite <- assign_row_groups_length. by eapply lookup_lt_Some. }
  destruct (lookup_lt_is_Some_2 phs i Hi) as [p Hp].
  assert ((i, p) ∈ sorted_by top_lt (imap pair phs)) as Hin.
  { rewrite sorted_by_perm. by apply imap_pair_elem. }
  apply list_elem_of_lookup in Hin as [k Hk].
  destruct (assign_row_groups_sorted phs k i p Hk) as (rg & _ & Hr).
  rewrite Hr in Hq. injection Hq as <-. eauto.
Qed.










(** ** The order of the normalized placeholders *)

Section WeakSorting.
Context {A : Type} (lt : A -> A -> bool).

Lemma strict_weak_on_subset xs ys :
  (forall x, x ∈ ys -> x ∈ xs) ->
  strict_weak_on lt xs -> strict_weak_on lt ys.
Proof.
  intros Hsub (Hirr & Htr & Hneg). split_and!; eauto 10.
Qed.

Lemma insert_by_ascending_weak x l :
  strict_weak_on lt (x :: l) ->
  ascending lt l -> ascending lt (insert_by lt x l).
Proof.
  unfold ascending. induction l as [|y l IH]; intros Hst Hasc; simpl.
  - repeat constructor.
  - apply StronglySorted_inv in Hasc as [Hl Hy].
    pose proof Hst as (Hirr & Htr & Hneg).
    destruct (lt y x) eqn:Hyx.
    + constructor.
      * apply IH; [|done].
        eapply strict_weak_on_subset; [|exact Hst]. set_solver.
      * apply Forall_forall. intros z Hz.
        rewrite insert_by_perm in Hz. apply elem_of_cons in Hz as [->|Hz].
        -- destruct (lt x y) eqn:Hxy; [|done].
           rewrite <- (Hirr x); [|left].
           symmetry. apply (Htr x y x); [left|right; left|left|done..].
        -- by apply (proj1 (Forall_forall _ _) Hy).
    + constructor; [by constructor|].
      constructor; [done|]. apply Forall_forall. intros z Hz.
      apply (Hneg z y x); [set_solver..| |done].
      by apply (proj1 (Forall_forall _ _) Hy).
Qed.

Lemma sorted_by_ascending_weak l :
  strict_weak_on lt l -> ascending lt (sorted_by lt l).
Proof.
  induction l as [|x l IH]; intros Hst; simpl; [constructor|].
  apply insert_by_ascending_weak.
  - eapply strict_weak_on_subset; [|exact Hst].
    intros z Hz. apply elem_of_cons in Hz as [->|Hz]; [left|].
    right. by rewrite sorted_by_perm in Hz.
  - apply IH. eapply strict_weak_on_subset; [|exact Hst]. set_solver.
Qed.
End WeakSorting.

(** The tuple order on placeholders is a strict weak order when the order
    of their lefts is one. *)
Lemma row_left_weak (phs : list Placeholder) :
  strict_weak_on left_lt (map left phs) ->
  strict_weak_on row_left_lt phs.
Proof.
  intros (Hirr & Htr & Hneg).
  assert (forall p, p ∈ phs -> left p ∈ map left phs) as Hin.
  { intros p Hp. apply list_elem_of_fmap. eauto. }
  assert (forall a b, row_left_lt a b =
            if Nat.eqb (row_group a) (row_group b)
            then left_lt (left a) (left b)
            else Nat.ltb (row_group a) (row_group b)) as Hdef by done.
  split_and!.
  - intros p Hp. rewrite Hdef, Nat.eqb_refl. apply Hirr. by apply Hin.
  - intros a b c Ha Hb Hc. rewrite !Hdef.
    destruct (Nat.eqb_spec (row_group a) (row_group b)) as [Eab|Nab];
      destruct (Nat.eqb_spec (row_group b) (row_group c)) as [Ebc|Nbc];
      destruct (Nat.eqb_spec (row_group a) (row_group c)) as [Eac|Nac];
      rewrite ?Nat.ltb_lt; try lia.
    apply Htr; by apply Hin.
  - intros a b c Ha Hb Hc. rewrite !Hdef.
    destruct (Nat.eqb_spec (row_group a) (row_group b)) as [Eab|Nab];
      destruct (Nat.eqb_spec (row_group b) (row_group c)) as [Ebc|Nbc];
      destruct (Nat.eqb_spec (row_group a) (row_group c)) as [Eac|Nac];
      rewrite ?Nat.ltb_ge; try lia; try done.
    apply Hneg; by apply Hin.
Qed.

Lemma assign_row_groups_fields phs :
  map (set_row_group 0) (_assign_row_groups phs) = map (set_row_group 0) phs.
Proof.
  apply list_eq. intros i.
  change (map ?f ?l) with (f <$> l). rewrite !list_lookup_fmap.
  destruct (_assign_row_groups phs !! i) as [q|] eqn:Eq.
  - destruct (assign_row_groups_pointwise phs i q Eq) as (p & rg & -> & ->).
    done.
  - apply lookup_ge_None in Eq. rewrite assign_row_groups_length in Eq.
    apply lookup_ge_None in Eq. by rewrite Eq.
Qed.

(** X8: the normalizer changes nothing but the row group and the order:
    with the row groups set aside, its output is a rearrangement of its
    input, so no placeholder is lost, duplicated or otherwise altered. *)
Theorem normalize_keeps_placeholders phs :
  map (set_row_group 0) (normalize phs) ≡ₚ map (set_row_group 0) phs /\
  map (set_row_group 0) (_assign_row_groups phs) = map (set_row_group 0) phs.
Proof.
  split; [|apply assign_row_groups_fields].
  unfold normalize.
  etrans; [apply fmap_Permutation, sorted_by_perm|].
  by rewrite assign_row_groups_fields.
Qed.

(** X9: when the lefts of the placeholders are ordered numbers, the
    output of the normalizer is in ascending order of (row group, left),
    also when several placeholders have the same key. *)
Theorem normalize_ascending phs :
  strict_weak_on left_lt (map left phs) ->
  ascending row_left_lt (normalize phs).
Proof.
  intros Hleft. unfold normalize. apply sorted_by_ascending_weak.
  apply row_left_weak.
  assert (map left (_assign_row_groups phs) = map left phs) as ->; [|done].
  pose proof (assign_row_groups_fields phs) as H.
  apply (f_equal (map left)) in H. by rewrite !map_map in H.
Qed.

(** X9, for two placeholders with the same key. *)
Lemma normalize_ascending_witness :
  ascending row_left_lt (normalize [stacked_lower; stacked_upper]).
Proof.
  apply normalize_ascending.
  unfold strict_weak_on, stacked_lower, stacked_upper.
  cbn [map left sample_ph]. split_and!; by_cases.
Defined.

(** ** Rows from top to bottom *)

Lemma StronglySorted_lookup_lt {A} (R : A -> A -> Prop) l : forall i j x y,
  StronglySorted R l -> l !! i = Some x -> l !! j = Some y -> i < j -> R x y.
Proof.
  induction l as [|a l IH]; intros i j x y Hs Hi Hj Hlt;
    [by rewrite lookup_nil in Hi|].
  apply StronglySorted_inv in Hs as [Hs Ha].
  destruct j as [|j]; [lia|]. cbn in Hj.
  destruct i as [|i]; cbn in Hi.
  - injection Hi as <-. apply (proj1 (Forall_forall _ _) Ha).
    by eapply list_elem_of_lookup_2.
  - apply (IH i j); [done..|lia].
Qed.

Lemma advance_grows rg cur t : rg <= (advance rg cur t).1.
Proof. unfold advance. destruct (far t cur); cbn; lia. Qed.

Lemma run_rows_grows ks : forall st, st.1 <= (run_rows st ks).1.
Proof.
  induction ks as [|t ks IH]; intros [rg cur]; [done|].
  unfold run_rows in *. cbn [foldl fst snd].
  etrans; [apply (advance_grows rg cur t)|].
  destruct (advance rg cur t) as [rg' cur'] eqn:E. apply (IH (rg', cur')).
Qed.

Lemma row_of_lookup tops k t :
  tops_ordered tops ->
  sorted_by PrimFloat.ltb tops !! k = Some t ->
  exists first,
    head (sorted_by PrimFloat.ltb tops) = Some first /\
    row_of tops t =
    (run_rows (0, first) (take (S k) (sorted_by PrimFloat.ltb tops))).1.
Proof.
  intros Hord Hk. unfold row_of. cbv zeta.
  assert (tops_ordered (sorted_by PrimFloat.ltb tops)) as Hord'.
  { destruct Hord as [Hst Hself]. split.
    - eapply strict_total_on_perm; [|exact Hst]. by rewrite sorted_by_perm.
    - intros u Hu. apply Hself. by rewrite sorted_by_perm in Hu. }
  pose proof (sorted_by_ascending PrimFloat.ltb _ (proj1 Hord)) as Hasc.
  destruct (sorted_by PrimFloat.ltb tops) as [|first ks] eqn:Es;
    [by rewrite lookup_nil in Hk|].
  exists first. split; [done|].
  by rewrite (run_rows_upto (first :: ks) (0, first) k t Hasc Hord' Hk).
Qed.

Lemma row_of_monotone tops t1 t2 :
  tops_ordered tops -> t1 ∈ tops -> t2 ∈ tops ->
  PrimFloat.ltb t2 t1 = false -> row_of tops t1 <= row_of tops t2.
Proof.
  intros Hord H1 H2 Hle.
  rewrite <- (sorted_by_perm PrimFloat.ltb) in H1, H2.
  apply list_elem_of_lookup in H1 as [k1 Hk1].
  apply list_elem_of_lookup in H2 as [k2 Hk2].
  destruct (row_of_lookup tops k1 t1 Hord Hk1) as (f1 & Hf1 & ->).
  destruct (row_of_lookup tops k2 t2 Hord Hk2) as (f2 & Hf2 & ->).
  rewrite Hf1 in Hf2. injection Hf2 as <-.
  destruct (decide (k1 <= k2)) as [Hk|Hk].
  - rewrite <- (take_drop (S k1) (take (S k2) _)).
    rewrite take_take, Nat.min_l by lia.
    unfold run_rows at 2. rewrite foldl_app.
    apply (run_rows_grows _ (run_rows (0, f1) (take (S k1) _))).
  - assert (t1 = t2) as ->.
    { destruct Hord as [(Hirr & Htr & Hanti) _].
      pose proof (sorted_by_ascending PrimFloat.ltb tops
                    (conj Hirr (conj Htr Hanti))) as Hasc.
      apply Hanti.
      - rewrite <- (sorted_by_perm PrimFloat.ltb).
        by eapply list_elem_of_lookup_2.
      - rewrite <- (sorted_by_perm PrimFloat.ltb).
        by eapply list_elem_of_lookup_2.
      - unfold ascending in Hasc.
        apply (StronglySorted_lookup_lt _ _ k2 k1 t2 t1 Hasc Hk2 Hk1). lia.
      - done. }
    assert (row_of tops t2 = row_of tops t2) by done.
    destruct (row_of_lookup tops k1 t2 Hord Hk1) as (g1 & Hg1 & E1).
    destruct (row_of_lookup tops k2 t2 Hord Hk2) as (g2 & Hg2 & E2).
    rewrite Hf1 in Hg1, Hg2. injection Hg1 as <-. injection Hg2 as <-.
    rewrite <- E1, <- E2. done.
Qed.

Lemma row_of_topmost tops t :
  tops_ordered tops -> t ∈ tops ->
  (forall u, u ∈ tops -> PrimFloat.ltb u t = false) ->
  row_of tops t = 0.
Proof.
  intros Hord Ht Hmin. pose proof Hord as [(Hirr & Htr & Hanti) Hself].
  unfold row_of. cbv zeta.
  pose proof (sorted_by_ascending PrimFloat.ltb tops (proj1 Hord)) as Hasc.
  pose proof (sorted_by_perm PrimFloat.ltb tops) as Hperm.
  destruct (sorted_by PrimFloat.ltb tops) as [|first ks] eqn:Es.
  { rewrite <- Hperm in Ht. by apply elem_of_nil in Ht. }
  assert (first ∈ tops) as Hfirst by (rewrite <- Hperm; left).
  assert (first = t) as ->.
  { apply Hanti; [done..|by apply Hmin|].
    rewrite <- Hperm in Ht. apply elem_of_cons in Ht as [->|Ht];
      [by apply Hirr|].
    apply StronglySorted_inv in Hasc as [_ Hall].
    by apply (proj1 (Forall_forall _ _) Hall). }
  assert (advance 0 t t = (0, t)) as Hadv.
  { unfold advance. by rewrite (Hself t Ht). }
  rewrite <- Hadv. rewrite run_rows_same; [by rewrite Hadv|by apply Hself|].
  apply Forall_forall. intros u Hu.
  apply list_elem_of_filter in Hu as [Htu Hu].
  apply Hanti; [done|by rewrite <- Hperm|done|].
  apply Hmin. by rewrite <- Hperm.
Qed.

(** X10: when the tops are ordered numbers, the row groups follow the
    tops: a placeholder that is not below another one is in the same or in
    an earlier row (so equal tops share a row), and a placeholder with the
    smallest top is in row 0. *)
Theorem row_groups_follow_tops phs :
  tops_ordered (map top phs) ->
  (forall p q, p ∈ _assign_row_groups phs -> q ∈ _assign_row_groups phs ->
     PrimFloat.ltb (top q) (top p) = false -> row_group p <= row_group q) /\
  (forall p, p ∈ _assign_row_groups phs ->
     (forall q, q ∈ _assign_row_groups phs ->
        PrimFloat.ltb (top q) (top p) = false) ->
     row_group p = 0).
Proof.
  intros Hord. rewrite (assign_row_groups_row_of phs Hord).
  assert (forall p,
            p ∈ map (fun p => set_row_group (row_of (map top phs) (top p)) p)
                    phs ->
            top p ∈ map top phs /\
            row_group p = row_of (map top phs) (top p)) as Hel.
  { intros p Hp. apply list_elem_of_fmap in Hp as (p0 & -> & Hp0).
    split; [|done]. cbn. apply list_elem_of_fmap. eauto. }
  split.
  - intros p q Hp Hq Hle.
    destruct (Hel p Hp) as [Htp ->]. destruct (Hel q Hq) as [Htq ->].
    by apply row_of_monotone.
  - intros p Hp Hmin. destruct (Hel p Hp) as [Htp ->].
    apply row_of_topmost; [done..|].
    intros u Hu. apply list_elem_of_fmap in Hu as (q0 & -> & Hq0).
    apply (Hmin (set_row_group (row_of (map top phs) (top q0)) q0)).
    apply list_elem_of_fmap. eauto.
Qed.

(** X10, for three placeholders in two rows. *)
Lemma row_groups_follow_tops_witness :
  tops_ordered (map top three_boxes) /\
  ((forall p q, p ∈ _assign_row_groups three_boxes ->
      q ∈ _assign_row_groups three_boxes ->
      PrimFloat.ltb (top q) (top p) = false -> row_group p <= row_group q) /\
   (forall p, p ∈ _assign_row_groups three_boxes ->
      (forall q, q ∈ _assign_row_groups three_boxes ->
         PrimFloat.ltb (top q) (top p) = false) ->
      row_group p = 0)).
Proof.
  assert (tops_ordered (map top three_boxes)) as Hord.
  { unfold tops_ordered, strict_total_on, three_boxes.
    cbn [map top sample_ph]. split_and!; by_cases. }
  split; [exact Hord|exact (row_groups_follow_tops three_boxes Hord)].
Defined.

(** ** Pairs and residuals of the reconciler *)

(** X11: every mapped pair joins the last placeholder of the slide that
    has the shape name with the last catalog component that has the
    component name, or, when the catalog has no component of that name,
    with a component of category "unknown" and empty layer. *)
Theorem mapped_pairs_origin slide analysis detected raw :
  Forall (fun pc : Placeholder * SystemComponent =>
     last (filter (fun ph => shape_name ph = shape_name pc.1)
                  (placeholders slide)) = Some pc.1 /\
     (last (filter (fun c => name c = name pc.2) (components analysis))
        = Some pc.2 \/
      ((name pc.2 ∉ map name (components analysis)) /\
       category pc.2 = "unknown" /\ layer pc.2 = "")))
    (mappings (create_mapping slide analysis detected raw)).
Proof.
  rewrite create_mapping_mappings. apply Forall_forall. intros [ph c] Hpc.
  apply list_elem_of_omap in Hpc as (m & _ & Ha).
  apply accepted_Some in Ha as (s & _ & Hl & ->). cbn [fst snd].
  split.
  - apply (by_name_Some shape_name) in Hl as Hl'. destruct Hl' as [_ ->].
    unfold ph_by_name in Hl. by rewrite (by_name_lookup shape_name) in Hl.
  - unfold resolve.
    destruct (comp_by_name (components analysis) !! e_component_name m)
      as [c|] eqn:Ec.
    + left. apply (by_name_Some name) in Ec as Ec'. destruct Ec' as [_ ->].
      unfold comp_by_name in Ec. by rewrite (by_name_lookup name) in Ec.
    + right. apply (by_name_None name) in Ec. by split_and!.
Qed.

Lemma run_loop_unknown phs cbn raw :
  Forall (unknown_identifier phs) raw ->
  run_loop (ph_by_name phs) cbn raw = loop_init.
Proof.
  unfold run_loop. generalize loop_init.
  induction raw as [|m raw IH]; intros st Hall; [done|].
  apply Forall_cons in Hall as [Hm Hall]. cbn [foldl].
  rewrite loop_body_unknown by done. by apply IH.
Qed.

(** X12: when no raw entry names a placeholder of the slide (the empty
    response included), nothing is mapped: all placeholders of the slide
    are unmapped and all components of the catalog are unused. *)
Theorem nothing_named_nothing_mapped slide analysis detected raw :
  Forall (unknown_identifier (placeholders slide)) raw ->
  create_mapping slide analysis detected raw =
  mkMappingResult (index slide) (title slide) []
    (placeholders slide) (components analysis) detected.
Proof.
  intros Hall. unfold create_mapping. rewrite run_loop_unknown by done.
  clear Hall.
  cbn [ls_mappings mapped_shapes mapped_components loop_init]. f_equal.
  - induction (placeholders slide) as [|p l IH]; [done|].
    rewrite filter_cons. rewrite decide_True by apply not_elem_of_empty.
    by rewrite IH.
  - induction (components analysis) as [|c l IH]; [done|].
    rewrite filter_cons. rewrite decide_True by apply not_elem_of_empty.
    by rewrite IH.
Qed.

(** X12, for a response that names a shape of another slide. *)
Lemma nothing_named_nothing_mapped_witness :
  create_mapping sample_slide sample_analysis []
    [mkEntry (Some "ph9") "API Gateway" None; mkEntry None "Core" None] =
  mkMappingResult 0 "Target State" [] [ph1; ph2] [api_gateway] [].
Proof.
  apply (nothing_named_nothing_mapped sample_slide sample_analysis []).
  repeat constructor.
  unfold unknown_identifier. cbn [e_shape_name].
  apply (bool_decide_unpack _). vm_compute. reflexivity.
Defined.

(** ** Fenced and embedded JSON *)

Lemma prefix_app s r : String.prefix s (s ++ r)%string = true.
Proof.
  induction s as [|c s IH]; simpl; [by destruct r|].
  destruct (ascii_dec c c); [exact IH|done].
Qed.

Lemma drop_chars_app s r : drop_chars (String.length s) (s ++ r)%string = r.
Proof. induction s as [|c s IH]; simpl; [by destruct r|exact IH]. Qed.

Lemma prefix_first_char c sep x s :
  Ascii.eqb x c = false -> String.prefix (String c sep) (String x s) = false.
Proof.
  intros Hx. simpl. destruct (ascii_dec c x) as [->|]; [|done].
  by rewrite Ascii.eqb_refl in Hx.
Qed.

Section Fences.
Context (c : ascii) (sep : string).

Lemma prefix_self rest :
  String.prefix (String c sep) (String c (sep ++ rest)%string) = true.
Proof. exact (prefix_app (String c sep) rest). Qed.

Lemma contains_after pre rest :
  contains (String c sep) (pre ++ String c sep ++ rest)%string = true.
Proof.
  induction pre as [|x pre IH].
  - change (contains (String c sep) (String c (sep ++ rest)%string) = true).
    cbn [contains]. by rewrite prefix_self.
  - change (contains (String c sep)
              (String x (pre ++ String c sep ++ rest)%string) = true).
    cbn [contains]. rewrite IH. apply orb_true_r.
Qed.

Lemma after_first_lacks pre rest :
  lacks c pre = true ->
  after_first (String c sep) (pre ++ String c sep ++ rest)%string = Some rest.
Proof.
  induction pre as [|x pre IH]; intros Hl.
  - change (after_first (String c sep) (String c (sep ++ rest)%string)
            = Some rest).
    cbn [after_first]. rewrite prefix_self.
    f_equal. exact (drop_chars_app (String c sep) rest).
  - cbn [lacks] in Hl. apply andb_true_iff in Hl as [Hx Hl].
    apply negb_true_iff in Hx.
    change (after_first (String c sep)
              (String x (pre ++ String c sep ++ rest)%string) = Some rest).
    cbn [after_first]. rewrite prefix_first_char by done. by apply IH.
Qed.

Lemma before_first_lacks body rest :
  lacks c body = true ->
  before_first (String c sep) (body ++ String c sep ++ rest)%string = body.
Proof.
  induction body as [|x body IH]; intros Hl.
  - change (before_first (String c sep) (String c (sep ++ rest)%string) = "").
    cbn [before_first]. by rewrite prefix_self.
  - cbn [lacks] in Hl. apply andb_true_iff in Hl as [Hx Hl].
    apply negb_true_iff in Hx.
    change (before_first (String c sep)
              (String x (body ++ String c sep ++ rest)%string)
            = String x body).
    cbn [before_first]. rewrite prefix_first_char by done. by rewrite IH.
Qed.

Lemma before_first_none s :
  lacks c s = true -> before_first (String c sep) s = s.
Proof.
  induction s as [|x s IH]; intros Hl; [done|].
  cbn [lacks] in Hl. apply andb_true_iff in Hl as [Hx Hl].
  apply negb_true_iff in Hx. cbn [before_first].
  rewrite prefix_first_char by done. by rewrite IH.
Qed.
End Fences.

Lemma lacks_contains c sep s :
  lacks c s = true -> contains (String c sep) s = false.
Proof.
  induction s as [|x s IH]; intros Hl; [done|].
  cbn [lacks] in Hl. apply andb_true_iff in Hl as [Hx Hl].
  apply negb_true_iff in Hx. cbn [contains].
  rewrite prefix_first_char by done. by rewrite IH.
Qed.

Lemma unfenced_lacks s : lacks backtick s = true -> unfenced s = s.
Proof. intros Hl. apply unfenced_plain. by apply lacks_contains. Qed.

Lemma prefix_cons a s b t :
  String.prefix (String a s) (String b t) = Ascii.eqb a b && String.prefix s t.
Proof.
  change (String.prefix (String a s) (String b t))
    with (if ascii_dec a b then String.prefix s t else false).
  destruct (ascii_dec a b) as [->|Hne].
  - by rewrite Ascii.eqb_refl.
  - apply Ascii.eqb_neq in Hne. by rewrite Hne.
Qed.

Lemma prefix_nil t : String.prefix "" t = true.
Proof. by destruct t. Qed.

Lemma before_first_cons c sep x s :
  before_first (String c sep) (String x s) =
  if Ascii.eqb c x && String.prefix sep s then ""
  else String x (before_first (String c sep) s).
Proof. cbn [before_first]. by rewrite prefix_cons. Qed.

(** The inside of a fenced block with the language tag: the split at the
    tag and the split at the fence leave the body. *)
Lemma fence_after_tag body post :
  lacks backtick body = true ->
  String.prefix "`" post = false ->
  before_first fence (before_first json_fence (body ++ fence ++ post)%string)
  = body.
Proof.
  intros Hl Hp. induction body as [|x body IH].
  - change (before_first fence
              (before_first json_fence (String "`" (String "`" (String "`" post))))
            = "").
    destruct post as [|p post]; [vm_compute; reflexivity|].
    rewrite prefix_cons, prefix_nil, andb_true_r in Hp.
    unfold json_fence, fence.
    rewrite 3!(before_first_cons _ _ "`"), !prefix_cons, ?prefix_nil, Hp.
    rewrite ?Ascii.eqb_refl. cbn [andb].
    destruct (Ascii.eqb "j" p && String.prefix "son" post); [done|].
    by rewrite before_first_cons, !prefix_cons, prefix_nil.
  - cbn [lacks] in Hl. apply andb_true_iff in Hl as [Hx Hl].
    apply negb_true_iff in Hx.
    change (before_first fence
              (before_first json_fence (String x (body ++ fence ++ post)%string))
            = String x body).
    cbn [before_first]. unfold json_fence at 1.
    rewrite prefix_first_char by done. cbn [before_first].
    unfold fence at 1. rewrite prefix_first_char by done.
    f_equal. by apply IH.
Qed.

(** X13: a response that wraps its JSON in a fenced block tagged json is
    read as the text between the tag and the closing fence, whatever
    stands before and after the block: the decoder and the brace search
    see that text only. *)
Theorem fenced_json_is_its_body loads pre body post :
  lacks backtick pre = true ->
  lacks backtick body = true ->
  String.prefix "`" post = false ->
  unfenced (pre ++ json_fence ++ body ++ fence ++ post)%string = body /\
  response_mappings loads (pre ++ json_fence ++ body ++ fence ++ post)%string
  = response_mappings loads body.
Proof.
  intros Hpre Hbody Hpost.
  assert (unfenced (pre ++ json_fence ++ body ++ fence ++ post)%string = body)
    as Hu.
  { unfold unfenced, json_fence at 1.
    rewrite (contains_after "`" "``json" pre). unfold split_1, json_fence at 1.
    rewrite (after_first_lacks "`" "``json" pre) by done.
    by apply fence_after_tag. }
  split; [done|].
  unfold response_mappings, parse_response. rewrite Hu.
  by rewrite (unfenced_lacks body).
Qed.

(** X13, for a reply with words around the block. *)
Lemma fenced_json_is_its_body_witness :
  unfenced ("Here is the mapping:" ++ newline ++ json_fence ++
            (newline ++ "{" ++ quoted "mappings" ++ ": []}" ++ newline) ++
            fence ++ newline ++ "Done.")%string
  = (newline ++ "{" ++ quoted "mappings" ++ ": []}" ++ newline)%string /\
  response_mappings json_loads
    ("Here is the mapping:" ++ newline ++ json_fence ++
     (newline ++ "{" ++ quoted "mappings" ++ ": []}" ++ newline) ++
     fence ++ newline ++ "Done.")%string
  = response_mappings json_loads
      (newline ++ "{" ++ quoted "mappings" ++ ": []}" ++ newline)%string.
Proof.
  apply (fenced_json_is_its_body json_loads
           ("Here is the mapping:" ++ newline)%string
           (newline ++ "{" ++ quoted "mappings" ++ ": []}" ++ newline)%string
           (newline ++ "Done.")%string);
    vm_compute; reflexivity.
Defined.

Lemma from_first_open_lacks pre rest :
  lacks "{" pre = true ->
  from_first_open (pre ++ String "{" rest)%string = Some (String "{" rest).
Proof.
  induction pre as [|x pre IH]; intros Hl; [done|].
  cbn [lacks] in Hl. apply andb_true_iff in Hl as [Hx Hl].
  apply negb_true_iff in Hx.
  change (from_first_open (String x (pre ++ String "{" rest)%string)
          = Some (String "{" rest)).
  cbn [from_first_open]. rewrite Hx. by apply IH.
Qed.

Lemma upto_last_close_lacks post :
  lacks "}" post = true -> upto_last_close post = None.
Proof.
  induction post as [|x post IH]; intros Hl; [done|].
  cbn [lacks] in Hl. apply andb_true_iff in Hl as [Hx Hl].
  apply negb_true_iff in Hx. cbn [upto_last_close].
  by rewrite IH, Hx.
Qed.

Lemma upto_last_close_app s post :
  lacks "}" post = true ->
  upto_last_close (s ++ String "}" post)%string = Some (s ++ "}")%string.
Proof.
  intros Hl. induction s as [|x s IH].
  - change (upto_last_close (String "}" post) = Some "}").
    cbn [upto_last_close]. by rewrite upto_last_close_lacks.
  - change (upto_last_close (String x (s ++ String "}" post)%string)
            = Some (String x (s ++ "}")%string)).
    cbn [upto_last_close]. by rewrite IH.
Qed.

Lemma brace_span_outermost pre mid post :
  lacks "{" pre = true -> lacks "}" post = true ->
  brace_span (pre ++ "{" ++ mid ++ "}" ++ post)%string
  = Some ("{" ++ mid ++ "}")%string.
Proof.
  intros Hpre Hpost. unfold brace_span.
  change (pre ++ "{" ++ mid ++ "}" ++ post)%string
    with (pre ++ String "{" (mid ++ String "}" post))%string.
  rewrite from_first_open_lacks by done. cbn [mbind option_bind].
  exact (upto_last_close_app (String "{" mid) post Hpost).
Qed.

(** X15: when the response has no fence and does not decode as a whole,
    the text from its first opening brace to its last closing brace is
    decoded instead, and that is final: its value is the data, and when it
    does not decode either, the decoder's error for that span propagates
    (no ValueError is raised). *)
Theorem embedded_object_parsed loads pre mid post :
  contains fence (pre ++ "{" ++ mid ++ "}" ++ post)%string = false ->
  loads (strip (pre ++ "{" ++ mid ++ "}" ++ post)%string) = None ->
  lacks "{" pre = true ->
  lacks "}" post = true ->
  parse_response loads (pre ++ "{" ++ mid ++ "}" ++ post)%string =
  match loads ("{" ++ mid ++ "}")%string with
  | Some data => Return data
  | None => Raise (JSONDecodeError ("{" ++ mid ++ "}")%string)
  end.
Proof.
  intros Hf Hl Hpre Hpost. unfold parse_response.
  rewrite (unfenced_plain _ Hf), Hl.
  by rewrite brace_span_outermost.
Qed.

(** X15, for an object between words and for a span that is no JSON. *)
Lemma embedded_object_parsed_witness :
  parse_response json_loads
    ("Sure: " ++ "{" ++ (quoted "mappings" ++ ": []") ++ "}" ++ " done")%string
  = Return (JObject [("mappings", JArray [])]) /\
  parse_response json_loads ("a " ++ "{" ++ "b} {c" ++ "}" ++ " d")%string
  = Raise (JSONDecodeError "{b} {c}").
Proof.
  split.
  - apply (embedded_object_parsed json_loads "Sure: "
             (quoted "mappings" ++ ": []")%string " done");
      vm_compute; reflexivity.
  - apply (embedded_object_parsed json_loads "a " "b} {c" " d");
      vm_compute; reflexivity.
Defined.

(** ** The populate methods of the agent *)

Lemma find_architecture_slides_prs doc :
  prs (find_architecture_slides doc).2 = prs doc.
Proof. unfold find_architecture_slides. by destruct (_architecture_slides doc). Qed.

Lemma at_most_slide_lookup idx doc doc' :
  at_most_slide idx doc doc' ->
  length (prs doc') = length (prs doc) /\
  forall i, Z.of_nat i <> idx -> prs doc' !! i = prs doc !! i.
Proof.
  intros [->|[Hi (shapes & ->)]]; [done|]. split.
  - by rewrite length_insert.
  - intros i Hne. apply list_lookup_insert_ne. lia.
Qed.

Section Populate.

Context (reply : nat -> ArchitectureSlide -> ArchitectureAnalysis
                 -> outcome (list RawEntry)).

Lemma agent_create_mapping_state self slide analysis :
  (Agent.create_mapping reply self slide analysis).2 =
  Agent.mkAgent (Agent.document self) (Agent._last_integration_analysis self)
                (S (Agent.requests self)).
Proof.
  unfold Agent.create_mapping.
  by destruct (reply (Agent.requests self) slide analysis).
Qed.

Lemma agent_create_mapping_result self slide analysis mapping :
  (Agent.create_mapping reply self slide analysis).1 = Return mapping ->
  exists raw,
    reply (Agent.requests self) slide analysis = Return raw /\
    mapping = create_mapping slide analysis (Agent.detected_patterns self) raw.
Proof.
  unfold Agent.create_mapping.
  destruct (reply (Agent.requests self) slide analysis) as [raw|e];
    cbn [fst]; [|done].
  intros [= <-]. by exists raw.
Qed.

Lemma apply_step_state self doc mapping :
  Agent.document self = Some doc ->
  exists doc',
    (Agent.apply_step self mapping).2 =
      Agent.mkAgent (Some doc') (Agent._last_integration_analysis self)
                    (Agent.requests self) /\
    at_most_slide (mr_slide_index mapping) doc doc'.
Proof.
  intros Hdoc. unfold Agent.apply_step, Applier.apply_mapping. rewrite Hdoc.
  unfold update_placeholders_batch.
  pose proof (batch_loop_reach (mr_slide_index mapping)
                (Applier.updates_of mapping) doc 0 (updates_of_slide mapping))
    as Hreach.
  destruct (batch_loop doc 0 (Applier.updates_of mapping)) as [[n|e] doc'];
    exists doc'; by split.
Qed.

Lemma populate_loop_dry analysis flt slides : forall self results,
  presentation
    (Agent.populate_loop reply analysis flt true slides self results).2
  = presentation self.
Proof.
  induction slides as [|slide slides IH]; intros self results; [done|].
  cbn [Agent.populate_loop].
  destruct (Agent.filtered_out flt (Agent._determine_slide_type slide));
    [apply IH|].
  pose proof (agent_create_mapping_state self slide analysis) as Hst.
  destruct (Agent.create_mapping reply self slide analysis) as [[m|e] self1];
    cbn [snd] in *; subst self1; [|done].
  by rewrite IH.
Qed.

Lemma populate_loop_reach analysis flt dry_run slides :
  forall self results doc,
  Agent.document self = Some doc ->
  exists doc',
    Agent.document
      (Agent.populate_loop reply analysis flt dry_run slides self results).2
    = Some doc' /\
    length (prs doc') = length (prs doc) /\
    forall i, Z.of_nat i ∉ map index (selected flt slides) ->
              prs doc' !! i = prs doc !! i.
Proof.
  induction slides as [|slide slides IH]; intros self results doc Hdoc.
  { by exists doc. }
  cbn [Agent.populate_loop]. unfold selected. rewrite filter_cons.
  fold (selected flt slides).
  destruct (Agent.filtered_out flt (Agent._determine_slide_type slide)) eqn:Ef.
  { rewrite decide_False by done. by apply IH. }
  rewrite decide_True by done. cbn [map].
  pose proof (agent_create_mapping_state self slide analysis) as Hst.
  pose proof (agent_create_mapping_result self slide analysis) as Hres.
  destruct (Agent.create_mapping reply self slide analysis) as [[m|e] self1];
    cbn [fst snd] in *; subst self1.
  2:{ exists doc. by rewrite Hdoc. }
  destruct (Hres m eq_refl) as (raw & _ & Hm).
  assert (mr_slide_index m = index slide) as Hidx by by subst m.
  set (self1 := Agent.mkAgent _ _ _).
  assert (forall self2 doc2, Agent.document self2 = Some doc2 ->
            length (prs doc2) = length (prs doc) ->
            (forall i, Z.of_nat i <> index slide ->
                       prs doc2 !! i = prs doc !! i) ->
            exists doc',
              Agent.document
                (Agent.populate_loop reply analysis flt dry_run slides self2
                   (results ++ [m])).2 = Some doc' /\
              length (prs doc') = length (prs doc) /\
              forall i, Z.of_nat i ∉ index slide :: map index (selected flt slides) ->
                        prs doc' !! i = prs doc !! i) as Hnext.
  { intros self2 doc2 H2 Hlen Hsame.
    destruct (IH self2 (results ++ [m]) doc2 H2) as (doc' & Hd & Hl & Hi).
    exists doc'. split_and!; [done|congruence|].
    intros i Hni. apply not_elem_of_cons in Hni as [Hne Hni].
    rewrite Hi by done. by apply Hsame. }
  destruct dry_run.
  { by apply (Hnext self1 doc). }
  destruct (apply_step_state self1 doc m Hdoc) as (doc2 & Hst2 & Hreach).
  rewrite Hidx in Hreach.
  apply at_most_slide_lookup in Hreach as [Hlen Hsame].
  destruct (Agent.apply_step self1 m) as [[[]|e] self2]; cbn [snd] in Hst2;
    subst self2.
  - by apply (Hnext _ doc2).
  - exists doc2. split_and!; [done|done|].
    intros i Hni. apply not_elem_of_cons in Hni as [Hne _]. by apply Hsame.
Qed.

Lemma populate_loop_results analysis flt dry_run slides :
  forall self results rs self',
  Agent.populate_loop reply analysis flt dry_run slides self results
    = (Return rs, self') ->
  Agent.requests self' = Agent.requests self + length (selected flt slides) /\
  exists new,
    rs = results ++ new /\
    Forall2 (fun ks mr => exists raw,
               reply ks.1 ks.2 analysis = Return raw /\
               mr = create_mapping ks.2 analysis
                      (Agent.detected_patterns self) raw)
            (imap (fun k s => (Agent.requests self + k, s))
                  (selected flt slides))
            new.
Proof.
  induction slides as [|slide slides IH]; intros self results rs self' Hrun.
  { cbn in Hrun. injection Hrun as <- <-. split; [cbn; lia|].
    exists []. split; [by rewrite app_nil_r|constructor]. }
  cbn [Agent.populate_loop] in Hrun. unfold selected. rewrite filter_cons.
  fold (selected flt slides).
  destruct (Agent.filtered_out flt (Agent._determine_slide_type slide)) eqn:Ef.
  { rewrite decide_False by done. by apply IH. }
  rewrite decide_True by done.
  pose proof (agent_create_mapping_state self slide analysis) as Hst.
  pose proof (agent_create_mapping_result self slide analysis) as Hres.
  destruct (Agent.create_mapping reply self slide analysis) as [[m|e] self1];
    cbn [fst snd] in *; subst self1; [|done].
  destruct (Hres m eq_refl) as (raw & Hraw & Hm).
  set (self1 := Agent.mkAgent _ _ _) in Hrun.
  assert (exists self2,
            Agent.populate_loop reply analysis flt dry_run slides self2
              (results ++ [m]) = (Return rs, self') /\
            Agent.requests self2 = S (Agent.requests self) /\
            Agent.detected_patterns self2 = Agent.detected_patterns self)
    as (self2 & Hrun2 & Hreq & Hdet).
  { destruct dry_run; [by exists self1|].
    unfold Agent.apply_step in Hrun.
    destruct (Applier.apply_mapping (Agent.document self1) m) as [[n|e] d];
      [|done].
    by exists (Agent.set_document d self1). }
  destruct (IH _ _ _ _ Hrun2) as (Hn & new & -> & Hall).
  split; [cbn [length]; lia|].
  exists (m :: new). split; [by rewrite <- app_assoc|].
  rewrite imap_cons. constructor.
  - cbn [fst snd]. exists raw. by rewrite Nat.add_0_r.
  - rewrite Hdet, Hreq in Hall.
    erewrite imap_ext; [exact Hall|].
    intros k s _. cbn. f_equal. lia.
Qed.


(** X16: when the architecture list of the document has no slide of the
    requested index (the index is out of range, or the slide has no
    placeholder), [populate_slide] raises a [ValueError] that names the
    slide by its number counted from 1. No request is sent to the client
    and nothing is written: the agent is as before, with the slide list
    of the document computed and the presentation unchanged. *)
Theorem populate_slide_not_found self doc slide_index analysis dry_run :
  Agent.document self = Some doc ->
  Forall (fun s => index s <> slide_index) (find_architecture_slides doc).1 ->
  Agent.populate_slide reply self slide_index analysis dry_run =
    (Raise (ValueError ("Slide " ++ Agent.str (slide_index + 1)
                        ++ " not found or has no placeholders")%string),
     Agent.mkAgent (Some (find_architecture_slides doc).2)
                   (Agent._last_integration_analysis self)
                   (Agent.requests self)) /\
  prs (find_architecture_slides doc).2 = prs doc.
Proof.
  intros Hdoc Hall. split; [|apply find_architecture_slides_prs].
  unfold Agent.populate_slide. rewrite Hdoc.
  destruct (find_architecture_slides doc) as [slides doc1]. cbn [fst snd] in *.
  replace (List.find (fun s => (index s =? slide_index)%Z) slides)
    with (@None ArchitectureSlide); [done|].
  symmetry. induction Hall as [|s slides Hs _ IH]; [done|].
  cbn [List.find]. by rewrite (proj2 (Z.eqb_neq _ _) Hs).
Qed.

(** X17: with [dry_run], neither [populate_slide] nor
    [populate_all_slides] writes into the presentation, whatever the
    client answers and however the call ends. *)
Theorem dry_run_writes_nothing self slide_index analysis slide_type_filter :
  presentation
    (Agent.populate_slide reply self slide_index analysis true).2
  = presentation self /\
  presentation
    (Agent.populate_all_slides reply self analysis slide_type_filter true).2
  = presentation self.
Proof.
  unfold Agent.populate_slide, Agent.populate_all_slides, presentation.
  destruct (Agent.document self) as [doc|] eqn:Hdoc; [|cbn; by rewrite Hdoc].
  pose proof (find_architecture_slides_prs doc) as Hprs.
  destruct (find_architecture_slides doc) as [slides doc1]. cbn [snd] in Hprs.
  split.
  - destruct (List.find _ slides) as [target|]; [|cbn; by f_equal].
    pose proof (agent_create_mapping_state
                  (Agent.set_document (Some doc1) self) target analysis) as Hst.
    destruct (Agent.create_mapping reply _ target analysis) as [[m|e] self1];
      cbn [snd] in *; subst self1; cbn; by f_equal.
  - fold (presentation
            (Agent.populate_loop reply analysis slide_type_filter true slides
               (Agent.set_document (Some doc1) self) []).2).
    rewrite populate_loop_dry. cbn. by f_equal.
Qed.

(** X18: [populate_slide] writes into the slide of the requested index
    only, however the call ends; and when it returns a result, the result
    is for that slide and exactly one request has been sent. *)
Theorem populate_slide_reach self doc slide_index analysis dry_run :
  Agent.document self = Some doc ->
  (exists doc',
     Agent.document
       (Agent.populate_slide reply self slide_index analysis dry_run).2
     = Some doc' /\
     at_most_slide slide_index doc doc') /\
  (forall mapping,
     (Agent.populate_slide reply self slide_index analysis dry_run).1
     = Return mapping ->
     mr_slide_index mapping = slide_index /\
     Agent.requests
       (Agent.populate_slide reply self slide_index analysis dry_run).2
     = S (Agent.requests self)).
Proof.
  intros Hdoc. unfold Agent.populate_slide. rewrite Hdoc.
  pose proof (find_architecture_slides_prs doc) as Hprs.
  destruct (find_architecture_slides doc) as [slides doc1]. cbn [snd] in Hprs.
  assert (at_most_slide slide_index doc doc1) as H01 by by left.
  destruct (List.find _ slides) as [target|] eqn:Hfind.
  2:{ split; [by exists doc1|done]. }
  apply List.find_some in Hfind as [_ Hidx]. apply Z.eqb_eq in Hidx.
  set (self0 := Agent.set_document (Some doc1) self).
  pose proof (agent_create_mapping_state self0 target analysis) as Hst.
  pose proof (agent_create_mapping_result self0 target analysis) as Hres.
  destruct (Agent.create_mapping reply self0 target analysis)
    as [[m|e] self1]; cbn [fst snd] in *; subst self1.
  2:{ split; [by exists doc1|done]. }
  destruct (Hres m eq_refl) as (raw & _ & Hm).
  assert (mr_slide_index m = slide_index) as Hmi by by subst m.
  destruct dry_run.
  { split; [by exists doc1|]. intros ? [= <-]. by split. }
  set (self1 := Agent.mkAgent _ _ _).
  destruct (apply_step_state self1 doc1 m eq_refl) as (doc2 & Hst2 & Hreach).
  rewrite Hmi in Hreach.
  destruct (Agent.apply_step self1 m) as [[[]|e] self2]; cbn [snd] in Hst2;
    subst self2; cbn [fst snd Agent.document Agent.requests].
  - split; [|by intros ? [= <-]].
    exists doc2. eauto using at_most_slide_trans.
  - split; [|done]. exists doc2. eauto using at_most_slide_trans.
Qed.

(** X19: [populate_all_slides] keeps the number of slides and writes only
    into slides of the architecture list whose type passes the filter:
    every other slide is afterwards what it was, however the call ends. *)
Theorem populate_all_slides_reach self doc analysis slide_type_filter dry_run :
  Agent.document self = Some doc ->
  exists doc',
    Agent.document
      (Agent.populate_all_slides reply self analysis slide_type_filter
         dry_run).2 = Some doc' /\
    length (prs doc') = length (prs doc) /\
    forall i,
      Z.of_nat i ∉ map index (selected slide_type_filter
                                (find_architecture_slides doc).1) ->
      prs doc' !! i = prs doc !! i.
Proof.
  intros Hdoc. unfold Agent.populate_all_slides. rewrite Hdoc.
  pose proof (find_architecture_slides_prs doc) as Hprs.
  destruct (find_architecture_slides doc) as [slides doc1].
  cbn [fst snd] in *. rewrite <- Hprs.
  by apply populate_loop_reach.
Qed.

(** X20: when [populate_all_slides] returns, it has sent one request for
    each slide of the architecture list whose type passes the filter, and
    its results are the mappings of these slides, in the order of the
    list: each one is built from its slide and the answer to its request. *)
Theorem populate_all_slides_results self doc analysis slide_type_filter
    dry_run results :
  Agent.document self = Some doc ->
  (Agent.populate_all_slides reply self analysis slide_type_filter dry_run).1
  = Return results ->
  Agent.requests
    (Agent.populate_all_slides reply self analysis slide_type_filter
       dry_run).2
  = Agent.requests self
    + length (selected slide_type_filter (find_architecture_slides doc).1) /\
  Forall2 (fun ks mr => exists raw,
             reply ks.1 ks.2 analysis = Return raw /\
             mr = create_mapping ks.2 analysis
                    (Agent.detected_patterns self) raw)
          (imap (fun k s => (Agent.requests self + k, s))
                (selected slide_type_filter (find_architecture_slides doc).1))
          results.
Proof.
  intros Hdoc. unfold Agent.populate_all_slides. rewrite Hdoc.
  destruct (find_architecture_slides doc) as [slides doc1]. cbn [fst].
  destruct (Agent.populate_loop reply analysis slide_type_filter dry_run
              slides (Agent.set_document (Some doc1) self) [])
    as [r self'] eqn:Hrun.
  cbn [fst snd]. intros ->.
  apply populate_loop_results in Hrun as (Hn & new & -> & Hall).
  by split.
Qed.

End Populate.

(** X16, for a deck of one slide. *)
Lemma populate_slide_not_found_witness :
  Agent.populate_slide sample_reply sample_agent 5 sample_analysis false =
    (Raise (ValueError "Slide 6 not found or has no placeholders"),
     Agent.mkAgent (Some (find_architecture_slides sample_doc).2) None 0) /\
  prs (find_architecture_slides sample_doc).2 = prs sample_doc.
Proof.
  apply (populate_slide_not_found sample_reply sample_agent sample_doc 5
           sample_analysis false eq_refl).
  vm_compute. repeat constructor; discriminate.
Defined.

(** X18, for the sample deck. *)
Lemma populate_slide_reach_witness :
  exists doc',
    Agent.document
      (Agent.populate_slide sample_reply sample_agent 0 sample_analysis
         false).2 = Some doc' /\
    at_most_slide 0 sample_doc doc'.
Proof.
  exact (proj1 (populate_slide_reach sample_reply sample_agent sample_doc 0
                  sample_analysis false eq_refl)).
Defined.

(** X20, for the sample deck: one slide, one request, one result. *)
Lemma populate_all_slides_results_witness :
  Agent.requests
    (Agent.populate_all_slides sample_reply sample_agent sample_analysis
       None false).2
  = 0 + length (selected None (find_architecture_slides sample_doc).1).
Proof.
  exact (proj1 (populate_all_slides_results sample_reply sample_agent
                  sample_doc sample_analysis None false _ eq_refl eq_refl)).
Defined.

(** ** Row groups without gaps *)

Lemma spec_row_walk_length ks : forall rg cur,
  length (spec_row_walk rg cur ks) = length ks.
Proof.
  induction ks as [|t ks IH]; intros rg cur; [done|].
  cbn [spec_row_walk]. destruct (PrimFloat.ltb _ _); cbn [length]; by rewrite IH.
Qed.

Lemma spec_row_walk_steps ks : forall rg cur k v,
  spec_row_walk rg cur ks !! k = Some v ->
  rg <= v /\
  forall r, rg < r <= v ->
    exists k', k' <= k /\ spec_row_walk rg cur ks !! k' = Some r.
Proof.
  induction ks as [|t ks IH]; intros rg cur k v Hk; [done|].
  cbn [spec_row_walk] in *.
  destruct (PrimFloat.ltb _ _).
  - destruct k as [|k]; cbn [lookup list_lookup] in Hk.
    + injection Hk as <-. split; [lia|]. intros r Hr.
      exists 0. split; [lia|]. cbn. f_equal. lia.
    + destruct (IH _ _ _ _ Hk) as [Hle Hbelow]. split; [lia|].
      intros r Hr. destruct (decide (r = S rg)) as [->|Hne].
      * exists 0. split; [lia|done].
      * destruct (Hbelow r ltac:(lia)) as (k' & Hk' & Hw).
        exists (S k'). split; [lia|done].
  - destruct k as [|k]; cbn [lookup list_lookup] in Hk.
    + injection Hk as <-. split; [lia|]. intros r Hr. lia.
    + destruct (IH _ _ _ _ Hk) as [Hle Hbelow]. split; [lia|].
      intros r Hr. destruct (Hbelow r Hr) as (k' & Hk' & Hw).
      exists (S k'). split; [lia|done].
Qed.

Lemma spec_row_groups_steps tops k v r :
  (forall first, head tops = Some first -> far first first = false) ->
  spec_row_groups tops !! k = Some v -> r <= v ->
  exists k', spec_row_groups tops !! k' = Some r.
Proof.
  intros Hself Hk Hr. destruct tops as [|first rest]; [done|].
  unfold spec_row_groups in *.
  destruct (decide (r = 0)) as [->|Hne].
  - exists 0. cbn [spec_row_walk].
    change (PrimFloat.ltb _ _) with (far first first).
    by rewrite (Hself first eq_refl).
  - destruct (spec_row_walk_steps _ _ _ _ _ Hk) as [_ Hbelow].
    destruct (Hbelow r ltac:(lia)) as (k' & _ & Hw). by exists k'.
Qed.

(** X21: the row groups of a slide are numbered from 0 without gaps:
    below the row group of any placeholder, every number is the row group
    of some placeholder. *)
Theorem row_groups_without_gaps phs :
  Forall (fun p => far (top p) (top p) = false) phs ->
  forall p r, p ∈ _assign_row_groups phs -> r <= row_group p ->
    exists q, q ∈ _assign_row_groups phs /\ row_group q = r.
Proof.
  intros Hself p r Hp Hr.
  apply list_elem_of_lookup in Hp as [i Hi].
  destruct (assign_row_groups_pointwise phs i p Hi) as (p0 & rg0 & Hp0 & ->).
  pose proof (sorted_by_perm top_lt (imap pair phs)) as Hperm.
  assert ((i, p0) ∈ sorted_by top_lt (imap pair phs)) as Hin.
  { rewrite Hperm. by apply imap_pair_elem. }
  apply list_elem_of_lookup in Hin as [k Hk].
  destruct (assign_row_groups_sorted phs k i p0 Hk) as (rg & Hw & Hres).
  rewrite Hres in Hi. injection Hi as <-.
  cbn [row_group set_row_group] in Hr.
  destruct (spec_row_groups_steps
              (map (fun ip : nat * Placeholder => top ip.2)
                   (sorted_by top_lt (imap pair phs))) k rg r)
    as (k' & Hw'); [|done|done|].
  { intros first Hfirst.
    assert (first ∈ map top phs) as Hin.
    { apply head_Some_elem_of in Hfirst.
      apply list_elem_of_fmap in Hfirst as ([j pj] & -> & Hj).
      rewrite Hperm in Hj. apply imap_pair_elem in Hj.
      apply list_elem_of_fmap. exists pj. split; [done|].
      by eapply list_elem_of_lookup_2. }
    apply list_elem_of_fmap in Hin as (q & -> & Hq).
    rewrite Forall_forall in Hself. by apply Hself. }
  assert (k' < length (sorted_by top_lt (imap pair phs))) as Hlt.
  { apply lookup_lt_Some in Hw'. unfold spec_row_groups in Hw'.
    destruct (map _ _) as [|first rest] eqn:Em in Hw'; [cbn in Hw'; lia|].
    rewrite spec_row_walk_length, <- Em, length_map in Hw'. exact Hw'. }
  destruct (lookup_lt_is_Some_2 _ _ Hlt) as [[i' p'] Hk'].
  destruct (assign_row_groups_sorted phs k' i' p' Hk') as (rg' & Hw2 & Hres').
  rewrite Hw' in Hw2. injection Hw2 as <-.
  exists (set_row_group r p'). split; [|done].
  by eapply list_elem_of_lookup_2.
Qed.

(** X21, on the scenario of the specification: rows 0, 1 and 2. *)
Lemma row_groups_without_gaps_witness :
  Forall (fun p => far (top p) (top p) = false) scenario_tops /\
  exists q, q ∈ _assign_row_groups scenario_tops /\ row_group q = 1.
Proof.
  assert (Forall (fun p => far (top p) (top p) = false) scenario_tops) as H.
  { repeat constructor. }
  split; [exact H|].
  apply (row_groups_without_gaps scenario_tops H
           (set_row_group 2 (sample_ph "e" 1%float 6.2%float)) 1).
  - vm_compute. repeat first [apply list_elem_of_here | apply list_elem_of_further].
  - vm_compute. lia.
Defined.

(** ** The rows of the slide summary *)

Lemma rows_append_new p rows :
  row_group p ∉ map fst rows ->
  Summary.rows_append p rows = rows ++ [(row_group p, [p])].
Proof.
  induction rows as [|[k l] rows IH]; intros Hk; [done|].
  cbn [map fst] in Hk. apply not_elem_of_cons in Hk as [Hne Hk].
  cbn [Summary.rows_append].
  rewrite (proj2 (Nat.eqb_neq k (row_group p))) by done.
  by rewrite IH.
Qed.

Lemma rows_append_keys p rows :
  map fst (Summary.rows_append p rows) =
  if decide (row_group p ∈ map fst rows) then map fst rows
  else map fst rows ++ [row_group p].
Proof.
  induction rows as [|[k l] rows IH].
  { cbn. rewrite decide_False; [done|apply not_elem_of_nil]. }
  cbn [Summary.rows_append map fst].
  destruct (Nat.eqb_spec k (row_group p)) as [->|Hne].
  - rewrite decide_True; [done|apply list_elem_of_here].
  - cbn [map fst]. rewrite IH.
    destruct (decide (row_group p ∈ map fst rows)) as [Hin|Hnin].
    + rewrite decide_True; [done|by apply list_elem_of_further].
    + rewrite decide_False; [done|].
      intros [?|?]%elem_of_cons; [congruence|done].
Qed.

Lemma rows_append_elem p rows g :
  NoDup (map fst rows) ->
  g ∈ Summary.rows_append p rows ->
  (g ∈ rows /\ g.1 <> row_group p) \/
  (g.1 = row_group p /\
   ((g.2 = [p] /\ row_group p ∉ map fst rows) \/
    exists l, (row_group p, l) ∈ rows /\ g.2 = l ++ [p])).
Proof.
  induction rows as [|[k l] rows IH]; intros Hnd Hg.
  { cbn in Hg. apply list_elem_of_singleton in Hg as ->.
    right. split; [done|]. left. split; [done|apply not_elem_of_nil]. }
  cbn [map fst] in Hnd. apply NoDup_cons in Hnd as [Hk Hnd].
  cbn [Summary.rows_append] in Hg.
  destruct (Nat.eqb_spec k (row_group p)) as [->|Hne].
  - apply elem_of_cons in Hg as [->|Hg].
    + right. split; [done|]. right. exists l. split; [apply list_elem_of_here|done].
    + left. split; [by apply list_elem_of_further|].
      intros He. apply Hk. rewrite <- He. apply list_elem_of_fmap. by exists g.
  - apply elem_of_cons in Hg as [->|Hg].
    + left. split; [apply list_elem_of_here|done].
    + destruct (IH Hnd Hg) as [[Hin Hne']|[He [[Hl Hnin]|(l' & Hin & Hl)]]].
      * left. split; [by apply list_elem_of_further|done].
      * right. split; [done|]. left. split; [done|]. cbn [map fst].
        intros [?|?]%elem_of_cons; [congruence|done].
      * right. split; [done|]. right. exists l'.
        split; [by apply list_elem_of_further|done].
Qed.

Lemma rows_append_sum p rows :
  sum_list (map (fun g : nat * list Placeholder => length g.2)
                (Summary.rows_append p rows))
  = S (sum_list (map (fun g : nat * list Placeholder => length g.2) rows)).
Proof.
  induction rows as [|[k l] rows IH]; [done|].
  cbn [Summary.rows_append]. destruct (k =? row_group p)%nat.
  - cbn [map sum_list snd]. rewrite length_app. cbn. lia.
  - cbn [map sum_list snd]. rewrite IH. lia.
Qed.

Lemma filter_none {A} (P : A -> Prop) `{!forall x, Decision (P x)} (l : list A) :
  (forall x, x ∈ l -> ~ P x) -> filter P l = [].
Proof.
  induction l as [|x l IH]; intros Hl; [done|].
  rewrite filter_cons, decide_False by (apply Hl, list_elem_of_here).
  apply IH. intros y Hy. by apply Hl, list_elem_of_further.
Qed.

Lemma rows_append_inv seen rows p :
  rows_inv seen rows -> rows_inv (seen ++ [p]) (Summary.rows_append p rows).
Proof.
  intros (Hnd & Hall & Hcov & Hsum). split_and!.
  - rewrite rows_append_keys. destruct (decide _) as [Hin|Hnin]; [done|].
    apply NoDup_app. split_and!; [done| |apply NoDup_singleton].
    intros k Hk ->%list_elem_of_singleton. done.
  - apply Forall_forall. intros g Hg. rewrite filter_app.
    rewrite Forall_forall in Hall.
    apply rows_append_elem in Hg
        as [[Hin Hne]|[He [[Hl Hnin]|(l & Hin & Hl)]]]; [| | |done].
    + destruct (Hall g Hin) as [Hne' Hf]. split; [done|].
      rewrite filter_cons, decide_False, filter_nil, app_nil_r by done.
      exact Hf.
    + split; [by rewrite Hl|]. rewrite Hl, He.
      rewrite filter_cons, decide_True, filter_nil by done.
      replace (filter (fun q => row_group q = row_group p) seen)
        with (@nil Placeholder); [done|].
      symmetry. apply filter_none. intros q Hq Hrg.
      apply Hnin. rewrite <- Hrg. by apply Hcov.
    + destruct (Hall _ Hin) as [_ Hf]. cbn [fst snd] in Hf.
      split; [rewrite Hl; by destruct l|].
      rewrite Hl, He, Hf.
      by rewrite filter_cons, decide_True, filter_nil by done.
  - intros q Hq. rewrite rows_append_keys.
    apply elem_of_app in Hq as [Hq|Hq].
    + destruct (decide _); [by apply Hcov|].
      apply elem_of_app. left. by apply Hcov.
    + apply list_elem_of_singleton in Hq as ->.
      destruct (decide _) as [Hin|Hnin]; [done|].
      apply elem_of_app. right. apply list_elem_of_here.
  - rewrite rows_append_sum, Hsum, length_app. cbn. lia.
Qed.

Lemma rows_of_inv phs : rows_inv phs (Summary.rows_of phs).
Proof.
  unfold Summary.rows_of.
  assert (forall rest seen rows, rows_inv seen rows ->
            rows_inv (seen ++ rest)
              (foldl (fun rows ph => Summary.rows_append ph rows) rows rest))
    as Hgen.
  { induction rest as [|p rest IH]; intros seen rows Hinv.
    - by rewrite app_nil_r.
    - cbn [foldl]. change (p :: rest) with ([p] ++ rest). rewrite app_assoc.
      apply IH. by apply rows_append_inv. }
  apply (Hgen phs [] []). split_and!; [constructor|constructor|
    intros p Hp; by apply not_elem_of_nil in Hp|done].
Qed.

Lemma ascending_keys (rows : list (nat * list Placeholder)) :
  NoDup (map fst rows) ->
  ascending Summary.row_lt rows ->
  StronglySorted lt (map fst rows).
Proof.
  unfold ascending. induction rows as [|g rows IH]; intros Hnd Hs;
    [constructor|].
  cbn [map] in *. apply NoDup_cons in Hnd as [Hg Hnd].
  apply StronglySorted_inv in Hs as [Hs Hall].
  constructor; [by apply IH|].
  apply Forall_forall. intros k Hk.
  apply list_elem_of_fmap in Hk as (h & -> & Hh).
  rewrite Forall_forall in Hall. specialize (Hall h Hh).
  unfold Summary.row_lt in Hall. apply Nat.ltb_ge in Hall.
  assert (h.1 <> g.1); [|lia].
  intros He. apply Hg. rewrite <- He. apply list_elem_of_fmap. by exists h.
Qed.

(** X22: the rows that [get_slide_summary] lists for a slide partition
    its placeholders: the row numbers are strictly ascending, each row
    has the placeholders of its row group, in slide order and at least
    one, every placeholder is in a listed row, and the box counts add up
    to the number of placeholders. *)
Theorem summary_rows_partition phs :
  StronglySorted lt
    (map fst (sorted_by Summary.row_lt (Summary.rows_of phs))) /\
  Forall (fun g => g.2 <> [] /\
                   g.2 = filter (fun p => row_group p = g.1) phs)
         (sorted_by Summary.row_lt (Summary.rows_of phs)) /\
  (forall p, p ∈ phs ->
     row_group p ∈ map fst (sorted_by Summary.row_lt (Summary.rows_of phs))) /\
  sum_list (map (fun g : nat * list Placeholder => length g.2)
                (sorted_by Summary.row_lt (Summary.rows_of phs)))
  = length phs.
Proof.
  destruct (rows_of_inv phs) as (Hnd & Hall & Hcov & Hsum).
  pose proof (sorted_by_perm Summary.row_lt (Summary.rows_of phs)) as Hperm.
  split_and!.
  - apply ascending_keys.
    + change (NoDup (fst <$> sorted_by Summary.row_lt (Summary.rows_of phs))).
      by rewrite Hperm.
    + apply sorted_by_ascending. split_and!.
      * intros x _. apply Nat.ltb_irrefl.
      * intros x y z _ _ _. unfold Summary.row_lt.
        rewrite !Nat.ltb_lt. lia.
      * intros [k l] [k' l'] Hx Hy. unfold Summary.row_lt. cbn [fst].
        rewrite !Nat.ltb_ge. intros H1 H2.
        assert (k = k') as <- by lia. f_equal.
        rewrite Forall_forall in Hall.
        destruct (Hall _ Hx) as [_ Hl]. destruct (Hall _ Hy) as [_ Hl'].
        cbn [fst snd] in Hl, Hl'. congruence.
  - by rewrite Hperm.
  - intros p Hp.
    change (row_group p ∈ fst <$> sorted_by Summary.row_lt (Summary.rows_of phs)).
    rewrite Hperm. by apply Hcov.
  - rewrite <- Hsum.
    change (sum_list ((fun g : nat * list Placeholder => length g.2) <$>
                        sorted_by Summary.row_lt (Summary.rows_of phs))
            = sum_list ((fun g : nat * list Placeholder => length g.2) <$>
                        Summary.rows_of phs)).
    by rewrite Hperm.
Qed.

(** The summary of the sample deck. *)
Example sample_summary :
  (Summary.get_slide_summary sample_doc).1 =
  join newline
    [ ("Found 1 slides with Lorem Ipsum placeholders:" ++ newline)%string;
      "  Slide 1: Target State";
      "    - 2 placeholders";
      "    - Row 1: 2 boxes" ].
Proof. vm_compute. reflexivity. Qed.

(** ** The row walk over the placeholders in ascending order of top *)

Lemma spec_row_groups_row_of tops k t :
  tops_ordered tops ->
  sorted_by PrimFloat.ltb tops !! k = Some t ->
  spec_row_groups (sorted_by PrimFloat.ltb tops) !! k = Some (row_of tops t).
Proof.
  intros Hord Hkt.
  assert (tops_ordered (sorted_by PrimFloat.ltb tops)) as Hord'.
  { destruct Hord as [Hst Hself]. split.
    - eapply strict_total_on_perm; [|exact Hst]. by rewrite sorted_by_perm.
    - intros x Hx. apply Hself. by rewrite sorted_by_perm in Hx. }
  pose proof (sorted_by_ascending PrimFloat.ltb _ (proj1 Hord)) as Hasc.
  unfold row_of. cbv zeta.
  destruct (sorted_by PrimFloat.ltb tops) as [|first ks] eqn:Es;
    [by rewrite lookup_nil in Hkt|].
  unfold spec_row_groups.
  rewrite (spec_row_walk_lookup (first :: ks) 0 first k)
    by (by eapply lookup_lt_Some).
  by rewrite (run_rows_upto (first :: ks) (0, first) k t Hasc Hord' Hkt).
Qed.

Lemma strict_total_weak {A} (lt : A -> A -> bool) xs :
  strict_total_on lt xs -> strict_weak_on lt xs.
Proof.
  intros (Hirr & Htr & Hanti). split_and!; [done|done|].
  intros x y z Hx Hy Hz Hxy Hyz.
  destruct (lt x z) eqn:Hxz; [|done].
  destruct (lt y x) eqn:Hyx.
  - by rewrite (Htr y x z) in Hyz.
  - rewrite (Hanti x y) in Hxz by done. congruence.
Qed.

(** A list of indexed placeholders in ascending order of top has its tops
    in the one ascending arrangement of these tops. *)
Lemma ascending_tops phs (s : list (nat * Placeholder)) :
  tops_ordered (map top phs) ->
  s ≡ₚ imap pair phs ->
  StronglySorted (fun a b => PrimFloat.ltb (top b.2) (top a.2) = false) s ->
  map (fun ip => top ip.2) s = sorted_by PrimFloat.ltb (map top phs).
Proof.
  intros [Hst _] Hperm Hasc.
  assert (map (fun ip : nat * Placeholder => top ip.2) s ≡ₚ map top phs)
    as Hpt.
  { change (map ?f ?l) with (f <$> l). rewrite Hperm.
    replace ((fun ip : nat * Placeholder => top ip.2) <$> imap pair phs)
      with (top <$> phs); [done|].
    rewrite fmap_imap. symmetry. apply imap_const. }
  apply (ascending_unique PrimFloat.ltb).
  - unfold ascending. clear Hperm Hpt.
    induction Hasc as [|a s Hs IH Ha]; [constructor|].
    cbn [map]. constructor; [exact IH|].
    apply Forall_forall. intros t Ht.
    apply list_elem_of_fmap in Ht as (b & -> & Hb).
    by apply (proj1 (Forall_forall _ _) Ha).
  - by apply sorted_by_ascending.
  - by rewrite sorted_by_perm.
  - destruct Hst as (_ & _ & Hanti). intros x y Hx Hy.
    apply Hanti; by rewrite <- Hpt.
Qed.

(** C3: on the empty list the normalizer returns the empty list. On a list
    whose tops are ordered numbers it returns the same placeholders in the
    same positions, with the row groups of a single pass in ascending
    order of top: whenever the placeholders are arranged in ascending
    order of top, the [k]-th of them carries the [k]-th row group of the
    walk that the specification describes (row group 0 and the first top
    at the start; the row group is incremented and the current top reset
    exactly when the top is more than 0.5 away from the current top); the
    list that the code sorts is such an arrangement. The tops 0.1, 0.15,
    3.0, 3.05, 6.2 get the row groups 0, 0, 1, 1, 2. *)
Theorem assign_row_groups_walk (phs : list Placeholder) :
  tops_ordered (map top phs) ->
  _assign_row_groups [] = [] /\
  length (_assign_row_groups phs) = length phs /\
  (forall sorted_ph : list (nat * Placeholder),
     sorted_ph ≡ₚ imap pair phs ->
     StronglySorted (fun a b => PrimFloat.ltb (top b.2) (top a.2) = false)
                    sorted_ph ->
     forall k i p, sorted_ph !! k = Some (i, p) ->
       phs !! i = Some p /\
       exists rg,
         spec_row_groups (map (fun ip => top ip.2) sorted_ph) !! k = Some rg /\
         _assign_row_groups phs !! i = Some (set_row_group rg p)) /\
  (sorted_by top_lt (imap pair phs) ≡ₚ imap pair phs /\
   StronglySorted (fun a b => PrimFloat.ltb (top b.2) (top a.2) = false)
                  (sorted_by top_lt (imap pair phs))) /\
  map row_group (_assign_row_groups scenario_tops) = [0; 0; 1; 1; 2].
Proof.
  intros Hord.
  split; [reflexivity|]. split; [apply assign_row_groups_length|].
  split; [|split; [|vm_compute; reflexivity]].
  - intros s Hperm Hasc k i p Hk.
    assert (phs !! i = Some p) as Hi.
    { apply imap_pair_elem. rewrite <- Hperm. by eapply list_elem_of_lookup_2. }
    split; [exact Hi|]. exists (row_of (map top phs) (top p)). split.
    + rewrite (ascending_tops phs s Hord Hperm Hasc).
      apply spec_row_groups_row_of; [done|].
      rewrite <- (ascending_tops phs s Hord Hperm Hasc).
      change (map ?f ?l) with (f <$> l). by rewrite list_lookup_fmap, Hk.
    + rewrite (assign_row_groups_row_of phs Hord).
      change (map ?f ?l) with (f <$> l). by rewrite list_lookup_fmap, Hi.
  - split; [apply sorted_by_perm|].
    apply (sorted_by_ascending_weak top_lt).
    destruct (strict_total_weak _ _ (proj1 Hord)) as (Hirr & Htr & Hneg).
    assert (forall x : nat * Placeholder,
              x ∈ imap pair phs -> top x.2 ∈ map top phs) as Hin.
    { intros [i p] Hx. apply imap_pair_elem in Hx.
      apply list_elem_of_fmap. exists p. split; [done|].
      by eapply list_elem_of_lookup_2. }
    split_and!.
    + intros x Hx. apply Hirr. by apply Hin.
    + intros x y z Hx Hy Hz. apply Htr; by apply Hin.
    + intros x y z Hx Hy Hz. apply Hneg; by apply Hin.
Qed.

(** C3, on the scenario of the specification. *)
Lemma assign_row_groups_walk_witness :
  tops_ordered (map top scenario_tops) /\
  length (_assign_row_groups scenario_tops) = length scenario_tops /\
  StronglySorted (fun a b => PrimFloat.ltb (top b.2) (top a.2) = false)
                 (sorted_by top_lt (imap pair scenario_tops)) /\
  map row_group (_assign_row_groups scenario_tops) = [0; 0; 1; 1; 2].
Proof.
  assert (tops_ordered (map top scenario_tops)) as Hord.
  { unfold tops_ordered, strict_total_on, scenario_tops.
    cbn [map top sample_ph]. split_and!; by_cases. }
  split; [exact Hord|].
  destruct (assign_row_groups_walk scenario_tops Hord)
    as (_ & Hlen & _ & [_ Hasc] & Hrows).
  by split_and!.
Defined.

(** ** Ties keep the input order *)

Section Stability.
Context {A : Type} (lt : A -> A -> bool).

Lemma insert_by_stable z x l :
  strict_weak_on lt (z :: x :: l) ->
  filter (fun y => tied lt z y = true) (insert_by lt x l) =
  filter (fun y => tied lt z y = true) (x :: l).
Proof.
  induction l as [|y l IH]; intros Hst; [done|].
  cbn [insert_by]. destruct (lt y x) eqn:Hyx; [|done].
  rewrite filter_cons, IH.
  2:{ eapply strict_weak_on_subset; [|exact Hst]. set_solver. }
  rewrite !(filter_cons _ x), !(filter_cons _ y).
  destruct (decide (tied lt z y = true)) as [Hzy|Hzy];
    destruct (decide (tied lt z x = true)) as [Hzx|Hzx]; try done.
  exfalso. destruct Hst as (_ & _ & Hneg).
  unfold tied in Hzy, Hzx.
  apply andb_true_iff in Hzy as [_ Hyz%negb_true_iff].
  apply andb_true_iff in Hzx as [Hzx%negb_true_iff _].
  rewrite (Hneg y z x) in Hyx; [done|set_solver..|done|done].
Qed.

Lemma sorted_by_stable z l :
  strict_weak_on lt (z :: l) ->
  filter (fun y => tied lt z y = true) (sorted_by lt l) =
  filter (fun y => tied lt z y = true) l.
Proof.
  induction l as [|x l IH]; intros Hst; [done|].
  change (sorted_by lt (x :: l)) with (insert_by lt x (sorted_by lt l)).
  rewrite insert_by_stable.
  2:{ eapply strict_weak_on_subset; [|exact Hst].
      intros y. rewrite !elem_of_cons, sorted_by_perm. tauto. }
  rewrite !(filter_cons _ x), IH; [done|].
  eapply strict_weak_on_subset; [|exact Hst]. set_solver.
Qed.

End Stability.

(** C9 (amended): for two arrangements of the same placeholders whose tops
    are ordered by [<], the row group of a placeholder is in both the
    same function of its top; when no two placeholders share both row
    group and left, the sorted outputs are equal; and when the lefts are
    ordered numbers, the placeholders whose keys (row group, left) tie
    with the key of a given one come out of the sort in the order in
    which they are in the list that went in, which is the input list with
    the row groups set. *)
Theorem normalize_order_independent (l l' : list Placeholder) :
  l ≡ₚ l' ->
  tops_ordered (map top l) ->
  (_assign_row_groups l =
     map (fun p => set_row_group (row_of (map top l) (top p)) p) l /\
   _assign_row_groups l' =
     map (fun p => set_row_group (row_of (map top l) (top p)) p) l') /\
  (strict_total_on row_left_lt (_assign_row_groups l) ->
   normalize l' = normalize l) /\
  (strict_weak_on left_lt (map left l) ->
   forall x, x ∈ _assign_row_groups l' ->
     filter (fun y => tied row_left_lt x y = true) (normalize l') =
     filter (fun y => tied row_left_lt x y = true)
            (map (fun p => set_row_group (row_of (map top l) (top p)) p) l')).
Proof.
  intros Hp Hord.
  assert (map top l ≡ₚ map top l') as Hpt by (by apply fmap_Permutation).
  assert (tops_ordered (map top l')) as Hord'.
  { destruct Hord as [Hst Hself]. split.
    - by eapply strict_total_on_perm.
    - intros t Ht. apply Hself. by rewrite Hpt. }
  assert (_assign_row_groups l' =
          map (fun p => set_row_group (row_of (map top l) (top p)) p) l')
    as El'.
  { rewrite (assign_row_groups_row_of l' Hord').
    apply map_ext. intros p. by rewrite (row_of_perm (map top l) (map top l')). }
  pose proof (assign_row_groups_row_of l Hord) as El.
  split; [by split|]. split.
  - intros Hties. unfold normalize.
    apply sorted_by_unique; [|exact Hties].
    rewrite El, El'.
    by apply (fmap_Permutation
                (fun p => set_row_group (row_of (map top l) (top p)) p)).
  - intros Hleft x Hx. unfold normalize. rewrite <- El'.
    apply sorted_by_stable.
    eapply strict_weak_on_subset; [|apply (row_left_weak (_assign_row_groups l'))].
    + intros y. rewrite elem_of_cons. by intros [->|Hy].
    + eapply strict_weak_on_subset; [|exact Hleft].
      intros t Ht. apply list_elem_of_fmap in Ht as (q & -> & Hq).
      rewrite El' in Hq. apply list_elem_of_fmap in Hq as (p & -> & Hq).
      cbn [left set_row_group]. apply list_elem_of_fmap. exists p.
      split; [done|]. by rewrite Hp.
Qed.

(** C9 (amended), for three placeholders in two rows. *)
Lemma normalize_order_independent_witness :
  three_boxes ≡ₚ three_boxes_shuffled /\
  tops_ordered (map top three_boxes) /\
  strict_total_on row_left_lt (_assign_row_groups three_boxes) /\
  normalize three_boxes_shuffled = normalize three_boxes.
Proof.
  assert (three_boxes ≡ₚ three_boxes_shuffled) as Hp.
  { symmetry.
    exact (Permutation_cons_append
             [sample_ph "c" 1 3; sample_ph "a" 1 0.1] (sample_ph "b" 4 0.15)). }
  assert (tops_ordered (map top three_boxes)) as Hord.
  { unfold tops_ordered, strict_total_on, three_boxes. cbn [map top sample_ph].
    split_and!; by_cases. }
  assert (strict_total_on row_left_lt (_assign_row_groups three_boxes))
    as Hties.
  { let v := eval vm_compute in (_assign_row_groups three_boxes) in
    change (_assign_row_groups three_boxes) with v.
    unfold strict_total_on. split_and!; by_cases. }
  split_and!; [done..|].
  exact (proj1 (proj2 (normalize_order_independent
                         three_boxes three_boxes_shuffled Hp Hord)) Hties).
Defined.

(** ** A fenced block without tag *)

Lemma prefix_extend sep s t :
  String.prefix sep s = true -> String.prefix sep (s ++ t)%string = true.
Proof.
  revert s. induction sep as [|a sep IH]; intros s Hs; [apply prefix_nil|].
  destruct s as [|b s]; [done|].
  change (String.prefix (String a sep) (String b (s ++ t)%string) = true).
  rewrite prefix_cons in *. apply andb_true_iff in Hs as [-> Hs].
  by rewrite IH.
Qed.

Lemma contains_extend sep s t :
  contains sep s = true -> contains sep (s ++ t)%string = true.
Proof.
  induction s as [|x s IH]; intros Hs.
  - cbn [contains] in Hs. rewrite orb_false_r in Hs.
    destruct sep; [|done]. destruct t; done.
  - cbn [contains] in Hs.
    change (contains sep (String x (s ++ t)%string) = true).
    cbn [contains]. apply orb_true_iff in Hs as [Hs|Hs]; apply orb_true_iff.
    + left. exact (prefix_extend sep (String x s) t Hs).
    + right. by apply IH.
Qed.

(** Whether a fence begins at the first character is decided by the
    first three characters. *)
Lemma prefix_fence_before x s rest :
  String.prefix fence (String x (s ++ fence ++ rest)%string) =
  String.prefix fence (String x (s ++ "``")%string).
Proof.
  unfold fence.
  destruct s as [|a [|b s]];
    repeat first
      [ progress change ("" ++ ?t)%string with t
      | progress change (String ?c ?u ++ ?t)%string
          with (String c (u ++ t)%string) ];
    rewrite ?prefix_cons, ?prefix_nil, ?Ascii.eqb_refl; reflexivity.
Qed.

Lemma after_first_fence pre rest :
  contains fence (pre ++ "``")%string = false ->
  after_first fence (pre ++ fence ++ rest)%string = Some rest.
Proof.
  induction pre as [|x pre IH]; intros Hc.
  - exact (after_first_lacks "`" "``" "" rest eq_refl).
  - change (contains fence (String x (pre ++ "``")%string) = false) in Hc.
    cbn [contains] in Hc. apply orb_false_iff in Hc as [Hp Hc].
    change (after_first fence (String x (pre ++ fence ++ rest)%string)
            = Some rest).
    cbn [after_first]. rewrite prefix_fence_before, Hp. by apply IH.
Qed.

Lemma before_first_fence body rest :
  contains fence (body ++ "``")%string = false ->
  before_first fence (body ++ fence ++ rest)%string = body.
Proof.
  induction body as [|x body IH]; intros Hc.
  - exact (before_first_lacks "`" "``" "" rest eq_refl).
  - change (contains fence (String x (body ++ "``")%string) = false) in Hc.
    cbn [contains] in Hc. apply orb_false_iff in Hc as [Hp Hc].
    change (before_first fence (String x (body ++ fence ++ rest)%string)
            = String x body).
    cbn [before_first]. rewrite prefix_fence_before, Hp. by rewrite IH.
Qed.

Lemma before_first_absent sep s :
  contains sep s = false -> before_first sep s = s.
Proof.
  induction s as [|x s IH]; intros Hc.
  - cbn [before_first]. by destruct (String.prefix sep "").
  - cbn [contains] in Hc. apply orb_false_iff in Hc as [Hp Hc].
    cbn [before_first]. by rewrite Hp, IH.
Qed.

(** X14: in a response without the json tag, the text between the first
    fence and the next one is what is read. With the response cut as
    [pre], fence, [body], fence, [post], where no fence begins in [pre] or
    in [body] (neither contains a fence or ends with a backtick; single
    backticks inside are allowed), the response is read as [body]; [pre]
    and [post] are ignored. *)
Theorem fenced_block_is_its_body loads pre body post :
  contains fence (pre ++ "``")%string = false ->
  contains fence (body ++ "``")%string = false ->
  contains json_fence (pre ++ fence ++ body ++ fence ++ post)%string = false ->
  unfenced (pre ++ fence ++ body ++ fence ++ post)%string = body /\
  response_mappings loads (pre ++ fence ++ body ++ fence ++ post)%string
  = response_mappings loads body.
Proof.
  intros Hpre Hbody Htag.
  assert (unfenced (pre ++ fence ++ body ++ fence ++ post)%string = body)
    as Hu.
  { unfold unfenced. rewrite Htag. unfold fence at 1.
    rewrite (contains_after "`" "``" pre). unfold split_1.
    rewrite after_first_fence by done.
    rewrite before_first_fence by done.
    apply before_first_absent.
    destruct (contains fence body) eqn:E; [|done].
    by rewrite (contains_extend fence body "``" E) in Hbody. }
  split; [done|].
  unfold response_mappings, parse_response. rewrite Hu.
  rewrite (unfenced_plain body); [done|].
  destruct (contains fence body) eqn:E; [|done].
  by rewrite (contains_extend fence body "``" E) in Hbody.
Qed.

(** X14, for a reply with inline code before the block. *)
Lemma fenced_block_is_its_body_witness :
  unfenced ("`x` " ++ fence ++ "{}" ++ fence ++ " as asked")%string = "{}" /\
  response_mappings json_loads
    ("`x` " ++ fence ++ "{}" ++ fence ++ " as asked")%string
  = response_mappings json_loads "{}".
Proof.
  apply (fenced_block_is_its_body json_loads "`x` " "{}" " as asked");
    vm_compute; reflexivity.
Defined.

(** X19, for the sample deck and a filter that selects its slide: the run
    sends a request and writes into the slide. *)
Lemma populate_all_slides_reach_witness :
  map index (selected (Some "Target")
               (find_architecture_slides sample_doc).1) = [0%Z] /\
  presentation
    (Agent.populate_all_slides sample_reply sample_agent sample_analysis
       (Some "Target") false).2 <> presentation sample_agent /\
  exists doc',
    Agent.document
      (Agent.populate_all_slides sample_reply sample_agent sample_analysis
         (Some "Target") false).2 = Some doc' /\
    length (prs doc') = length (prs sample_doc) /\
    forall i,
      Z.of_nat i ∉ map index (selected (Some "Target")
                                (find_architecture_slides sample_doc).1) ->
      prs doc' !! i = prs sample_doc !! i.
Proof.
  split; [vm_compute; reflexivity|].
  split; [vm_compute; discriminate|].
  exact (populate_all_slides_reach sample_reply sample_agent sample_doc
           sample_analysis (Some "Target") false eq_refl).
Defined.
